(** * robotcode.jsonrpc2.protocol: framing, registry and dispatch engine

    A shallow embedding of [src/robotcode/jsonrpc2/protocol.py]:
    - the byte-level framer ([MESSAGE_PATTERN], [data_received]);
    - the method registry ([RpcRegistry]);
    - the dispatcher ([JsonRPCProtocol]) as a state-passing machine over an
      explicit store of asyncio futures and tasks. *)

From Stdlib Require Import ZArith NArith List Bool Lia.
From Stdlib Require Import Strings.String Strings.Ascii Strings.Byte.
From Stdlib Require Import Numbers.DecimalString Numbers.DecimalNat.
From stdpp Require Import base option list gmap strings.

Import ListNotations.
Local Open Scope string_scope.
Local Open Scope list_scope.

(** ** Bytes *)

Abbreviation bytes := (list byte).

(** A bytes literal [b"..."]. *)
Definition b (s : string) : bytes := list_byte_of_string s.

Definition CR : byte := x0d.
Definition LF : byte := x0a.
Definition crlf : bytes := [CR; LF].

(** [s.startswith(p)] together with the remainder [s[len(p):]]. *)
Fixpoint strip_prefix (p s : bytes) : option bytes :=
  match p, s with
  | [], _ => Some s
  | x :: p', y :: s' => if Byte.eqb x y then strip_prefix p' s' else None
  | _ :: _, [] => None
  end.

(** ** JSON values, ids, messages and exceptions *)

(** What [json.loads] returns and [as_json] takes.  Python's [None] is
    [JNull]; a [dict] keeps its keys in insertion order. *)
#[warnings="-register-all"]
Inductive json : Type :=
| JNull
| JBool (v : bool)
| JNum (n : Z)
| JStr (s : string)
| JArr (items : list json)
| JObj (fields : list (string * json)).

(** [key in d], [d[key]] and [d.pop(key)] on a [dict]. *)
Fixpoint dict_get (key : string) (d : list (string * json)) : option json :=
  match d with
  | [] => None
  | (k, v) :: d' => if String.eqb k key then Some v else dict_get key d'
  end.

Fixpoint dict_pop (key : string) (d : list (string * json)) : list (string * json) :=
  match d with
  | [] => []
  | (k, v) :: d' => if String.eqb k key then d' else (k, v) :: dict_pop key d'
  end.

(** A request id, [Union[int, str]]; [Union[int, str, None]] is
    [option rpc_id]. *)
Inductive rpc_id : Type :=
| IdInt (n : Z)
| IdStr (s : string).

#[global] Instance rpc_id_eq_dec : EqDecision rpc_id.
Proof. solve_decision. Defined.

#[global] Instance rpc_id_countable : Countable rpc_id.
Proof.
  refine (inj_countable'
            (fun i => match i with IdInt n => inl n | IdStr s => inr s end)
            (fun x => match x with inl n => IdInt n | inr s => IdStr s end) _).
  by intros [].
Defined.

Module JsonRPCErrors.
Definition PARSE_ERROR : Z := -32700.
Definition INVALID_REQUEST : Z := -32600.
Definition METHOD_NOT_FOUND : Z := -32601.
Definition INVALID_PARAMS : Z := -32602.
Definition INTERNAL_ERROR : Z := -32603.
Definition SERVER_ERROR_START : Z := -32000.
Definition SERVER_ERROR_END : Z := -32099.
Definition REQUEST_CANCELLED : Z := -32800.
End JsonRPCErrors.

Definition PROTOCOL_VERSION : string := "2.0".

Record JsonRPCErrorObject : Type := {
  code : Z;
  message : option string;
  data : json;
}.

(** The four dataclasses below [JsonRPCMessage]; the field [jsonrpc] is the
    constant [PROTOCOL_VERSION] in each of them. *)
Inductive JsonRPCMessage : Type :=
| JsonRPCNotification (method : string) (params : json)
| JsonRPCRequest (id : option rpc_id) (method : string) (params : json)
| JsonRPCResponse (id : option rpc_id) (result : json)
| JsonRPCError (id : option rpc_id) (error : JsonRPCErrorObject) (result : json).

(** The exceptions the module raises or tells apart in an [except] clause;
    every other [BaseException] is [OtherError] with its class name and its
    [str]. *)
Inductive exn : Type :=
| CancelledError
| SystemExit
| KeyboardInterrupt
| JsonRPCErrorException (code : Z) (message : option string) (data : json)
| InvalidProtocolVersionError (msg : string)
| JsonRPCException (msg : string)
| OtherError (type_name : string) (descr : string).

(** [type(e).__name__] and [str(e)]. *)
Definition exn_type_name (e : exn) : string :=
  match e with
  | CancelledError => "CancelledError"
  | SystemExit => "SystemExit"
  | KeyboardInterrupt => "KeyboardInterrupt"
  | JsonRPCErrorException _ _ _ => "JsonRPCErrorException"
  | InvalidProtocolVersionError _ => "InvalidProtocolVersionError"
  | JsonRPCException _ => "JsonRPCException"
  | OtherError n _ => n
  end.

Definition exn_str (e : exn) : string :=
  match e with
  | CancelledError | SystemExit | KeyboardInterrupt => ""
  | JsonRPCErrorException _ (Some m) _ => m
  | JsonRPCErrorException _ None _ => "None"
  | InvalidProtocolVersionError m => m
  | JsonRPCException m => m
  | OtherError _ d => d
  end.

(** The f-string [f"{type(e).__name__}: {e}"]. *)
Definition describe (e : exn) : string :=
  (exn_type_name e ++ ": " ++ exn_str e)%string.

(** ** A backtracking matcher for the regular expressions of [re]

    Python's [re] is a backtracking engine: alternatives are tried left to
    right, a greedy repetition tries one more iteration before it tries the
    rest of the pattern, and the first way through the pattern wins.  The
    matcher is written with an explicit continuation [k] for the rest of the
    pattern, so that a failure of [k] makes the enclosing choice point try its
    next alternative.  Captures are threaded functionally: the captures of an
    abandoned attempt are forgotten, a group inside a repetition keeps the
    text of its last successful iteration. *)

Inductive regex : Type :=
| Lit (bs : bytes)                  (* a literal byte string *)
| Class (p : byte -> bool)          (* one byte of a class: [..], \d, . *)
| Seq (r1 r2 : regex)               (* r1 r2 *)
| Alt (r1 r2 : regex)               (* r1|r2 *)
| Star (r : regex)                  (* r*, greedy *)
| Group (name : string) (r : regex) (* (?P<name>r) *).

(** [r?] and [r+], both greedy. *)
Definition Opt (r : regex) : regex := Alt r (Lit []).
Definition Plus (r : regex) : regex := Seq r (Star r).

Declare Scope regex_scope.
Delimit Scope regex_scope with re.
Bind Scope regex_scope with regex.
Infix "·" := Seq (at level 40, left associativity) : regex_scope.

Abbreviation captures := (list (string * bytes)).

(** [m.group(name)]: the last text captured under [name], [None] when the
    group did not take part in the match. *)
Fixpoint group (name : string) (c : captures) : option bytes :=
  match c with
  | [] => None
  | (n, v) :: c' => if String.eqb n name then Some v else group name c'
  end.

Section Matcher.
Context {A : Type}.

(** A greedy repetition of [step] (the matcher of the repeated pattern)
    followed by the continuation [k]: one more iteration first, the rest of
    the pattern when that fails.  The repetition is bounded by the length of
    the remaining input: an iteration that consumes nothing does not count
    (no repetition of [MESSAGE_PATTERN] has such an iteration). *)
Fixpoint star_iter
    (step : bytes -> captures -> (bytes -> captures -> option A) -> option A)
    (k : bytes -> captures -> option A)
    (n : nat) (s : bytes) (c : captures) {struct n} : option A :=
  match n with
  | O => k s c
  | S n' =>
      match step s c (fun s' c' =>
              if Nat.ltb (List.length s') (List.length s)
              then star_iter step k n' s' c'
              else None) with
      | Some x => Some x
      | None => k s c
      end
  end.

Fixpoint rmatch (r : regex) (s : bytes) (c : captures)
    (k : bytes -> captures -> option A) {struct r} : option A :=
  match r with
  | Lit bs =>
      match strip_prefix bs s with
      | Some s' => k s' c
      | None => None
      end
  | Class p =>
      match s with
      | x :: s' => if p x then k s' c else None
      | [] => None
      end
  | Seq r1 r2 => rmatch r1 s c (fun s' c' => rmatch r2 s' c' k)
  | Alt r1 r2 =>
      match rmatch r1 s c k with
      | Some x => Some x
      | None => rmatch r2 s c k
      end
  | Star r0 => star_iter (rmatch r0) k (List.length s) s c
  | Group name r0 =>
      rmatch r0 s c (fun s' c' =>
        k s' ((name, take (List.length s - List.length s') s) :: c'))
  end.
End Matcher.

(** The least number of bytes a match of [r] consumes. *)
Fixpoint min_len (r : regex) : nat :=
  match r with
  | Lit bs => List.length bs
  | Class _ => 1
  | Seq r1 r2 => min_len r1 + min_len r2
  | Alt r1 r2 => Nat.min (min_len r1) (min_len r2)
  | Star _ => 0
  | Group _ r0 => min_len r0
  end.

(** [pattern.match(s)]: anchored at the start of [s], not at its end. *)
Definition re_match (r : regex) (s : bytes) : option captures :=
  rmatch r s [] (fun _ c => Some c).

(** ** The framer of [JsonRPCProtocolBase] *)

Definition CHARSET : string := "utf-8".
Definition CONTENT_TYPE : string := "application/vscode-jsonrpc".

(** The character classes of [MESSAGE_PATTERN]. *)
Definition not_crlf (x : byte) : bool :=
  negb (Byte.eqb x CR) && negb (Byte.eqb x LF).
Definition not_crlf_semi (x : byte) : bool :=
  not_crlf x && negb (Byte.eqb x x3b).
Definition digit (x : byte) : bool :=
  (48 <=? Byte.to_N x)%N && (Byte.to_N x <=? 57)%N.
Definition any_byte (_ : byte) : bool := true.

(** [MESSAGE_PATTERN] is the concatenation of five literals in the source,
    one definition per line here (the groups without a name are never read,
    they are kept as plain sequences).

    [(?:[^\r\n]*\r\n)*] *)
Definition LEADING_LINES : regex :=
  Star (Star (Class not_crlf) · Lit crlf).

(** [(Content-Length: ?(?P<length>\d+)\r\n)] *)
Definition CONTENT_LENGTH_LINE : regex :=
  (Lit (b "Content-Length:") · Opt (Lit (b " "))
     · Group "length" (Plus (Class digit)) · Lit crlf)%re.

(** [((Content-Type: ?(?P<content_type>[^\r\n;]+)
       (; *(charset=(?P<charset>[^\r\n]+))?)?\r\n)|(?:[^\r\n]+\r\n))*] *)
Definition HEADER_LINES : regex :=
  Star (Alt
    (Lit (b "Content-Type:") · Opt (Lit (b " "))
       · Group "content_type" (Plus (Class not_crlf_semi))
       · Opt (Lit (b ";") · Star (Lit (b " "))
                · Opt (Lit (b "charset=")
                         · Group "charset" (Plus (Class not_crlf))))
       · Lit crlf)
    (Plus (Class not_crlf) · Lit crlf)).

(** [\r\n(?P<body>.* )] with [re.DOTALL]: the body is the rest of the input. *)
Definition BODY : regex := Group "body" (Star (Class any_byte)).

Definition MESSAGE_PATTERN : regex :=
  (LEADING_LINES · CONTENT_LENGTH_LINE · HEADER_LINES · Lit crlf · BODY)%re.

(** [int(found.group("length"))] on the digits the pattern captured. *)
Definition int_of_digits (ds : bytes) : N :=
  fold_left (fun acc x => (acc * 10 + (Byte.to_N x - 48))%N) ds 0%N.

(** [bs.decode("ascii")]: fails on a byte above 127. *)
Definition decode_ascii (bs : bytes) : exn + string :=
  if forallb (fun x => (Byte.to_N x <? 128)%N) bs
  then inr (string_of_list_byte bs)
  else inl (OtherError "UnicodeDecodeError" "'ascii' codec can't decode byte").

(** The three assignments of [data_received] after the search: [body],
    [length] and [charset], from the match [found] or their defaults. *)
Definition found_body (found : option captures) : bytes :=
  match found with
  | Some m => default [] (group "body" m)
  | None => []
  end.

Definition found_length (found : option captures) : N :=
  match found with
  | Some m => int_of_digits (default [] (group "length" m))
  | None => 1%N
  end.

Definition found_charset (found : option captures) : exn + string :=
  match found with
  | Some m =>
      match group "charset" m with
      | Some cs => decode_ascii cs
      | None => inr CHARSET
      end
  | None => inr CHARSET
  end.

Section Framer.
(** The framer is the base class: [_handle_body] is abstract, here a
    function on the state [St] of the subclass that may raise. *)
Context {St : Type} (_handle_body : bytes -> string -> St -> St * option exn).

(** One run of the [while len(data)] loop of [data_received], on the
    buffer [_message_buf] and the chunk [data].  The result is the state of
    the subclass, the new [_message_buf] and the exception that left the
    method, if any.  Each iteration continues with less input than it was
    given, so the bound [fuel] of [data_received] is never used up
    ([data_received_loop_enough]). *)
Fixpoint data_received_loop (fuel : nat) (message_buf data : bytes) (st : St)
    : St * bytes * option exn :=
  match fuel with
  | O => (st, message_buf, None)
  | S fuel' =>
      match data with
      | [] => (st, message_buf, None)
      | _ :: _ =>
          let message_buf := message_buf ++ data in
          let found := re_match MESSAGE_PATTERN message_buf in
          let body := found_body found in
          let len := found_length found in
          match found_charset found with
          | inl e => (st, message_buf, Some e)
          | inr charset =>
              if (N.of_nat (List.length body) <? len)%N
              then (st, message_buf, None)
              else
                let data := drop (N.to_nat len) body in
                let body := take (N.to_nat len) body in
                match _handle_body body charset st with
                | (st', Some e) => (st', [], Some e)
                | (st', None) => data_received_loop fuel' [] data st'
                end
          end
      end
  end.

Definition data_received (message_buf data : bytes) (st : St)
    : St * bytes * option exn :=
  data_received_loop (S (List.length (message_buf ++ data))) message_buf data st.
End Framer.

(** The framer alone: a [_handle_body] that records the bodies it is given,
    oldest first. *)
Definition record_body (body : bytes) (charset : string)
    (seen : list (bytes * string)) : list (bytes * string) * option exn :=
  (seen ++ [(body, charset)], None).

(** Feeding chunks one at a time to a fresh framer. *)
Fixpoint feed (chunks : list bytes) (message_buf : bytes)
    (seen : list (bytes * string)) : list (bytes * string) * bytes * option exn :=
  match chunks with
  | [] => (seen, message_buf, None)
  | chunk :: chunks' =>
      match data_received record_body message_buf chunk seen with
      | (seen', message_buf', None) => feed chunks' message_buf' seen'
      | r => r
      end
  end.

(** ** The method registry *)

(** A handler, [Callable[..., Any]]: what the engine asks of the object
    ([callable(f)], the [__threaded__] mark of [HasThreaded]) and a name that
    tells two handlers apart. *)
Record handler : Type := {
  h_ident : string;
  h_callable : bool;
  h_threaded : bool;
}.

Record RpcMethodEntry : Type := {
  name : string;
  method : handler;
  param_type : option string;
  cancelable : bool;
}.

(** An object with methods marked by [rpc_method] (the owner of a registry,
    or a part), as [iter_methods] enumerates it: the bound method and the
    [__rpc_method__] entry it carries. *)
Record rpc_object : Type := {
  obj_ident : nat;
  obj_methods : list (handler * RpcMethodEntry);
}.

(** The registry of one owner instance.  [class_parts] are the parts a
    [ProtocolPartDescriptor] declared on the owner's classes, created on the
    first [getattr]; [class_part_instances] is the [WeakSet] of live parts in
    the order its iteration gives them. *)
Record RpcRegistry : Type := {
  owner : rpc_object;
  methods : gmap string RpcMethodEntry;
  initialized : bool;
  class_parts : list rpc_object;
  class_part_instances : list rpc_object;
}.

Module Registry.

Definition set_methods (m : gmap string RpcMethodEntry) (r : RpcRegistry)
    : RpcRegistry :=
  {| owner := owner r; methods := m; initialized := initialized r;
     class_parts := class_parts r;
     class_part_instances := class_part_instances r |}.

Definition set_initialized (i : bool) (r : RpcRegistry) : RpcRegistry :=
  {| owner := owner r; methods := methods r; initialized := i;
     class_parts := class_parts r;
     class_part_instances := class_part_instances r |}.

Definition set_instances (l : list rpc_object) (r : RpcRegistry)
    : RpcRegistry :=
  {| owner := owner r; methods := methods r; initialized := initialized r;
     class_parts := class_parts r; class_part_instances := l |}.

(** [RpcRegistry(owner)] *)
Definition init (o : rpc_object) (declared : list rpc_object) : RpcRegistry :=
  {| owner := o; methods := ∅; initialized := false;
     class_parts := declared; class_part_instances := [] |}.

Definition _reset (r : RpcRegistry) : RpcRegistry :=
  set_initialized false (set_methods ∅ r).

(** [WeakSet.add]: an instance is in the set once. *)
Definition weakset_add (p : rpc_object) (l : list rpc_object)
    : list rpc_object :=
  if existsb (fun q => Nat.eqb (obj_ident q) (obj_ident p)) l
  then l else l ++ [p].

Definition add_class_part_instance (p : rpc_object) (r : RpcRegistry)
    : RpcRegistry :=
  let r := _reset r in
  set_instances (weakset_add p (class_part_instances r)) r.

(** The dict comprehension of [get_methods]: a later method of the same
    name replaces an earlier one. *)
Definition get_methods (o : rpc_object) : gmap string RpcMethodEntry :=
  fold_left
    (fun acc me =>
       <[name (snd me) :=
           {| name := name (snd me); method := fst me;
              param_type := param_type (snd me);
              cancelable := cancelable (snd me) |}]> acc)
    (obj_methods o) ∅.

(** [__ensure_initialized] for an owner that is an instance: the declared
    parts are created (each adds itself and resets the registry), then the
    methods of the owner are taken and updated with those of every part. *)
Definition ensure_initialized (r : RpcRegistry) : RpcRegistry :=
  if initialized r then r
  else
    let r := fold_left (fun r p => add_class_part_instance p r)
                       (class_parts r) r in
    let m := fold_left (fun acc p => get_methods p ∪ acc)
                       (class_part_instances r) (get_methods (owner r)) in
    set_initialized true (set_methods m r).

Definition add_method (n : string) (func : handler)
    (pt : option string) (c : bool) (r : RpcRegistry) : RpcRegistry :=
  let r := ensure_initialized r in
  set_methods
    (<[n := {| name := n; method := func; param_type := pt;
               cancelable := c |}]> (methods r)) r.

Definition remove_method (n : string) (r : RpcRegistry)
    : RpcRegistry * option RpcMethodEntry :=
  let r := ensure_initialized r in
  (set_methods (delete n (methods r)) r, methods r !! n).

(** [get_entry]: the registry after the call (it may have been initialized
    by it) and the entry or [None]. *)
Definition get_entry (n : string) (r : RpcRegistry)
    : RpcRegistry * option RpcMethodEntry :=
  let r := ensure_initialized r in
  (r, methods r !! n).

Definition get_method (n : string) (r : RpcRegistry)
    : RpcRegistry * option handler :=
  let (r, result) := get_entry n r in
  (r, method <$> result).

Definition get_param_type (n : string) (r : RpcRegistry)
    : RpcRegistry * option string :=
  let (r, result) := get_entry n r in
  (r, result ≫= param_type).

End Registry.

(** ** The dispatcher: state *)

(** Where an [asyncio] future lives, seen from the loop the engine runs on:
    [future._loop == asyncio.get_running_loop()], or another loop that is
    running, or another loop that is not running: stopped, where
    [call_soon_threadsafe] queues a call for the time the loop runs again,
    or closed, where [call_soon_threadsafe] raises [RuntimeError]. *)
Inductive future_loop : Type :=
| RunningLoop
| OtherLoopRunning
| OtherLoopStopped
| OtherLoopClosed.

(** The state of a future or task: pending (for a task, with the flag
    [_must_cancel] that [cancel()] sets), or done with a result or an
    exception; done with [CancelledError] is the cancelled state. *)
Inductive future_state : Type :=
| Pending (must_cancel : bool)
| Done (outcome : exn + json).

(** A future in the store.  [f_done_callback] is the closure [done] that
    [handle_request] adds to the task of a handler, with the [message.id] it
    captured, until the loop has called it. *)
Record future : Type := {
  f_state : future_state;
  f_loop : future_loop;
  f_done_callback : option (option rpc_id);
}.

Definition future_done (f : future) : bool :=
  match f_state f with
  | Pending _ => false
  | Done _ => true
  end.

Definition future_cancelled (f : future) : bool :=
  match f_state f with
  | Done (inl CancelledError) => true
  | _ => false
  end.

(** [Task.cancel()]: a request, the task is cancelled when its coroutine
    lets the [CancelledError] through; nothing on a task that is done. *)
Definition future_cancel (f : future) : future :=
  match f_state f with
  | Pending _ =>
      {| f_state := Pending true; f_loop := f_loop f;
         f_done_callback := f_done_callback f |}
  | Done _ => f
  end.

(** [set_result] / [set_exception] *)
Definition future_set (o : exn + json) (f : future) : future :=
  {| f_state := Done o; f_loop := f_loop f;
     f_done_callback := f_done_callback f |}.

Definition future_clear_callback (f : future) : future :=
  {| f_state := f_state f; f_loop := f_loop f; f_done_callback := None |}.

(** A call that [handle_response] hands to the loop of a future with
    [call_soon_threadsafe]: the local function [s(f, r)], which sets the
    result when the future is not done, or [f.set_exception] with its
    argument.  The future is named by its reference. *)
Inductive scheduled_call : Type :=
| SetResultIfNotDone (fut : nat) (res : json)
| SetException (fut : nat) (e : exn).

(** References to futures are indices into the store. *)
Record SendedRequestEntry : Type := {
  se_future : nat;
  se_result_type : option string;
}.

Record ReceivedRequestEntry : Type := {
  re_future : nat;
  re_request : JsonRPCMessage;
  re_cancelable : bool;
}.

(** The fields of a [JsonRPCProtocol] instance, the store of the futures it
    has references to, the [handle_message] tasks that [create_sub_task]
    made and the loop has not started yet, the byte strings handed to
    [write_transport.write], oldest first, and the calls handed to the loops
    of other threads with [call_soon_threadsafe], oldest first. *)
Record JsonRPCProtocol : Type := {
  write_transport : bool;
  _loop : bool;
  _message_buf : bytes;
  registry : RpcRegistry;
  _sended_request : gmap rpc_id SendedRequestEntry;
  _sended_request_count : Z;
  _received_request : gmap (option rpc_id) ReceivedRequestEntry;
  futures : list future;
  tasks : list JsonRPCMessage;
  written : list bytes;
  scheduled : list scheduled_call;
}.

Module State.

Definition set_write_transport (v : bool) (s : JsonRPCProtocol) :=
  {| write_transport := v; _loop := _loop s;
     _message_buf := _message_buf s; registry := registry s;
     _sended_request := _sended_request s;
     _sended_request_count := _sended_request_count s;
     _received_request := _received_request s; futures := futures s;
     tasks := tasks s; written := written s;
     scheduled := scheduled s |}.

Definition set_loop (v : bool) (s : JsonRPCProtocol) :=
  {| write_transport := write_transport s; _loop := v;
     _message_buf := _message_buf s; registry := registry s;
     _sended_request := _sended_request s;
     _sended_request_count := _sended_request_count s;
     _received_request := _received_request s; futures := futures s;
     tasks := tasks s; written := written s;
     scheduled := scheduled s |}.

Definition set_message_buf (v : bytes) (s : JsonRPCProtocol) :=
  {| write_transport := write_transport s; _loop := _loop s;
     _message_buf := v; registry := registry s;
     _sended_request := _sended_request s;
     _sended_request_count := _sended_request_count s;
     _received_request := _received_request s; futures := futures s;
     tasks := tasks s; written := written s;
     scheduled := scheduled s |}.

Definition set_registry (v : RpcRegistry) (s : JsonRPCProtocol) :=
  {| write_transport := write_transport s; _loop := _loop s;
     _message_buf := _message_buf s; registry := v;
     _sended_request := _sended_request s;
     _sended_request_count := _sended_request_count s;
     _received_request := _received_request s; futures := futures s;
     tasks := tasks s; written := written s;
     scheduled := scheduled s |}.

Definition set_sended_request (v : gmap rpc_id SendedRequestEntry)
    (s : JsonRPCProtocol) :=
  {| write_transport := write_transport s; _loop := _loop s;
     _message_buf := _message_buf s; registry := registry s;
     _sended_request := v;
     _sended_request_count := _sended_request_count s;
     _received_request := _received_request s; futures := futures s;
     tasks := tasks s; written := written s;
     scheduled := scheduled s |}.

Definition set_sended_request_count (v : Z) (s : JsonRPCProtocol) :=
  {| write_transport := write_transport s; _loop := _loop s;
     _message_buf := _message_buf s; registry := registry s;
     _sended_request := _sended_request s;
     _sended_request_count := v;
     _received_request := _received_request s; futures := futures s;
     tasks := tasks s; written := written s;
     scheduled := scheduled s |}.

Definition set_received_request
    (v : gmap (option rpc_id) ReceivedRequestEntry) (s : JsonRPCProtocol) :=
  {| write_transport := write_transport s; _loop := _loop s;
     _message_buf := _message_buf s; registry := registry s;
     _sended_request := _sended_request s;
     _sended_request_count := _sended_request_count s;
     _received_request := v; futures := futures s;
     tasks := tasks s; written := written s;
     scheduled := scheduled s |}.

Definition set_futures (v : list future) (s : JsonRPCProtocol) :=
  {| write_transport := write_transport s; _loop := _loop s;
     _message_buf := _message_buf s; registry := registry s;
     _sended_request := _sended_request s;
     _sended_request_count := _sended_request_count s;
     _received_request := _received_request s; futures := v;
     tasks := tasks s; written := written s;
     scheduled := scheduled s |}.

Definition set_tasks (v : list JsonRPCMessage) (s : JsonRPCProtocol) :=
  {| write_transport := write_transport s; _loop := _loop s;
     _message_buf := _message_buf s; registry := registry s;
     _sended_request := _sended_request s;
     _sended_request_count := _sended_request_count s;
     _received_request := _received_request s; futures := futures s;
     tasks := v; written := written s;
     scheduled := scheduled s |}.

Definition set_written (v : list bytes) (s : JsonRPCProtocol) :=
  {| write_transport := write_transport s; _loop := _loop s;
     _message_buf := _message_buf s; registry := registry s;
     _sended_request := _sended_request s;
     _sended_request_count := _sended_request_count s;
     _received_request := _received_request s; futures := futures s;
     tasks := tasks s; written := v;
     scheduled := scheduled s |}.

Definition set_scheduled (v : list scheduled_call) (s : JsonRPCProtocol) :=
  {| write_transport := write_transport s; _loop := _loop s;
     _message_buf := _message_buf s; registry := registry s;
     _sended_request := _sended_request s;
     _sended_request_count := _sended_request_count s;
     _received_request := _received_request s; futures := futures s;
     tasks := tasks s; written := written s; scheduled := v |}.

(** [JsonRPCProtocol.__init__] on an object whose registry is [r]. *)
Definition init (r : RpcRegistry) : JsonRPCProtocol :=
  {| write_transport := false; _loop := false; _message_buf := [];
     registry := r; _sended_request := ∅; _sended_request_count := 0;
     _received_request := ∅; futures := []; tasks := []; written := [];
     scheduled := [] |}.

(** A new future: its reference and the store that holds it. *)
Definition new_future (f : future) (s : JsonRPCProtocol)
    : nat * JsonRPCProtocol :=
  (List.length (futures s), set_futures (futures s ++ [f]) s).

End State.

(** ** The dispatcher: operations *)

(** The conversions the engine imports from [robotcode.utils.dataclasses]
    and [json], which are not part of this module: they are an interface the
    engine is written against. *)
Class Codec : Type := {
  (** [as_json(message, compact=True).encode("utf-8")] *)
  as_json : JsonRPCMessage -> bytes;
  (** [json.loads(body.decode(charset))] *)
  json_loads : bytes -> string -> exn + json;
  (** [from_dict(d, (JsonRPCRequest, JsonRPCResponse, JsonRPCNotification,
      JsonRPCError))] *)
  message_from_dict : list (string * json) -> exn + JsonRPCMessage;
  (** [from_dict(value, type)] *)
  from_dict : json -> option string -> exn + json;
}.

(** [str(n)] *)
Definition str_of_nat (n : nat) : string :=
  DecimalString.NilZero.string_of_uint (Nat.to_uint n).
Definition str_of_Z (n : Z) : string :=
  DecimalString.NilZero.string_of_int (Z.to_int n).
Definition str_of_id (i : rpc_id) : string :=
  match i with
  | IdInt n => str_of_Z n
  | IdStr s => s
  end.

(** [except (SystemExit, KeyboardInterrupt): raise] *)
Definition is_exit (e : exn) : bool :=
  match e with
  | SystemExit | KeyboardInterrupt => true
  | _ => false
  end.

(** A write reaches the peer when a write transport is attached and the
    loop is set. *)
Definition is_connected (s : JsonRPCProtocol) : bool :=
  write_transport s && _loop s.

Section Engine.
Context `{Codec}.
Import State.

(** The header [send_message] puts before a body of [n] bytes. *)
Definition frame_header (n : nat) : bytes :=
  b ("Content-Length: " ++ str_of_nat n)%string ++ crlf
    ++ b ("Content-Type: " ++ CONTENT_TYPE ++ "; charset=" ++ CHARSET)%string
    ++ crlf ++ crlf.

Definition send_message (m : JsonRPCMessage) (s : JsonRPCProtocol)
    : JsonRPCProtocol :=
  let body := as_json m in
  let header := frame_header (List.length body) in
  if write_transport s then
    let msg := header ++ body in
    if _loop s then set_written (written s ++ [msg]) s else s
  else s.

(** What [send_message] hands to the transport for [m]. *)
Definition frame (m : JsonRPCMessage) : bytes :=
  frame_header (List.length (as_json m)) ++ as_json m.

(** The writes that sending [m] in the state [s] adds. *)
Definition written_for (s : JsonRPCProtocol) (m : JsonRPCMessage)
    : list bytes :=
  if is_connected s then [frame m] else [].

Definition send_response (id : option rpc_id) (result : json)
    (s : JsonRPCProtocol) : JsonRPCProtocol :=
  send_message (JsonRPCResponse id result) s.

Definition send_error (c : Z) (msg : option string) (id : option rpc_id)
    (d : json) (s : JsonRPCProtocol) : JsonRPCProtocol :=
  let error_obj := {| code := c; message := msg; data := d |} in
  send_message (JsonRPCError id error_obj JNull) s.

(** [send_request]: [floop] is the loop [create_sub_future] makes the
    future on.  The result is the future handed to the caller. *)
Definition send_request (meth : string) (params : json)
    (return_type : option string) (floop : future_loop)
    (s : JsonRPCProtocol) : nat * JsonRPCProtocol :=
  let (result, s) :=
    new_future {| f_state := Pending false; f_loop := floop;
                  f_done_callback := None |} s in
  let s := set_sended_request_count (_sended_request_count s + 1) s in
  let id := _sended_request_count s in
  let s :=
    set_sended_request
      (<[IdInt id := {| se_future := result;
                        se_result_type := return_type |}]>
         (_sended_request s)) s in
  let request := JsonRPCRequest (Some (IdInt id)) meth params in
  (result, send_message request s).

Definition send_notification (meth : string) (params : json)
    (s : JsonRPCProtocol) : JsonRPCProtocol :=
  send_message (JsonRPCNotification meth params) s.

(** Writing to a future through its reference. *)
Definition update_future (i : nat) (g : future -> future)
    (s : JsonRPCProtocol) : JsonRPCProtocol :=
  match futures s !! i with
  | Some f => set_futures (<[i := g f]> (futures s)) s
  | None => s
  end.

(** [call_soon_threadsafe] on the loop of another thread. *)
Definition schedule (c : scheduled_call) (s : JsonRPCProtocol)
    : JsonRPCProtocol :=
  set_scheduled (scheduled s ++ [c]) s.

(** What a scheduled call does when the loop it was handed to runs it:
    [s(f, r)] sets the result of a future that is not done;
    [set_exception] raises [InvalidStateError] in that loop on a future
    that is done and sets the exception otherwise. *)
Definition run_scheduled (c : scheduled_call) (s : JsonRPCProtocol)
    : JsonRPCProtocol :=
  match c with
  | SetResultIfNotDone i res =>
      match futures s !! i with
      | Some f =>
          if future_done f then s
          else update_future i (future_set (inr res)) s
      | None => s
      end
  | SetException i e =>
      match futures s !! i with
      | Some f =>
          if future_done f then s
          else update_future i (future_set (inl e)) s
      | None => s
      end
  end.

(** [handle_response].  The result is set at once on a future of the
    running loop only; for a future of another loop that is running, the
    setting of the result is scheduled there; for a loop that is not
    running, a warning is logged.  An exception of the conversion is set
    at once on a future of the running loop; for every other loop
    [set_exception] is handed to [call_soon_threadsafe] without a test of
    [is_running], which raises [RuntimeError] on a closed loop, inside
    the [except] clause. *)
Definition handle_response (id : option rpc_id) (result : json)
    (s : JsonRPCProtocol) : JsonRPCProtocol * option exn :=
  match id with
  | None =>
      let error := "Invalid response. Response id is null." in
      (send_error JsonRPCErrors.INTERNAL_ERROR (Some error) None JNull s,
       None)
  | Some i =>
      let entry := _sended_request s !! i in
      let s := set_sended_request (delete i (_sended_request s)) s in
      match entry with
      | None =>
          let error :=
            ("Invalid response. Could not find id '" ++ str_of_id i
               ++ "' in request list.")%string in
          (send_error JsonRPCErrors.INTERNAL_ERROR (Some error) None JNull s,
           None)
      | Some entry =>
          match futures s !! se_future entry with
          | None => (s, None)
          | Some fut =>
              if future_done fut then (s, None)
              else
                let res :=
                  match result with
                  | JNull => inr JNull
                  | _ => from_dict result (se_result_type entry)
                  end in
                match res with
                | inr res =>
                    match f_loop fut with
                    | RunningLoop =>
                        (update_future (se_future entry)
                           (future_set (inr res)) s, None)
                    | OtherLoopRunning =>
                        (schedule
                           (SetResultIfNotDone (se_future entry) res) s,
                         None)
                    | OtherLoopStopped | OtherLoopClosed => (s, None)
                    end
                | inl e =>
                    if is_exit e then (s, Some e)
                    else
                      match f_loop fut with
                      | RunningLoop =>
                          (update_future (se_future entry)
                             (future_set (inl e)) s, None)
                      | OtherLoopRunning | OtherLoopStopped =>
                          (schedule (SetException (se_future entry) e) s,
                           None)
                      | OtherLoopClosed =>
                          (s, Some (OtherError "RuntimeError"
                                      "Event loop is closed"))
                      end
                end
          end
      end
  end.

Definition handle_error (id : option rpc_id) (error : JsonRPCErrorObject)
    (s : JsonRPCProtocol) : JsonRPCProtocol * option exn :=
  (s, Some (JsonRPCErrorException (code error) (message error) (data error))).

(** [_convert_params], as far as the engine depends on it: whether it
    raises.  Without parameters or without a declared type nothing is
    converted; otherwise [from_dict] converts them and may raise. *)
Definition _convert_params (e : RpcMethodEntry) (params : json)
    : option exn :=
  match params with
  | JNull => None
  | _ =>
      match param_type e with
      | None => None
      | Some t =>
          match from_dict params (Some t) with
          | inl ex => Some ex
          | inr _ => None
          end
      end
  end.

(** [handle_request] up to [await task]: the task of the handler is
    created pending, with the callback [done] for this [message.id]. *)
Definition handle_request (id : option rpc_id) (meth : string)
    (params : json) (s : JsonRPCProtocol) : JsonRPCProtocol * option exn :=
  let (reg, e) := Registry.get_entry meth (registry s) in
  let s := set_registry reg s in
  let unknown :=
    (send_error JsonRPCErrors.METHOD_NOT_FOUND
       (Some ("Unknown method: " ++ meth)%string) id JNull s, None) in
  match e with
  | None => unknown
  | Some e =>
      if negb (h_callable (method e)) then unknown
      else
        match _convert_params e params with
        | Some ex => (s, Some ex)
        | None =>
            let (task, s) :=
              new_future {| f_state := Pending false; f_loop := RunningLoop;
                            f_done_callback := Some id |} s in
            let s :=
              set_received_request
                (<[id := {| re_future := task;
                            re_request := JsonRPCRequest id meth params;
                            re_cancelable := cancelable e |}]>
                   (_received_request s)) s in
            (s, None)
        end
  end.

(** The callback [done] of [handle_request], called by the loop on the
    finished task: [o] is what [t.result()] returns or raises. *)
Definition done (id : option rpc_id) (o : exn + json) (s : JsonRPCProtocol)
    : JsonRPCProtocol * option exn :=
  let (s, raised) :=
    match o with
    | inr result => (send_response id result s, None)
    | inl CancelledError =>
        (send_error JsonRPCErrors.REQUEST_CANCELLED
           (Some "Request canceled.") id JNull s, None)
    | inl SystemExit => (s, Some SystemExit)
    | inl KeyboardInterrupt => (s, Some KeyboardInterrupt)
    | inl (JsonRPCErrorException c m d as e) =>
        let msg :=
          match m with
          | Some m' => if String.eqb m' "" then describe e else m'
          | None => describe e
          end in
        (send_error c (Some msg) id d s, None)
    | inl e =>
        (send_error JsonRPCErrors.INTERNAL_ERROR (Some (describe e)) id
           JNull s, None)
    end in
  (set_received_request (delete id (_received_request s)) s, raised).

Definition cancel_request (id : option rpc_id) (s : JsonRPCProtocol)
    : JsonRPCProtocol :=
  match _received_request s !! id with
  | None => s
  | Some entry =>
      match futures s !! re_future entry with
      | None => s
      | Some fut =>
          if negb (future_cancelled fut)
          then update_future (re_future entry) future_cancel s
          else s
      end
  end.

Definition cancel_all_received_request (s : JsonRPCProtocol)
    : JsonRPCProtocol :=
  map_fold
    (fun _ entry s =>
       match futures s !! re_future entry with
       | None => s
       | Some fut =>
           if re_cancelable entry && negb (future_cancelled fut)
           then update_future (re_future entry) future_cancel s
           else s
       end)
    s (_received_request s).

(** [handle_notification] up to [await task]; every exception is caught
    and logged. *)
Definition handle_notification (meth : string) (params : json)
    (s : JsonRPCProtocol) : JsonRPCProtocol * option exn :=
  let (reg, e) := Registry.get_entry meth (registry s) in
  let s := set_registry reg s in
  match e with
  | None => (s, None)
  | Some e =>
      if negb (h_callable (method e)) then (s, None)
      else
        match _convert_params e params with
        | Some ex => if is_exit ex then (s, Some ex) else (s, None)
        | None =>
            let (_, s) :=
              new_future {| f_state := Pending false; f_loop := RunningLoop;
                            f_done_callback := None |} s in
            (s, None)
        end
  end.

Definition handle_message (m : JsonRPCMessage) (s : JsonRPCProtocol)
    : JsonRPCProtocol * option exn :=
  match m with
  | JsonRPCRequest id meth params => handle_request id meth params s
  | JsonRPCNotification meth params => handle_notification meth params s
  | JsonRPCError id error _ => handle_error id error s
  | JsonRPCResponse id result => handle_response id result s
  end.

(** [d["jsonrpc"] != PROTOCOL_VERSION] *)
Definition is_protocol_version (v : json) : bool :=
  match v with
  | JStr s => String.eqb s PROTOCOL_VERSION
  | _ => false
  end.

(** [inner] of [_generate_json_rpc_messages_from_dict].  On a value that
    is not a [dict], ["jsonrpc" in d] is a substring or element test, or a
    [TypeError], and [d["jsonrpc"]] is a [TypeError]. *)
Definition inner (d : json) : exn + JsonRPCMessage :=
  let invalid := inl (JsonRPCException "Invalid JSON-RPC2 Message") in
  let type_error := inl (OtherError "TypeError" "unsupported operand") in
  match d with
  | JObj fields =>
      match dict_get "jsonrpc" fields with
      | Some v =>
          if negb (is_protocol_version v)
          then inl (InvalidProtocolVersionError
                      "Invalid JSON-RPC2 protocol version.")
          else message_from_dict (dict_pop "jsonrpc" fields)
      | None => invalid
      end
  | JStr s =>
      match String.index 0 "jsonrpc" s with
      | Some _ => type_error
      | None => invalid
      end
  | JArr items =>
      if existsb (fun x => match x with
                           | JStr s => String.eqb s "jsonrpc"
                           | _ => false
                           end) items
      then type_error else invalid
  | JNull | JBool _ | JNum _ => type_error
  end.

(** [_handle_messages] on the generator
    [_generate_json_rpc_messages_from_dict(data)]: the generator is
    consumed one message at a time, each message becomes a task before the
    next element is looked at, and an exception of [inner] ends the loop. *)
Fixpoint _handle_messages (elements : list json) (s : JsonRPCProtocol)
    : JsonRPCProtocol * option exn :=
  match elements with
  | [] => (s, None)
  | d :: elements' =>
      match inner d with
      | inl e => (s, Some e)
      | inr m => _handle_messages elements' (set_tasks (tasks s ++ [m]) s)
      end
  end.

Definition _generate_json_rpc_messages_from_dict (data : json) : list json :=
  match data with
  | JArr items => items
  | _ => [data]
  end.

(** [except (asyncio.CancelledError, SystemExit, KeyboardInterrupt): raise] *)
Definition is_reraised (e : exn) : bool :=
  match e with
  | CancelledError | SystemExit | KeyboardInterrupt => true
  | _ => false
  end.

Definition _handle_body (body : bytes) (charset : string)
    (s : JsonRPCProtocol) : JsonRPCProtocol * option exn :=
  let (s, raised) :=
    match json_loads body charset with
    | inl e => (s, Some e)
    | inr data =>
        _handle_messages (_generate_json_rpc_messages_from_dict data) s
    end in
  match raised with
  | None => (s, None)
  | Some e =>
      if is_reraised e then (s, Some e)
      else
        (send_error JsonRPCErrors.PARSE_ERROR (Some (describe e)) None
           JNull s, None)
  end.

(** [data_received] of the engine: the framer of the base class on the
    engine's buffer, with the engine's [_handle_body]. *)
Definition protocol_data_received (chunk : bytes) (s : JsonRPCProtocol)
    : JsonRPCProtocol * option exn :=
  let '(s, message_buf, raised) :=
    data_received _handle_body (_message_buf s) chunk s in
  (set_message_buf message_buf s, raised).

Definition connection_made (is_write_transport : bool)
    (s : JsonRPCProtocol) : JsonRPCProtocol :=
  let s := set_loop true s in
  if is_write_transport then set_write_transport true s else s.

Definition connection_lost (s : JsonRPCProtocol) : JsonRPCProtocol :=
  set_loop false s.

(** ** The dispatcher: what can happen to a connection *)

Inductive event : Type :=
| ConnectionMade (is_write_transport : bool)
| ConnectionLost
| DataReceived (chunk : bytes)
    (* the transport delivers bytes *)
| RunTask
    (* the loop starts the oldest [handle_message] task *)
| TaskFinished (task : nat) (o : exn + json)
    (* a pending future gets its result or exception from outside the
       engine: a handler returns or raises, a caller cancels its handle *)
| RunDoneCallback (task : nat)
    (* the loop calls the [done] callback of a finished task *)
| SendRequest (meth : string) (params : json) (return_type : option string)
    (floop : future_loop)
| SendNotification (meth : string) (params : json)
| CancelRequest (id : option rpc_id)
| CancelAllReceivedRequest.

Definition step (ev : event) (s : JsonRPCProtocol) : JsonRPCProtocol :=
  match ev with
  | ConnectionMade w => connection_made w s
  | ConnectionLost => connection_lost s
  | DataReceived chunk => fst (protocol_data_received chunk s)
  | RunTask =>
      match tasks s with
      | [] => s
      | m :: rest => fst (handle_message m (set_tasks rest s))
      end
  | TaskFinished task o =>
      match futures s !! task with
      | Some fut =>
          if future_done fut then s
          else update_future task (future_set o) s
      | None => s
      end
  | RunDoneCallback task =>
      match futures s !! task with
      | Some fut =>
          match f_state fut, f_done_callback fut with
          | Done o, Some id =>
              fst (done id o (update_future task future_clear_callback s))
          | _, _ => s
          end
      | None => s
      end
  | SendRequest meth params return_type floop =>
      snd (send_request meth params return_type floop s)
  | SendNotification meth params => send_notification meth params s
  | CancelRequest id => cancel_request id s
  | CancelAllReceivedRequest => cancel_all_received_request s
  end.

(** A history of the connection, oldest event first. *)
Definition run (evs : list event) (s : JsonRPCProtocol) : JsonRPCProtocol :=
  fold_left (fun s ev => step ev s) evs s.

End Engine.

(** ** A concrete codec

    A compact JSON printer for [json], the layout of the four messages as
    dictionaries, and a [json.loads] that knows the texts of a given list of
    values.  It instantiates [Codec] where a statement is evaluated on a
    concrete connection. *)
Module Demo.

Definition quote : string := String (ascii_of_nat 34) EmptyString.

Definition join (sep : string) (l : list string) : string :=
  match l with
  | [] => ""
  | x :: l' => fold_left (fun acc y => (acc ++ sep ++ y)%string) l' x
  end.

Fixpoint dumps (v : json) : string :=
  match v with
  | JNull => "null"
  | JBool true => "true"
  | JBool false => "false"
  | JNum n => str_of_Z n
  | JStr s => (quote ++ s ++ quote)%string
  | JArr items => ("[" ++ join "," (List.map dumps items) ++ "]")%string
  | JObj fields =>
      ("{" ++ join ","
         (List.map (fun kv => (quote ++ fst kv ++ quote ++ ":"
                                 ++ dumps (snd kv))%string) fields)
         ++ "}")%string
  end.

Definition json_of_id (id : option rpc_id) : json :=
  match id with
  | None => JNull
  | Some (IdInt n) => JNum n
  | Some (IdStr s) => JStr s
  end.

Definition id_of_json (v : json) : option rpc_id :=
  match v with
  | JNum n => Some (IdInt n)
  | JStr s => Some (IdStr s)
  | _ => None
  end.

Definition json_of_message (m : JsonRPCMessage) : json :=
  let version := ("jsonrpc", JStr PROTOCOL_VERSION) in
  match m with
  | JsonRPCNotification meth params =>
      JObj [version; ("method", JStr meth); ("params", params)]
  | JsonRPCRequest id meth params =>
      JObj [version; ("id", json_of_id id); ("method", JStr meth);
            ("params", params)]
  | JsonRPCResponse id result =>
      JObj [version; ("id", json_of_id id); ("result", result)]
  | JsonRPCError id e _ =>
      JObj [version; ("id", json_of_id id);
            ("error", JObj [("code", JNum (code e));
                            ("message", match message e with
                                        | Some s => JStr s
                                        | None => JNull
                                        end);
                            ("data", data e)])]
  end.

(** Modelled from the spec: [from_dict] of [robotcode.utils.dataclasses]
    on the four message types, as the union discrimination the
    specification gives: [method] without [result] or [error] is a
    request when [id] is present and a notification otherwise, [result]
    is a response, [error] is an error. *)
Definition message_of_dict (d : list (string * json))
    : exn + JsonRPCMessage :=
  let id := id_of_json (default JNull (dict_get "id" d)) in
  let params := default JNull (dict_get "params" d) in
  match dict_get "method" d, dict_get "result" d, dict_get "error" d with
  | Some (JStr meth), None, None =>
      match dict_get "id" d with
      | Some _ => inr (JsonRPCRequest id meth params)
      | None => inr (JsonRPCNotification meth params)
      end
  | None, Some result, None => inr (JsonRPCResponse id result)
  | None, _, Some (JObj e) =>
      match dict_get "code" e with
      | Some (JNum c) =>
          inr (JsonRPCError id
                 {| code := c;
                    message := match dict_get "message" e with
                               | Some (JStr s) => Some s
                               | _ => None
                               end;
                    data := default JNull (dict_get "data" e) |} JNull)
      | _ => inl (OtherError "TypeError" "Value must be of type JsonRPCError")
      end
  | _, _, _ => inl (OtherError "TypeError" "Value must be of one of the types")
  end.

Fixpoint bytes_eqb (x y : bytes) : bool :=
  match x, y with
  | [], [] => true
  | u :: x', v :: y' => Byte.eqb u v && bytes_eqb x' y'
  | _, _ => false
  end.

(** [json.loads] on the texts of [known]; any other text is an error. *)
Definition loads (known : list json) (body : bytes) (charset : string)
    : exn + json :=
  match find (fun v => bytes_eqb (b (dumps v)) body) known with
  | Some v => inr v
  | None => inl (OtherError "JSONDecodeError" "Expecting value")
  end.

Definition codec (known : list json) : Codec :=
  {| as_json := fun m => b (dumps (json_of_message m));
     json_loads := loads known;
     message_from_dict := message_of_dict;
     from_dict := fun v _ => inr v |}.

(** The frame a peer sends for the value [v]. *)
Definition wire (v : json) : bytes :=
  b ("Content-Length: " ++ str_of_nat (List.length (b (dumps v))))%string
    ++ crlf ++ crlf ++ b (dumps v).

(** An endpoint with the two handlers [ping] (cancelable) and [build]
    (not cancelable), connected to a transport. *)
Definition ping : handler :=
  {| h_ident := "ping"; h_callable := true; h_threaded := false |}.
Definition build : handler :=
  {| h_ident := "build"; h_callable := true; h_threaded := false |}.

Definition endpoint : rpc_object :=
  {| obj_ident := 0;
     obj_methods :=
       [ (ping, {| name := "ping"; method := ping; param_type := None;
                   cancelable := true |});
         (build, {| name := "build"; method := build; param_type := None;
                    cancelable := false |}) ] |}.

Definition connected : JsonRPCProtocol :=
  connection_made true (State.init (Registry.init endpoint [])).

(** The bodies of the examples. *)
Definition request (id : Z) (meth : string) : json :=
  JObj [("jsonrpc", JStr "2.0"); ("id", JNum id); ("method", JStr meth)].
Definition notification (version meth : string) : json :=
  JObj [("jsonrpc", JStr version); ("method", JStr meth)].

Definition known : list json :=
  [ request 1 "ping";
    request 7 "build";
    notification "2.0" "ping";
    JArr [notification "1.0" "ping"; notification "2.0" "ping"];
    JArr [notification "2.0" "ping"; notification "1.0" "ping";
          notification "2.0" "ping"];
    JArr [request 1 "nope"; request 2 "ping"] ].

Definition demo_codec : Codec := codec known.

End Demo.

(** ** Invariants of a connection *)

(** The part of the state that the framer and [_handle_body] leave alone:
    they only fill the buffer, create [handle_message] tasks and write. *)
Definition core (s : JsonRPCProtocol) :=
  (write_transport s, _loop s, registry s, _sended_request s,
   _sended_request_count s, _received_request s, futures s, scheduled s).

(** Every outstanding sent request has an id that the counter gave out. *)
Definition sended_ids_allocated (s : JsonRPCProtocol) : Prop :=
  (0 <= _sended_request_count s)%Z /\
  forall k, is_Some (_sended_request s !! k) ->
    exists n, k = IdInt n /\ (0 < n <= _sended_request_count s)%Z.



(** The request that the event [ev] makes the engine handle, if it is one,
    has an id under which no request is in the table: the peer does not
    use the id of a request that is in flight. *)
Definition request_id_free (ev : event) (s : JsonRPCProtocol) : bool :=
  match ev with
  | RunTask =>
      match tasks s with
      | JsonRPCRequest id _ _ :: _ =>
          match _received_request s !! id with
          | None => true
          | Some _ => false
          end
      | _ => true
      end
  | _ => true
  end.

(** A history in which no request arrives with the id of a request in
    flight. *)
Fixpoint ids_not_reused `{Codec} (evs : list event) (s : JsonRPCProtocol)
    : bool :=
  match evs with
  | [] => true
  | ev :: evs' => request_id_free ev s && ids_not_reused evs' (step ev s)
  end.

(** The callbacks of the futures in the store, by reference. *)
Definition callbacks (s : JsonRPCProtocol) : list (option (option rpc_id)) :=
  f_done_callback <$> futures s.

(** Everything but the store of futures. *)
Definition shell (s : JsonRPCProtocol) :=
  (write_transport s, _loop s, _message_buf s, registry s,
   _sended_request s, _sended_request_count s, _received_request s,
   tasks s, written s, scheduled s).


(** ** The parts of [MESSAGE_PATTERN], by name *)

(** One line before the [Content-Length] header: [[^\r\n]*\r\n]. *)
Definition LINE : regex := (Star (Class not_crlf) · Lit crlf)%re.

(** The two alternatives of a header line after [Content-Length]. *)
Definition CONTENT_TYPE_LINE : regex :=
  (Lit (b "Content-Type:") · Opt (Lit (b " "))
     · Group "content_type" (Plus (Class not_crlf_semi))
     · Opt (Lit (b ";") · Star (Lit (b " "))
              · Opt (Lit (b "charset=")
                       · Group "charset" (Plus (Class not_crlf))))
     · Lit crlf)%re.

Definition OTHER_HEADER_LINE : regex := (Plus (Class not_crlf) · Lit crlf)%re.

(** The [Content-Type] line of the header of [send_message], without its
    line break. *)
Definition content_type_line : bytes :=
  b ("Content-Type: " ++ CONTENT_TYPE ++ "; charset=" ++ CHARSET)%string.

(** The events that attach a transport. *)
Definition is_connection_made (ev : event) : bool :=
  match ev with
  | ConnectionMade _ => true
  | _ => false
  end.

(** A connection without a loop that has written what [s0] has. *)
Definition quiet (s0 s : JsonRPCProtocol) : Prop :=
  _loop s = false /\ written s = written s0.

(** The head of what follows a run of the class [p] is not in [p]. *)
Definition stops (p : byte -> bool) (rest : bytes) : Prop :=
  match rest with
  | [] => True
  | y :: _ => p y = false
  end.

(** What [data_received] leaves after the body was handed over: the
    state and the exception of [_handle_body], an empty buffer. *)
Definition delivered {St} (_handle_body : bytes -> string -> St -> St * option exn)
    (body : bytes) (st : St) : St * bytes * option exn :=
  let (st', e) := _handle_body body CHARSET st in (st', [], e).

(** The bytes [send_message] writes for the body [body]. *)
Definition framed (body : bytes) : bytes :=
  frame_header (List.length body) ++ body.

(** What is left of [s] after its first line, when [s] has a line break
    after bytes that are neither [\r] nor [\n]: what [[^\r\n]*\r\n]
    leaves. *)
Fixpoint next_line (s : bytes) : option bytes :=
  match s with
  | [] => None
  | x :: s' => if not_crlf x then next_line s' else strip_prefix crlf s
  end.

(** The starts of the lines of [s] after the first, at most [n] of them. *)
Fixpoint line_starts (n : nat) (s : bytes) : list bytes :=
  match n with
  | O => []
  | S n' =>
      match next_line s with
      | Some s' => s' :: line_starts n' s'
      | None => []
      end
  end.

(** A pattern that matches inside one line: none of its literals and
    classes has [\r] or [\n]. *)
Fixpoint within_line (r : regex) : Prop :=
  match r with
  | Lit bs => forallb not_crlf bs = true
  | Class p => forall x, p x = true -> not_crlf x = true
  | Seq r1 r2 | Alt r1 r2 => within_line r1 /\ within_line r2
  | Star r0 | Group _ r0 => within_line r0
  end.

(** Whether [s], or one of the [n] lines that follow its first line,
    begins with a line break: an empty line. *)
Fixpoint blank_line (n : nat) (s : bytes) : bool :=
  match strip_prefix crlf s with
  | Some _ => true
  | None =>
      match n with
      | O => false
      | S n' =>
          match next_line s with
          | Some t => blank_line n' t
          | None => false
          end
      end
  end.

(** A body without a line break that does not begin with [C]: a compact
    JSON text begins with a brace, a bracket, a quote, a digit, a sign or
    one of [t], [f], [n]. *)
Definition plain_body (body : bytes) : bool :=
  forallb not_crlf body
  && match body with
     | x :: _ => negb (Byte.eqb x "C")
     | [] => false
     end.

(** The bodies handed to [_handle_body] one after the other, until one
    call raises. *)
Fixpoint deliver_all {St}
    (_handle_body : bytes -> string -> St -> St * option exn)
    (bodies : list bytes) (st : St) : St * bytes * option exn :=
  match bodies with
  | [] => (st, [], None)
  | body :: bodies' =>
      match _handle_body body CHARSET st with
      | (st', Some e) => (st', [], Some e)
      | (st', None) => deliver_all _handle_body bodies' st'
      end
  end.

(** ** A second concrete connection: declared types and a part *)

Module Strict.

(** A [from_dict] that converts numbers only, when a type is declared. *)
Definition convert (v : json) (t : option string) : exn + json :=
  match t, v with
  | Some _, JNum _ => inr v
  | Some _, _ => inl (OtherError "TypeError" "Value must be of type int")
  | None, _ => inr v
  end.

Definition codec : Codec :=
  {| as_json := fun m => b (Demo.dumps (Demo.json_of_message m));
     json_loads := Demo.loads Demo.known;
     message_from_dict := Demo.message_of_dict;
     from_dict := convert |}.

(** An endpoint whose handler [sum] declares the type of its parameters. *)
Definition sum : handler :=
  {| h_ident := "sum"; h_callable := true; h_threaded := false |}.

Definition endpoint : rpc_object :=
  {| obj_ident := 0;
     obj_methods :=
       [ (sum, {| name := "sum"; method := sum; param_type := Some "int";
                  cancelable := true |}) ] |}.

Definition connected : JsonRPCProtocol :=
  connection_made true (State.init (Registry.init endpoint [])).

(** A part that declares a method [ping] of its own. *)
Definition part_ping : handler :=
  {| h_ident := "part.ping"; h_callable := true; h_threaded := false |}.

Definition part : rpc_object :=
  {| obj_ident := 1;
     obj_methods :=
       [ (part_ping, {| name := "ping"; method := part_ping;
                        param_type := None; cancelable := false |}) ] |}.

End Strict.

(** * Properties of the framer *)

Lemma strip_prefix_Some (p s s' : bytes) :
  strip_prefix p s = Some s' -> s = p ++ s'.
Proof.
  revert s; induction p as [|x p IH]; intros [|y s]; simpl; try congruence.
  destruct (Byte.eqb x y) eqn:E; [|discriminate].
  intros Hs. apply Byte.byte_dec_bl in E. subst y. f_equal. auto.
Qed.

Lemma strip_prefix_app (p s : bytes) : strip_prefix p (p ++ s) = Some s.
Proof.
  induction p as [|x p IH]; simpl; [reflexivity|].
  rewrite (Byte.byte_dec_lb eq_refl). exact IH.
Qed.

Section MatcherFacts.
Context {A : Type}.

(** What a successful repetition hands to its continuation is a suffix of
    what it was given. *)
Lemma star_iter_split
    (step : bytes -> captures -> (bytes -> captures -> option A) -> option A)
    (k : bytes -> captures -> option A) :
  (forall s c k' x, step s c k' = Some x ->
     exists s' c' pre, k' s' c' = Some x /\ s = pre ++ s') ->
  forall n s c x, star_iter step k n s c = Some x ->
    exists s' c' pre, k s' c' = Some x /\ s = pre ++ s'.
Proof.
  intros Hstep n. induction n as [|n IH]; intros s c x; simpl.
  - intros Hk. exists s, c, []. auto.
  - destruct (step s c _) as [y|] eqn:E.
    + intros [= ->]. apply Hstep in E as (s1 & c1 & pre1 & Hk1 & ->).
      destruct (Nat.ltb _ _); [|discriminate].
      apply IH in Hk1 as (s2 & c2 & pre2 & Hk2 & ->).
      exists s2, c2, (pre1 ++ pre2). by rewrite <- app_assoc.
    + intros Hk. exists s, c, []. auto.
Qed.

(** A match of [r] consumes a prefix of the input, of at least
    [min_len r] bytes, and continues on the rest. *)
Lemma rmatch_split (r : regex) :
  forall s c (k : bytes -> captures -> option A) x,
    rmatch r s c k = Some x ->
    exists s' c' pre,
      k s' c' = Some x /\ s = pre ++ s' /\ min_len r <= List.length pre.
Proof.
  induction r as [bs|p|r1 IH1 r2 IH2|r1 IH1 r2 IH2|r0 IH0|nm r0 IH0];
    intros s c k x; simpl.
  - destruct (strip_prefix bs s) as [s'|] eqn:E; [|discriminate].
    intros Hk. apply strip_prefix_Some in E. exists s', c, bs. auto.
  - destruct s as [|y s]; [discriminate|].
    destruct (p y); [|discriminate].
    intros Hk. exists s, c, [y]. simpl. auto.
  - intros Hm. apply IH1 in Hm as (s1 & c1 & pre1 & Hm & -> & Hl1).
    apply IH2 in Hm as (s2 & c2 & pre2 & Hk & -> & Hl2).
    exists s2, c2, (pre1 ++ pre2).
    rewrite <- app_assoc, length_app. repeat split; [done|lia].
  - destruct (rmatch r1 s c k) as [y|] eqn:E.
    + intros [= ->]. apply IH1 in E as (s1 & c1 & pre1 & Hk & -> & Hl).
      exists s1, c1, pre1. repeat split; [done|lia].
    + intros Hm. apply IH2 in Hm as (s1 & c1 & pre1 & Hk & -> & Hl).
      exists s1, c1, pre1. repeat split; [done|lia].
  - intros Hm. apply star_iter_split in Hm as (s' & c' & pre & Hk & ->).
    + exists s', c', pre. repeat split; [done|lia].
    + intros s1 c1 k1 y Hy.
      apply IH0 in Hy as (s2 & c2 & pre2 & Hk2 & -> & _). eauto.
  - intros Hm. apply IH0 in Hm as (s' & c' & pre & Hk & -> & Hl).
    eexists s', _, pre. eauto.
Qed.
End MatcherFacts.

Lemma rmatch_Seq {A} (r1 r2 : regex) s c (k : bytes -> captures -> option A) :
  rmatch (Seq r1 r2) s c k = rmatch r1 s c (fun s' c' => rmatch r2 s' c' k).
Proof. reflexivity. Qed.

Lemma rmatch_Group {A} nm (r0 : regex) s c (k : bytes -> captures -> option A) :
  rmatch (Group nm r0) s c k =
  rmatch r0 s c (fun s' c' =>
    k s' ((nm, take (List.length s - List.length s') s) :: c')).
Proof. reflexivity. Qed.

Lemma rmatch_Lit {A} bs s c (k : bytes -> captures -> option A) :
  rmatch (Lit bs) s c k =
  match strip_prefix bs s with Some s' => k s' c | None => None end.
Proof. reflexivity. Qed.

Lemma rmatch_Star {A} (r0 : regex) s c (k : bytes -> captures -> option A) :
  rmatch (Star r0) s c k = star_iter (rmatch r0) k (List.length s) s c.
Proof. reflexivity. Qed.

(** [.*] in front of a continuation that accepts whatever is left takes
    the whole input. *)
Lemma star_any_byte_all {A} (k : bytes -> captures -> option A) :
  (forall s c, is_Some (k s c)) ->
  forall n s c, List.length s <= n ->
    star_iter (rmatch (Class any_byte)) k n s c = k [] c.
Proof.
  intros Hk n. induction n as [|n IH]; intros [|y s] c Hn; simpl in *;
    try reflexivity; try lia.
  assert (Hlt : Nat.ltb (List.length s) (S (List.length s)) = true)
    by (apply Nat.ltb_lt; lia).
  rewrite Hlt, IH by lia. by destruct (Hk [] c) as [x ->].
Qed.

Lemma rmatch_BODY (s : bytes) (c : captures) :
  rmatch BODY s c (fun _ c' => Some c') = Some (("body", s) :: c).
Proof.
  unfold BODY. rewrite rmatch_Group, rmatch_Star.
  rewrite star_any_byte_all by (eauto || lia). simpl.
  by rewrite Nat.sub_0_r, firstn_all.
Qed.

(** A match of [MESSAGE_PATTERN] has found the literal [Content-Length:] in
    the input, and its body is all that follows a header of at least 20
    bytes. *)
Lemma MESSAGE_PATTERN_match (s : bytes) (m : captures) :
  re_match MESSAGE_PATTERN s = Some m ->
  (exists pre post, s = pre ++ b "Content-Length:" ++ post) /\
  (exists hdr body,
     group "body" m = Some body /\ s = hdr ++ body /\ 20 <= List.length hdr).
Proof.
  unfold re_match, MESSAGE_PATTERN. rewrite !rmatch_Seq. intros Hm.
  apply rmatch_split in Hm as (s1 & c1 & pre1 & Hm & -> & _).
  unfold CONTENT_LENGTH_LINE in Hm. rewrite !rmatch_Seq, rmatch_Lit in Hm.
  destruct (strip_prefix _ s1) as [s2|] eqn:E1; [|discriminate].
  apply strip_prefix_Some in E1 as ->.
  apply rmatch_split in Hm as (s3 & c3 & pre3 & Hm & -> & _).
  apply rmatch_split in Hm as (s4 & c4 & pre4 & Hm & -> & Hl4).
  apply rmatch_split in Hm as (s5 & c5 & pre5 & Hm & -> & Hl5).
  apply rmatch_split in Hm as (s6 & c6 & pre6 & Hm & -> & _).
  apply rmatch_split in Hm as (s7 & c7 & pre7 & Hm & -> & Hl7).
  rewrite rmatch_BODY in Hm. injection Hm as <-. split.
  - eexists pre1, _. reflexivity.
  - exists (pre1 ++ b "Content-Length:" ++ pre3 ++ pre4 ++ pre5 ++ pre6 ++ pre7),
      s7.
    repeat split.
    + by rewrite <- !app_assoc.
    + simpl in Hl4, Hl5, Hl7. rewrite !length_app. simpl. lia.
Qed.

Lemma found_body_shorter (s : bytes) :
  s <> [] ->
  List.length (found_body (re_match MESSAGE_PATTERN s)) < List.length s.
Proof.
  intros Hs. destruct (re_match MESSAGE_PATTERN s) as [m|] eqn:E; simpl.
  - apply MESSAGE_PATTERN_match in E as [_ (hdr & body & -> & -> & Hl)].
    simpl. rewrite length_app. lia.
  - destruct s; [done|simpl; lia].
Qed.

Section FramerFacts.
Context {St : Type} (_handle_body : bytes -> string -> St -> St * option exn).

Lemma data_received_loop_unfold fuel message_buf data st :
  data_received_loop _handle_body (S fuel) message_buf data st =
  match data with
  | [] => (st, message_buf, None)
  | _ :: _ =>
      let message_buf := message_buf ++ data in
      let found := re_match MESSAGE_PATTERN message_buf in
      let body := found_body found in
      let len := found_length found in
      match found_charset found with
      | inl e => (st, message_buf, Some e)
      | inr charset =>
          if (N.of_nat (List.length body) <? len)%N
          then (st, message_buf, None)
          else
            match _handle_body (take (N.to_nat len) body) charset st with
            | (st', Some e) => (st', [], Some e)
            | (st', None) =>
                data_received_loop _handle_body fuel []
                  (drop (N.to_nat len) body) st'
            end
      end
  end.
Proof. reflexivity. Qed.

(** The loop of [data_received] terminates: any bound above the number of
    buffered bytes gives the same result, the bound is never reached. *)
Lemma data_received_loop_enough fuel1 fuel2 message_buf data st :
  List.length (message_buf ++ data) < fuel1 ->
  List.length (message_buf ++ data) < fuel2 ->
  data_received_loop _handle_body fuel1 message_buf data st =
  data_received_loop _handle_body fuel2 message_buf data st.
Proof.
  revert fuel2 message_buf data st.
  induction fuel1 as [|fuel1 IH]; intros [|fuel2] message_buf data st H1 H2;
    try lia.
  rewrite !data_received_loop_unfold.
  destruct data as [|x data]; [reflexivity|]. cbv zeta.
  set (buf := message_buf ++ x :: data) in *.
  destruct (found_charset _) as [e|charset]; [reflexivity|].
  destruct (N.ltb _ _); [reflexivity|].
  destruct (_handle_body _ _ _) as [st' [e|]]; [reflexivity|].
  assert (Hlt : List.length (found_body (re_match MESSAGE_PATTERN buf))
                < List.length buf).
  { apply found_body_shorter. subst buf. by destruct message_buf. }
  apply IH; simpl; rewrite length_drop; lia.
Qed.

Lemma data_received_unfold message_buf data st :
  data_received _handle_body message_buf data st =
  match data with
  | [] => (st, message_buf, None)
  | _ :: _ =>
      let message_buf := message_buf ++ data in
      let found := re_match MESSAGE_PATTERN message_buf in
      let body := found_body found in
      let len := found_length found in
      match found_charset found with
      | inl e => (st, message_buf, Some e)
      | inr charset =>
          if (N.of_nat (List.length body) <? len)%N
          then (st, message_buf, None)
          else
            match _handle_body (take (N.to_nat len) body) charset st with
            | (st', Some e) => (st', [], Some e)
            | (st', None) =>
                data_received _handle_body []
                  (drop (N.to_nat len) body) st'
            end
      end
  end.
Proof.
  unfold data_received. rewrite data_received_loop_unfold.
  destruct data as [|x data]; [reflexivity|]. cbv zeta.
  set (buf := message_buf ++ x :: data) in *.
  destruct (found_charset _) as [e|charset]; [reflexivity|].
  destruct (N.ltb _ _); [reflexivity|].
  destruct (_handle_body _ _ _) as [st' [e|]]; [reflexivity|].
  assert (Hlt : List.length (found_body (re_match MESSAGE_PATTERN buf))
                < List.length buf).
  { apply found_body_shorter. subst buf. by destruct message_buf. }
  apply data_received_loop_enough; simpl; rewrite length_drop; lia.
Qed.

(** A chunk that does not complete a frame is only buffered: feeding it
    and then the next chunk is feeding both at once. *)
Lemma data_received_buffered message_buf chunk1 chunk2 st :
  chunk2 <> [] ->
  data_received _handle_body message_buf chunk1 st
    = (st, message_buf ++ chunk1, None) ->
  data_received _handle_body (message_buf ++ chunk1) chunk2 st =
  data_received _handle_body message_buf (chunk1 ++ chunk2) st.
Proof.
  intros H2 _. rewrite !data_received_unfold.
  destruct chunk2 as [|y chunk2]; [done|].
  destruct chunk1 as [|x chunk1].
  - by rewrite app_nil_r.
  - simpl app. by rewrite <- app_assoc.
Qed.
End FramerFacts.

Section FramerClaims.

(** Without a match the body is empty and the length is 1: the chunk is
    added to the buffer and the handler is not called. *)
Lemma data_received_no_match {St}
    (hb : bytes -> string -> St -> St * option exn)
    (message_buf data : bytes) (st : St) :
  re_match MESSAGE_PATTERN (message_buf ++ data) = None ->
  data_received hb message_buf data st = (st, message_buf ++ data, None).
Proof.
  intros Hm. rewrite data_received_unfold.
  destruct data as [|x data]; [by rewrite app_nil_r|].
  cbv zeta. by rewrite Hm.
Qed.

(** An input that does not contain the text [Content-Length:] has no
    match. *)
Lemma no_content_length_no_match (s : bytes) :
  (forall pre post, s <> pre ++ b "Content-Length:" ++ post) ->
  re_match MESSAGE_PATTERN s = None.
Proof.
  intros Hs. destruct (re_match MESSAGE_PATTERN s) as [m|] eqn:E; [|done].
  apply MESSAGE_PATTERN_match in E as [(pre & post & ->) _].
  by destruct (Hs pre post).
Qed.

(** C4, as the code has it.  As long as [MESSAGE_PATTERN] does not match
    the bytes buffered so far (headers that are malformed or have no
    [Content-Length]), the framer takes the empty body and the length 1,
    finds the body shorter than the length and returns: no chunk makes it
    emit a body, all the input stays in the buffer. *)
Theorem unmatched_input_is_only_buffered
    (chunks : list bytes) (message_buf : bytes)
    (seen : list (bytes * string)) :
  (forall k, k <= List.length chunks ->
     re_match MESSAGE_PATTERN (message_buf ++ concat (take k chunks))
     = None) ->
  found_body None = [] /\ found_length None = 1%N
  /\ feed chunks message_buf seen
     = (seen, message_buf ++ concat chunks, None).
Proof.
  intros Hm. repeat split.
  revert message_buf Hm.
  induction chunks as [|chunk chunks IH]; intros message_buf Hm; simpl.
  - by rewrite app_nil_r.
  - rewrite data_received_no_match.
    + rewrite IH; [by rewrite <- app_assoc|].
      intros k Hk. specialize (Hm (S k)). simpl in Hm.
      rewrite <- app_assoc. apply Hm. lia.
    + specialize (Hm 1). simpl in Hm. rewrite ?take_0, app_nil_r in Hm.
      apply Hm. lia.
Qed.

(** C3, where it fails.  Two frames, the first with a body that ends in
    a line break: fed one after the other both bodies are emitted, fed as
    one chunk only the second is, the lines of the first frame are taken
    for header lines before its [Content-Length]. *)
Theorem concatenated_chunks_lose_a_frame :
  let frame1 := b "Content-Length: 4" ++ crlf ++ crlf ++ b "{}" ++ crlf in
  let frame2 := b "Content-Length: 2" ++ crlf ++ crlf ++ b "{}" in
  feed [frame1; frame2] [] []
    = ([(b "{}" ++ crlf, "utf-8"); (b "{}", "utf-8")], [], None)
  /\ feed [frame1 ++ frame2] [] [] = ([(b "{}", "utf-8")], [], None).
Proof. split; vm_compute; reflexivity. Qed.

(** A chunk that completes no frame is only buffered, so that the next
    chunk is read as if both had come at once. *)
Lemma feed_incomplete_chunk message_buf chunk1 chunk2 seen :
  chunk2 <> [] ->
  data_received record_body message_buf chunk1 seen
    = (seen, message_buf ++ chunk1, None) ->
  feed [chunk1; chunk2] message_buf seen
  = feed [chunk1 ++ chunk2] message_buf seen.
Proof.
  intros H2 H1. simpl. rewrite H1.
  by rewrite (data_received_buffered record_body _ _ _ _ H2 H1).
Qed.
End FramerClaims.

(** * Properties of the registry *)

Section RegistryFacts.
Import Registry.

Lemma ensure_initialized_initialized r :
  initialized (ensure_initialized r) = true.
Proof. unfold ensure_initialized. by destruct (initialized r) eqn:E. Qed.

Lemma ensure_initialized_idemp r :
  ensure_initialized (ensure_initialized r) = ensure_initialized r.
Proof.
  unfold ensure_initialized at 1.
  by rewrite ensure_initialized_initialized.
Qed.

Lemma ensure_initialized_add_method n f pt c r :
  ensure_initialized (add_method n f pt c r) = add_method n f pt c r.
Proof.
  unfold ensure_initialized at 1. unfold add_method. simpl.
  by rewrite ensure_initialized_initialized.
Qed.

Lemma size_insert_same {V} (m : gmap string V) k v1 v2 :
  size (<[k := v1]> m) = size (<[k := v2]> m).
Proof.
  rewrite <- (insert_delete_eq m k v1), <- (insert_delete_eq m k v2).
  by rewrite !map_size_insert_None by apply lookup_delete_eq.
Qed.

(** C9. Registering a handler under a name is last-write-wins: after two
    registrations under the same name the table is the one before the
    registrations with the single, later entry for the name (the second
    registration adds no entry), [get_entry] returns that entry for the
    name and what it returned before for every other name, and [get_entry]
    is a total function: the entry of the table, or [None]. *)
Theorem add_method_last_write_wins
    (r : RpcRegistry) (n : string) (f1 f2 : handler)
    (pt1 pt2 : option string) (c1 c2 : bool) :
  let r1 := add_method n f1 pt1 c1 r in
  let r2 := add_method n f2 pt2 c2 r1 in
  let entry2 := {| name := n; method := f2; param_type := pt2;
                   cancelable := c2 |} in
  methods r2 = <[n := entry2]> (methods (ensure_initialized r))
  /\ size (methods r2) = size (methods r1)
  /\ (forall n',
        snd (get_entry n' r2) =
        if decide (n' = n) then Some entry2 else snd (get_entry n' r))
  /\ (forall n' r',
        snd (get_entry n' r') = methods (fst (get_entry n' r')) !! n').
Proof.
  intros r1 r2 entry2.
  assert (Hm2 : methods r2 = <[n := entry2]> (methods (ensure_initialized r))).
  { subst r2 r1. unfold add_method at 1.
    rewrite ensure_initialized_add_method. simpl.
    by rewrite insert_insert_eq. }
  assert (Hi2 : ensure_initialized r2 = r2)
    by apply ensure_initialized_add_method.
  repeat split.
  - exact Hm2.
  - rewrite Hm2. subst r1. unfold add_method. simpl.
    apply size_insert_same.
  - intros n'. unfold get_entry. simpl. rewrite Hi2, Hm2.
    case_decide as Hn.
    + subst n'. apply lookup_insert_eq.
    + by rewrite lookup_insert_ne.
Qed.
End RegistryFacts.

(** * Properties of the dispatcher *)

Section EngineFacts.
Context `{Codec}.
Import State.

Lemma send_message_eq m s :
  send_message m s =
  if is_connected s then set_written (written s ++ [frame m]) s else s.
Proof.
  unfold send_message, is_connected, frame.
  by destruct (write_transport s), (_loop s).
Qed.

Lemma is_connected_init r : is_connected (init r) = false.
Proof. reflexivity. Qed.

Lemma is_connected_connection_lost s :
  is_connected (connection_lost s) = false.
Proof. unfold is_connected. simpl. apply andb_false_r. Qed.

(** C10, as the code has it.  Without a write transport, or once
    [connection_lost] has cleared the loop, [send_message] writes nothing
    and leaves the whole state as it is, and so do [send_response],
    [send_error] and [send_notification]; [send_request] still increments
    the counter and stores an entry, under the new id, for a pending
    future, while nothing is written for it.  The entry is like any
    other: a response that carries the id pops it, and resolves the
    future of the request (on the running loop) with the converted
    result, though the request was never written. *)
Theorem send_without_transport (s : JsonRPCProtocol) :
  is_connected s = false ->
  (forall m, send_message m s = s)
  /\ (forall id result, send_response id result s = s)
  /\ (forall c msg id d, send_error c msg id d s = s)
  /\ (forall meth params, send_notification meth params s = s)
  /\ (forall meth params rt floop,
        let r := send_request meth params rt floop s in
        written (snd r) = written s
        /\ _sended_request_count (snd r) = (_sended_request_count s + 1)%Z
        /\ _sended_request (snd r) !! IdInt (_sended_request_count s + 1)
           = Some {| se_future := fst r; se_result_type := rt |}
        /\ futures (snd r) !! fst r
           = Some {| f_state := Pending false; f_loop := floop;
                     f_done_callback := None |})
  /\ (forall meth params rt result res,
        match result with
        | JNull => inr JNull
        | _ => from_dict result rt
        end = inr res ->
        let r := send_request meth params rt RunningLoop s in
        let answered :=
          handle_response (Some (IdInt (_sended_request_count s + 1)))
            result (snd r) in
        snd answered = None
        /\ futures (fst answered) !! fst r
           = Some {| f_state := Done (inr res); f_loop := RunningLoop;
                     f_done_callback := None |}
        /\ _sended_request (fst answered)
             !! IdInt (_sended_request_count s + 1) = None
        /\ written (fst answered) = written s).
Proof.
  intros Hc.
  assert (Hm : forall m, send_message m s = s)
    by (intros m; by rewrite send_message_eq, Hc).
  split; [exact Hm|]. split; [intros; apply Hm|].
  split; [intros; apply Hm|]. split; [intros; apply Hm|].
  split; [|intros meth params rt result res Hres r answered];
    [repeat split|].
  - unfold send_request. simpl. rewrite send_message_eq.
    unfold is_connected in *. simpl. by rewrite Hc.
  - unfold send_request. simpl. rewrite send_message_eq.
    unfold is_connected in *. simpl. by rewrite Hc.
  - unfold send_request. simpl. rewrite send_message_eq.
    unfold is_connected in *. simpl. rewrite Hc. simpl.
    apply lookup_insert_eq.
  - unfold send_request. simpl. rewrite send_message_eq.
    unfold is_connected in *. simpl. rewrite Hc. simpl.
    by rewrite lookup_app_r, Nat.sub_diag.
  - assert (Hr : r = (List.length (futures s),
              set_sended_request
                (<[IdInt (_sended_request_count s + 1) :=
                     {| se_future := List.length (futures s);
                        se_result_type := rt |}]> (_sended_request s))
                (set_sended_request_count (_sended_request_count s + 1)
                   (set_futures
                      (futures s
                         ++ [{| f_state := Pending false;
                                f_loop := RunningLoop;
                                f_done_callback := None |}]) s)))).
    { subst r. unfold send_request. simpl. rewrite send_message_eq.
      unfold is_connected in *. simpl. by rewrite Hc. }
    subst answered. rewrite Hr. cbn [fst snd].
    unfold handle_response. simpl. rewrite lookup_insert_eq. simpl.
    rewrite lookup_app_r, Nat.sub_diag by lia. simpl. rewrite Hres.
    unfold update_future. simpl.
    rewrite lookup_app_r, Nat.sub_diag by lia. simpl.
    rewrite insert_app_r_alt, Nat.sub_diag by lia. simpl.
    split; [done|]. split; [by rewrite lookup_app_r, Nat.sub_diag by lia|].
    split; [apply lookup_delete_eq|done].
Qed.
End EngineFacts.

Section Projections.
Context `{Codec}.
Import State.

(** [send_message] only writes, [update_future] only touches the store. *)
Lemma send_message_write_transport m s : write_transport (send_message m s) = write_transport s.
Proof. rewrite send_message_eq. by destruct (is_connected s). Qed.

Lemma send_message_loop m s : _loop (send_message m s) = _loop s.
Proof. rewrite send_message_eq. by destruct (is_connected s). Qed.

Lemma send_message_message_buf m s : _message_buf (send_message m s) = _message_buf s.
Proof. rewrite send_message_eq. by destruct (is_connected s). Qed.

Lemma send_message_registry m s : registry (send_message m s) = registry s.
Proof. rewrite send_message_eq. by destruct (is_connected s). Qed.

Lemma send_message_sended_request m s : _sended_request (send_message m s) = _sended_request s.
Proof. rewrite send_message_eq. by destruct (is_connected s). Qed.

Lemma send_message_sended_request_count m s : _sended_request_count (send_message m s) = _sended_request_count s.
Proof. rewrite send_message_eq. by destruct (is_connected s). Qed.

Lemma send_message_received_request m s : _received_request (send_message m s) = _received_request s.
Proof. rewrite send_message_eq. by destruct (is_connected s). Qed.

Lemma send_message_futures m s : futures (send_message m s) = futures s.
Proof. rewrite send_message_eq. by destruct (is_connected s). Qed.

Lemma send_message_tasks m s : tasks (send_message m s) = tasks s.
Proof. rewrite send_message_eq. by destruct (is_connected s). Qed.

Lemma update_future_write_transport i g s : write_transport (update_future i g s) = write_transport s.
Proof. unfold update_future. by destruct (futures s !! i). Qed.

Lemma update_future_loop i g s : _loop (update_future i g s) = _loop s.
Proof. unfold update_future. by destruct (futures s !! i). Qed.

Lemma update_future_message_buf i g s : _message_buf (update_future i g s) = _message_buf s.
Proof. unfold update_future. by destruct (futures s !! i). Qed.

Lemma update_future_registry i g s : registry (update_future i g s) = registry s.
Proof. unfold update_future. by destruct (futures s !! i). Qed.

Lemma update_future_sended_request i g s : _sended_request (update_future i g s) = _sended_request s.
Proof. unfold update_future. by destruct (futures s !! i). Qed.

Lemma update_future_sended_request_count i g s : _sended_request_count (update_future i g s) = _sended_request_count s.
Proof. unfold update_future. by destruct (futures s !! i). Qed.

Lemma update_future_received_request i g s : _received_request (update_future i g s) = _received_request s.
Proof. unfold update_future. by destruct (futures s !! i). Qed.

Lemma update_future_tasks i g s : tasks (update_future i g s) = tasks s.
Proof. unfold update_future. by destruct (futures s !! i). Qed.

Lemma update_future_written i g s : written (update_future i g s) = written s.
Proof. unfold update_future. by destruct (futures s !! i). Qed.

Lemma send_message_scheduled m s : scheduled (send_message m s) = scheduled s.
Proof. rewrite send_message_eq. by destruct (is_connected s). Qed.

Lemma update_future_scheduled i g s : scheduled (update_future i g s) = scheduled s.
Proof. unfold update_future. by destruct (futures s !! i). Qed.

Lemma send_message_written m s :
  written (send_message m s) = written s ++ written_for s m.
Proof.
  rewrite send_message_eq. unfold written_for.
  destruct (is_connected s); simpl; [done|].
  by rewrite app_nil_r.
Qed.

Lemma send_message_is_connected m s :
  is_connected (send_message m s) = is_connected s.
Proof.
  unfold is_connected.
  by rewrite send_message_write_transport, send_message_loop.
Qed.

Lemma update_future_is_connected i g s :
  is_connected (update_future i g s) = is_connected s.
Proof.
  unfold is_connected.
  by rewrite update_future_write_transport, update_future_loop.
Qed.

Lemma update_future_futures i g s :
  futures (update_future i g s) =
  match futures s !! i with
  | Some f => <[i := g f]> (futures s)
  | None => futures s
  end.
Proof. unfold update_future. by destruct (futures s !! i). Qed.
End Projections.

Create Rewrite HintDb proj.
#[local] Hint Rewrite

  @send_message_write_transport
  @update_future_write_transport
  @send_message_loop
  @update_future_loop
  @send_message_message_buf
  @update_future_message_buf
  @send_message_registry
  @update_future_registry
  @send_message_sended_request
  @update_future_sended_request
  @send_message_sended_request_count
  @update_future_sended_request_count
  @send_message_received_request
  @update_future_received_request
  @send_message_futures
  @send_message_tasks
  @update_future_tasks
  @update_future_written
  @send_message_scheduled
  @update_future_scheduled
  @send_message_written
  @send_message_is_connected
  @update_future_is_connected
  : proj.

(** Case analysis on the branches of an operation, with the projections of
    [send_message] and [update_future] rewritten away. *)
Ltac crunch :=
  unfold send_error, send_response, send_notification;
  repeat (simpl; autorewrite with proj; try case_match; simplify_eq);
  simpl; autorewrite with proj.

Ltac fields H :=
  first [ unfold shell in H | unfold core in H ];
  injection H; clear H; intros.

Section EngineInvariants.
Context `{Codec}.
Import State.

Lemma core_send_message m s : core (send_message m s) = core s.
Proof. rewrite send_message_eq. by destruct (is_connected s). Qed.

Lemma core_handle_messages elements s :
  core (fst (_handle_messages elements s)) = core s.
Proof.
  revert s. induction elements as [|d elements IH]; intros s; simpl.
  - done.
  - destruct (inner d) as [e|m]; [done|]. by rewrite IH.
Qed.

Lemma core_handle_body body charset s :
  core (fst (_handle_body body charset s)) = core s.
Proof.
  unfold _handle_body.
  destruct (json_loads body charset) as [e|d].
  - destruct (is_reraised e); simpl; [done|].
    apply core_send_message.
  - pose proof (core_handle_messages
                  (_generate_json_rpc_messages_from_dict d) s) as Hc.
    destruct (_handle_messages _ s) as [s' [e|]]; simpl in *; [|done].
    destruct (is_reraised e); simpl; [done|].
    unfold send_error. by rewrite core_send_message.
Qed.

(** The framer carries a property of the subclass state that
    [_handle_body] preserves. *)
Lemma data_received_loop_preserves {St}
    (hb : bytes -> string -> St -> St * option exn) (P : St -> Prop) :
  (forall body charset st, P st -> P (fst (hb body charset st))) ->
  forall fuel message_buf chunk st,
    P st -> P (fst (fst (data_received_loop hb fuel message_buf chunk st))).
Proof.
  intros Hhb fuel. induction fuel as [|fuel IH]; intros buf chunk st HP.
  - done.
  - rewrite data_received_loop_unfold.
    destruct chunk as [|x chunk]; [done|]. cbv zeta.
    destruct (found_charset _) as [e|charset]; [done|].
    destruct (N.ltb _ _); [done|].
    specialize (Hhb (take (N.to_nat (found_length
                  (re_match MESSAGE_PATTERN (buf ++ x :: chunk))))
                  (found_body (re_match MESSAGE_PATTERN (buf ++ x :: chunk))))
                charset st HP).
    destruct (hb _ _ st) as [st' [e|]]; simpl in *; [done|].
    by apply IH.
Qed.

Lemma core_protocol_data_received chunk s :
  core (fst (protocol_data_received chunk s)) = core s.
Proof.
  unfold protocol_data_received, data_received.
  pose proof (data_received_loop_preserves _handle_body
                (fun s' => core s' = core s)) as Hp.
  specialize (Hp (fun body charset st Hst =>
                    eq_trans (core_handle_body body charset st) Hst)
                 (S (List.length (_message_buf s ++ chunk)))
                 (_message_buf s) chunk s eq_refl).
  destruct (data_received_loop _ _ _ _ _) as [[s' buf] e]. simpl in *.
  exact Hp.
Qed.
End EngineInvariants.

Section StepFacts.
Context `{Codec}.
Import State.

Lemma update_future_shell i g s : shell (update_future i g s) = shell s.
Proof. unfold update_future. by destruct (futures s !! i). Qed.

Lemma update_future_callbacks i g s :
  (forall f, f_done_callback (g f) = f_done_callback f) ->
  callbacks (update_future i g s) = callbacks s.
Proof.
  intros Hg. unfold update_future, callbacks.
  destruct (futures s !! i) as [f|] eqn:E; [|done]. simpl.
  rewrite list_fmap_insert, Hg. apply list_insert_id.
  by rewrite list_lookup_fmap, E.
Qed.

Lemma future_cancel_callback f :
  f_done_callback (future_cancel f) = f_done_callback f.
Proof. unfold future_cancel. by destruct (f_state f). Qed.

Lemma cancel_request_shell id s : shell (cancel_request id s) = shell s.
Proof.
  unfold cancel_request. repeat case_match; try done.
  apply update_future_shell.
Qed.


Lemma cancel_all_shell_callbacks s :
  shell (cancel_all_received_request s) = shell s
  /\ callbacks (cancel_all_received_request s) = callbacks s.
Proof.
  unfold cancel_all_received_request.
  apply (map_fold_weak_ind
           (fun r _ => shell r = shell s /\ callbacks r = callbacks s)).
  - done.
  - intros i x m r _ [Hs Hc]. repeat case_match; try done.
    rewrite update_future_shell, update_future_callbacks;
      auto using future_cancel_callback.
Qed.
End StepFacts.

Section StepInvariants.
Context `{Codec}.
Import State.

(** A step leaves the counter and the table of sent requests alone, or
    removes one entry (a response), or is a [send_request]. *)
Lemma step_sended ev s :
  (_sended_request_count (step ev s) = _sended_request_count s
   /\ (_sended_request (step ev s) = _sended_request s
       \/ exists i, _sended_request (step ev s)
                    = delete i (_sended_request s)))
  \/ exists meth params rt floop, ev = SendRequest meth params rt floop.
Proof.
  destruct ev as [w| |chunk| |task o|task|meth params rt floop|meth params
                 |id| ]; try (right; eauto 6; fail); left.
  - unfold step, connection_made. by destruct w; auto.
  - auto.
  - simpl. pose proof (core_protocol_data_received chunk s) as Hc.
    fields Hc. auto.
  - simpl. destruct (tasks s) as [|m rest]; [auto|].
    destruct m as [meth params|id meth params|id result|id error result];
      simpl.
    + unfold handle_notification. crunch; auto.
    + unfold handle_request. crunch; auto.
    + unfold handle_response. crunch; eauto.
    + auto.
  - unfold step. crunch; auto.
  - unfold step, done. crunch; auto.
  - unfold step. crunch; auto.
  - unfold step. pose proof (cancel_request_shell id s) as Hs.
    fields Hs. auto.
  - unfold step. destruct (cancel_all_shell_callbacks s) as [Hs _].
    fields Hs. auto.
Qed.
End StepInvariants.

Section SentRequests.
Context `{Codec}.
Import State.

Lemma send_request_eq meth params rt floop s :
  send_request meth params rt floop s =
  (List.length (futures s),
   send_message
     (JsonRPCRequest (Some (IdInt (_sended_request_count s + 1))) meth params)
     (set_sended_request
        (<[IdInt (_sended_request_count s + 1) :=
             {| se_future := List.length (futures s);
                se_result_type := rt |}]> (_sended_request s))
        (set_sended_request_count (_sended_request_count s + 1)
           (set_futures
              (futures s ++ [{| f_state := Pending false; f_loop := floop;
                                f_done_callback := None |}]) s)))).
Proof. reflexivity. Qed.

Lemma step_sended_ids_allocated ev s :
  sended_ids_allocated s -> sended_ids_allocated (step ev s).
Proof.
  intros [H0 Hs]. destruct (step_sended ev s)
    as [[Hc [Ht|[i Ht]]]|(meth & params & rt & floop & ->)];
    unfold sended_ids_allocated.
  - rewrite Hc, Ht. auto.
  - rewrite Hc, Ht. split; [done|]. intros k [e He].
    apply lookup_delete_Some in He as [_ He]. eauto.
  - unfold step. rewrite send_request_eq. simpl. autorewrite with proj.
    simpl. split; [lia|].
    intros k [e He]. apply lookup_insert_Some in He as [[<- _]|[_ He]].
    + eexists. split; [done|lia].
    + destruct (Hs k) as (n & -> & Hn); [eauto|].
      eexists. split; [done|lia].
Qed.

Lemma step_count_mono ev s :
  (_sended_request_count s <= _sended_request_count (step ev s))%Z.
Proof.
  destruct (step_sended ev s)
    as [[Hc _]|(meth & params & rt & floop & ->)].
  - lia.
  - unfold step. rewrite send_request_eq. simpl. autorewrite with proj.
    simpl. lia.
Qed.

Lemma run_app evs1 evs2 s : run (evs1 ++ evs2) s = run evs2 (run evs1 s).
Proof. apply fold_left_app. Qed.

Lemma run_sended_ids_allocated evs s :
  sended_ids_allocated s -> sended_ids_allocated (run evs s).
Proof.
  revert s. induction evs as [|ev evs IH]; intros s Hs; simpl; [done|].
  apply IH, step_sended_ids_allocated, Hs.
Qed.

Lemma run_count_mono evs s :
  (_sended_request_count s <= _sended_request_count (run evs s))%Z.
Proof.
  revert s. induction evs as [|ev evs IH]; intros s; simpl; [lia|].
  pose proof (step_count_mono ev s). pose proof (IH (step ev s)). lia.
Qed.

Lemma init_sended_ids_allocated r : sended_ids_allocated (init r).
Proof.
  split; [done|]. intros k [e He]. simpl in He.
  by rewrite lookup_empty in He.
Qed.

(** C8. On a connection with any history, a [send_request] takes the id
    [_sended_request_count + 1]; this id is larger than the id of every
    earlier [send_request] of the connection and than every id in the
    table; no entry is stored under it yet, the call stores its entry
    there (the table grows by exactly one entry) and hands a request with
    this id to [send_message], which writes its frame when a transport is
    attached ([written_for]).  The ids of the outstanding requests are pairwise distinct. *)
Theorem send_request_allocates_fresh_id
    (r : RpcRegistry) (before between : list event)
    (meth1 meth2 : string) (params1 params2 : json)
    (rt1 rt2 : option string) (floop1 floop2 : future_loop) :
  let s1 := run before (init r) in
  let r1 := send_request meth1 params1 rt1 floop1 s1 in
  let s2 := run between (snd r1) in
  let r2 := send_request meth2 params2 rt2 floop2 s2 in
  let id1 := _sended_request_count (snd r1) in
  let id2 := _sended_request_count (snd r2) in
  (id1 < id2)%Z
  /\ id2 = (_sended_request_count s2 + 1)%Z
  /\ (forall k, is_Some (_sended_request s2 !! k) ->
        exists n, k = IdInt n /\ (n < id2)%Z)
  /\ _sended_request s2 !! IdInt id2 = None
  /\ _sended_request (snd r2)
     = <[IdInt id2 := {| se_future := fst r2; se_result_type := rt2 |}]>
         (_sended_request s2)
  /\ size (_sended_request (snd r2)) = S (size (_sended_request s2))
  /\ written (snd r2)
     = written s2
       ++ written_for s2 (JsonRPCRequest (Some (IdInt id2)) meth2 params2)
  /\ NoDup (fst <$> map_to_list (_sended_request (snd r2))).
Proof.
  intros s1 r1 s2 r2 id1 id2.
  assert (Hinv : sended_ids_allocated s2).
  { apply run_sended_ids_allocated.
    apply (step_sended_ids_allocated
             (SendRequest meth1 params1 rt1 floop1) s1).
    apply run_sended_ids_allocated, init_sended_ids_allocated. }
  destruct Hinv as [H0 Hinv].
  assert (Hid2 : id2 = (_sended_request_count s2 + 1)%Z).
  { subst id2 r2. rewrite send_request_eq. simpl.
    by autorewrite with proj. }
  assert (Hfresh : _sended_request s2 !! IdInt id2 = None).
  { destruct (_sended_request s2 !! IdInt id2) as [e|] eqn:E; [|done].
    destruct (Hinv (IdInt id2)) as (n & Hn & Hle); [eauto|].
    injection Hn as <-. lia. }
  assert (Htab : _sended_request (snd r2)
     = <[IdInt id2 := {| se_future := fst r2; se_result_type := rt2 |}]>
         (_sended_request s2)).
  { rewrite Hid2. subst r2. rewrite send_request_eq. simpl.
    by autorewrite with proj. }
  repeat split.
  - pose proof (run_count_mono between (snd r1)). fold s2 in H1.
    subst id1. lia.
  - exact Hid2.
  - intros k Hk. destruct (Hinv k Hk) as (n & -> & Hn).
    eexists. split; [done|lia].
  - exact Hfresh.
  - exact Htab.
  - rewrite Htab. by apply map_size_insert_None.
  - rewrite Hid2. subst r2. rewrite send_request_eq. simpl.
    by autorewrite with proj.
  - apply NoDup_fst_map_to_list.
Qed.
End SentRequests.

Section ReceivedRequests.
Context `{Codec}.
Import State.



Lemma future_set_callback o f :
  f_done_callback (future_set o f) = f_done_callback f.
Proof. reflexivity. Qed.





End ReceivedRequests.

Section TerminalStates.
Context `{Codec}.
Import State.








Lemma ids_not_reused_app evs1 evs2 s :
  ids_not_reused (evs1 ++ evs2) s
  = ids_not_reused evs1 s && ids_not_reused evs2 (run evs1 s).
Proof.
  revert s. induction evs1 as [|ev evs1 IH]; intros s; simpl; [done|].
  by rewrite IH, andb_assoc.
Qed.






End TerminalStates.

Section Requests.
Context `{Codec}.
Import State.

Lemma handle_request_unknown id meth params s :
  snd (Registry.get_entry meth (registry s)) = None ->
  handle_request id meth params s =
  (send_error JsonRPCErrors.METHOD_NOT_FOUND
     (Some ("Unknown method: " ++ meth)%string) id JNull
     (set_registry (Registry.ensure_initialized (registry s)) s), None).
Proof.
  unfold handle_request, Registry.get_entry. simpl. by intros ->.
Qed.

Lemma handle_request_known id meth params s e :
  snd (Registry.get_entry meth (registry s)) = Some e ->
  h_callable (method e) = true ->
  _convert_params e params = None ->
  handle_request id meth params s =
  (set_received_request
     (<[id := {| re_future := List.length (futures s);
                 re_request := JsonRPCRequest id meth params;
                 re_cancelable := cancelable e |}]> (_received_request s))
     (set_futures
        (futures s ++ [{| f_state := Pending false; f_loop := RunningLoop;
                          f_done_callback := Some id |}])
        (set_registry (Registry.ensure_initialized (registry s)) s)),
   None).
Proof.
  unfold handle_request, Registry.get_entry. simpl.
  by intros -> -> ->.
Qed.

Lemma step_task_finished task o s fut :
  futures s !! task = Some fut ->
  future_done fut = false ->
  step (TaskFinished task o) s
  = set_futures (<[task := future_set o fut]> (futures s)) s.
Proof.
  intros Hf Hd. unfold step, update_future. by rewrite Hf, Hd.
Qed.

Lemma step_run_done_callback task s fut o id :
  futures s !! task = Some fut ->
  f_state fut = Done o ->
  f_done_callback fut = Some id ->
  step (RunDoneCallback task) s
  = fst (done id o
           (set_futures (<[task := future_clear_callback fut]> (futures s))
              s)).
Proof.
  intros Hf Hs Hc. unfold step, update_future. by rewrite Hf, Hs, Hc.
Qed.

Lemma done_result id result s :
  fst (done id (inr result) s)
  = set_received_request (delete id (_received_request s))
      (send_message (JsonRPCResponse id result) s).
Proof. unfold done, send_response. simpl. by autorewrite with proj. Qed.

Lemma written_for_same s s' m :
  is_connected s' = is_connected s -> written_for s' m = written_for s m.
Proof. unfold written_for. by intros ->. Qed.

(** C6. A request for a method without an entry in the registry is
    answered with error -32601 for its id, stores no entry and creates no
    task, and raises nothing.  In a batch of two requests, the first for
    such a method and the second for a registered, callable method whose
    parameters convert: both become tasks; the first is answered with the
    error; the second gets its entry, and when its handler returns
    [result] the response with [result] for its id is written after the
    error and its entry is removed. *)
Theorem unknown_method_does_not_stop_the_batch
    (s : JsonRPCProtocol) (body : bytes) (charset : string) (d1 d2 : json)
    (id1 id2 : option rpc_id) (meth1 meth2 : string)
    (params1 params2 : json) (e2 : RpcMethodEntry) (result : json) :
  tasks s = [] ->
  json_loads body charset = inr (JArr [d1; d2]) ->
  inner d1 = inr (JsonRPCRequest id1 meth1 params1) ->
  inner d2 = inr (JsonRPCRequest id2 meth2 params2) ->
  snd (Registry.get_entry meth1 (registry s)) = None ->
  snd (Registry.get_entry meth2 (registry s)) = Some e2 ->
  h_callable (method e2) = true ->
  _convert_params e2 params2 = None ->
  let not_found :=
    JsonRPCError id1
      {| code := JsonRPCErrors.METHOD_NOT_FOUND;
         message := Some ("Unknown method: " ++ meth1)%string;
         data := JNull |} JNull in
  let task := List.length (futures s) in
  let s0 := fst (_handle_body body charset s) in
  let s1 := step RunTask s0 in
  let s2 := step RunTask s1 in
  let s3 := run [TaskFinished task (inr result); RunDoneCallback task] s2 in
  (forall s' id meth params,
     snd (Registry.get_entry meth (registry s')) = None ->
     let r := handle_request id meth params s' in
     written (fst r)
     = written s' ++ written_for s'
         (JsonRPCError id
            {| code := JsonRPCErrors.METHOD_NOT_FOUND;
               message := Some ("Unknown method: " ++ meth)%string;
               data := JNull |} JNull)
     /\ _received_request (fst r) = _received_request s'
     /\ futures (fst r) = futures s'
     /\ snd r = None)
  /\ tasks s0 = [JsonRPCRequest id1 meth1 params1;
                 JsonRPCRequest id2 meth2 params2]
  /\ written s1 = written s ++ written_for s not_found
  /\ _received_request s1 = _received_request s
  /\ _received_request s2
     = <[id2 := {| re_future := task;
                   re_request := JsonRPCRequest id2 meth2 params2;
                   re_cancelable := cancelable e2 |}]> (_received_request s)
  /\ written s3
     = written s ++ written_for s not_found
         ++ written_for s (JsonRPCResponse id2 result)
  /\ _received_request s3 = delete id2 (_received_request s).
Proof.
  intros Ht Hbody Hd1 Hd2 Hm1 Hm2 Hc2 Hp2 not_found task s0 s1 s2 s3.
  assert (Hs0 : s0 = set_tasks [JsonRPCRequest id1 meth1 params1;
                                JsonRPCRequest id2 meth2 params2] s).
  { subst s0. unfold _handle_body. rewrite Hbody. simpl.
    rewrite Hd1. simpl. rewrite Hd2. simpl. by rewrite Ht. }
  assert (Hs1 : s1 = send_message not_found
                       (set_registry
                          (Registry.ensure_initialized (registry s))
                          (set_tasks [JsonRPCRequest id2 meth2 params2] s))).
  { subst s1. rewrite Hs0. simpl. by rewrite handle_request_unknown. }
  assert (Hs2 : s2 =
            set_received_request
              (<[id2 := {| re_future := task;
                           re_request := JsonRPCRequest id2 meth2 params2;
                           re_cancelable := cancelable e2 |}]>
                 (_received_request s))
              (set_futures
                 (futures s ++ [{| f_state := Pending false;
                                   f_loop := RunningLoop;
                                   f_done_callback := Some id2 |}])
                 (set_tasks [] s1))).
  { subst s2. unfold step. rewrite Hs1 at 1. autorewrite with proj. simpl.
    rewrite (handle_request_known id2 meth2 params2 _ e2); try done.
    - simpl. rewrite Hs1. autorewrite with proj. simpl.
      rewrite (ensure_initialized_idemp (registry s)).
      f_equal. f_equal. f_equal.
      rewrite send_message_eq. by destruct (is_connected _).
    - rewrite Hs1. simpl. autorewrite with proj. simpl.
      unfold Registry.get_entry in *. simpl in *.
      by rewrite (ensure_initialized_idemp (registry s)). }
  assert (Htf : step (TaskFinished task (inr result)) s2
                = set_futures
                    (<[task := future_set (inr result)
                                 {| f_state := Pending false;
                                    f_loop := RunningLoop;
                                    f_done_callback := Some id2 |}]>
                       (futures s2)) s2).
  { apply step_task_finished; [|done].
    rewrite Hs2. simpl. by rewrite lookup_app_r, Nat.sub_diag. }
  assert (Hlen : task < List.length (futures s2)).
  { rewrite Hs2. simpl. rewrite length_app. simpl. lia. }
  repeat split.
  - by rewrite handle_request_unknown; crunch.
  - by rewrite handle_request_unknown; crunch.
  - by rewrite handle_request_unknown; crunch.
  - by rewrite handle_request_unknown.
  - by rewrite Hs0.
  - rewrite Hs1. by autorewrite with proj.
  - rewrite Hs1. by autorewrite with proj.
  - by rewrite Hs2.
  - subst s3. unfold run, fold_left.
    erewrite Htf, step_run_done_callback;
      [|by apply list_lookup_insert_eq|done|done].
    rewrite done_result. simpl. autorewrite with proj. simpl.
    rewrite Hs2. simpl. rewrite Hs1. autorewrite with proj. simpl.
    rewrite <- app_assoc. f_equal. f_equal.
    apply written_for_same. unfold is_connected. simpl.
    by autorewrite with proj.
  - subst s3. unfold run, fold_left.
    erewrite Htf, step_run_done_callback;
      [|by apply list_lookup_insert_eq|done|done].
    rewrite done_result. simpl. autorewrite with proj. simpl.
    rewrite Hs2. simpl. by rewrite delete_insert_eq.
Qed.
End Requests.

Section Decoding.
Context `{Codec}.
Import State.

Lemma handle_messages_app before ms rest s :
  Forall2 (fun x m => inner x = inr m) before ms ->
  _handle_messages (before ++ rest) s
  = _handle_messages rest (set_tasks (tasks s ++ ms) s).
Proof.
  intros Hf. revert s. induction Hf as [|x m before ms Hx _ IH]; intros s.
  - simpl. rewrite app_nil_r. by destruct s.
  - simpl. rewrite Hx, IH. simpl. by rewrite <- app_assoc.
Qed.

Lemma handle_messages_raise d rest e s :
  inner d = inl e -> _handle_messages (d :: rest) s = (s, Some e).
Proof. intros Hd. simpl. by rewrite Hd. Qed.

(** C5, as the code has it.  When an element of a body carries a
    [jsonrpc] field that is not the string ["2.0"], [inner] raises
    [InvalidProtocolVersionError] for it; the elements before it in the
    body have become tasks, neither this element nor any element after it
    does; one error -32700 without an id is sent; nothing else of the state
    changes and no exception leaves [_handle_body], so the loop of
    [data_received] goes on with the bytes that follow. *)
Theorem invalid_version_ends_the_body
    (s : JsonRPCProtocol) (body : bytes) (charset : string) (data : json)
    (before after : list json) (ms : list JsonRPCMessage)
    (fields : list (string * json)) (v : json) :
  json_loads body charset = inr data ->
  _generate_json_rpc_messages_from_dict data
    = before ++ JObj fields :: after ->
  Forall2 (fun x m => inner x = inr m) before ms ->
  dict_get "jsonrpc" fields = Some v ->
  is_protocol_version v = false ->
  let r := _handle_body body charset s in
  let parse_error :=
    JsonRPCError None
      {| code := JsonRPCErrors.PARSE_ERROR;
         message :=
           Some ("InvalidProtocolVersionError: "
                   ++ "Invalid JSON-RPC2 protocol version.")%string;
         data := JNull |} JNull in
  inner (JObj fields)
    = inl (InvalidProtocolVersionError "Invalid JSON-RPC2 protocol version.")
  /\ tasks (fst r) = tasks s ++ ms
  /\ written (fst r) = written s ++ written_for s parse_error
  /\ core (fst r) = core s
  /\ snd r = None.
Proof.
  intros Hbody Hgen Hbefore Hget Hv r parse_error.
  assert (Hin : inner (JObj fields)
    = inl (InvalidProtocolVersionError
             "Invalid JSON-RPC2 protocol version.")).
  { unfold inner. by rewrite Hget, Hv. }
  assert (Hr : r = (send_message parse_error (set_tasks (tasks s ++ ms) s),
                    None)).
  { subst r. unfold _handle_body. rewrite Hbody, Hgen.
    rewrite (handle_messages_app before ms) by done.
    by rewrite (handle_messages_raise _ _ _ _ Hin). }
  rewrite Hr. simpl. autorewrite with proj. simpl.
  repeat split; try done. by rewrite core_send_message.
Qed.
End Decoding.

Section Cancellation.
Context `{Codec}.
Import State.

(** C1, the path of an error message.  [handle_error] raises the
    exception made of the error object inside the [handle_message] task
    and touches nothing: the entry of the request stays in the table of
    sent requests and its future stays as it was, whatever the state and
    the id. *)
Theorem handle_error_leaves_sent_request_pending
    (s : JsonRPCProtocol) (id : option rpc_id) (error : JsonRPCErrorObject)
    (result : json) :
  let r := handle_message (JsonRPCError id error result) s in
  fst r = s
  /\ _sended_request (fst r) = _sended_request s
  /\ futures (fst r) = futures s
  /\ written (fst r) = written s
  /\ snd r = Some (JsonRPCErrorException (code error) (message error)
                     (data error)).
Proof. by repeat split. Qed.

(** The path of a response, for comparison: the entry is popped and its
    pending future, when it belongs to the running loop, is resolved with
    the converted result. *)
Lemma handle_response_resolves s i entry fut mc result res :
  _sended_request s !! i = Some entry ->
  futures s !! se_future entry = Some fut ->
  f_state fut = Pending mc ->
  f_loop fut = RunningLoop ->
  match result with
  | JNull => inr JNull
  | _ => from_dict result (se_result_type entry)
  end = inr res ->
  handle_response (Some i) result s
  = (set_futures
       (<[se_future entry := future_set (inr res) fut]> (futures s))
       (set_sended_request (delete i (_sended_request s)) s), None).
Proof.
  intros Hi Hf Hs Hl Hres. unfold handle_response. rewrite Hi. simpl.
  rewrite Hf. unfold future_done. rewrite Hs, Hres, Hl.
  unfold update_future. simpl. by rewrite Hf.
Qed.

(** A response for an id that is not in the table is answered with an
    internal error and changes nothing else. *)
Lemma handle_response_unknown_id s i result :
  _sended_request s !! i = None ->
  handle_response (Some i) result s
  = (send_error JsonRPCErrors.INTERNAL_ERROR
       (Some ("Invalid response. Could not find id '" ++ str_of_id i
                ++ "' in request list.")%string) None JNull s, None).
Proof.
  intros Hi. unfold handle_response. rewrite Hi.
  rewrite delete_id by done. by destruct s.
Qed.

(** C2, the check that is missing.  [cancel_request] requests the
    cancellation of a pending task whenever the id has an entry: the flag
    [cancelable] of the entry is not read. *)
Theorem cancel_request_ignores_cancelable
    (s : JsonRPCProtocol) (id : option rpc_id)
    (entry : ReceivedRequestEntry) (fut : future) (mc : bool) :
  _received_request s !! id = Some entry ->
  futures s !! re_future entry = Some fut ->
  f_state fut = Pending mc ->
  cancel_request id s
  = set_futures
      (<[re_future entry :=
           {| f_state := Pending true; f_loop := f_loop fut;
              f_done_callback := f_done_callback fut |}]> (futures s)) s.
Proof.
  intros Hi Hf Hs. unfold cancel_request, update_future.
  rewrite Hi, Hf. unfold future_cancelled, future_cancel. by rewrite Hs.
Qed.

(** [cancel_all_received_request] does read the flag: the task of an entry
    that is not cancelable is left alone. *)
Lemma cancel_all_skips_not_cancelable s :
  (forall k e, _received_request s !! k = Some e -> re_cancelable e = false) ->
  cancel_all_received_request s = s.
Proof.
  unfold cancel_all_received_request.
  apply (map_fold_weak_ind
           (fun r m => (forall k e, m !! k = Some e -> re_cancelable e = false)
                       -> r = s)).
  - done.
  - intros k e m r Hk IH Hall.
    rewrite IH.
    + rewrite (Hall k e) by apply lookup_insert_eq. simpl.
      by destruct (futures s !! re_future e).
    + intros k' e' Hk'. apply (Hall k').
      rewrite lookup_insert_ne; [done|]. intros ->. congruence.
Qed.

(** On an id without an entry, and on an entry whose task is done,
    [cancel_request] does nothing. *)
Lemma cancel_request_unknown_id s id :
  _received_request s !! id = None -> cancel_request id s = s.
Proof. intros Hi. unfold cancel_request. by rewrite Hi. Qed.

Lemma cancel_request_done s id entry fut o :
  _received_request s !! id = Some entry ->
  futures s !! re_future entry = Some fut ->
  f_state fut = Done o ->
  cancel_request id s = s.
Proof.
  intros Hi Hf Hs. unfold cancel_request, update_future.
  rewrite Hi, Hf. destruct (negb _); [|done].
  unfold future_cancel. rewrite Hs. rewrite list_insert_id by done.
  by destruct s.
Qed.
End Cancellation.

(** * The framer on the frames of [send_message] *)

Lemma LEADING_LINES_eq : LEADING_LINES = Star LINE.
Proof. reflexivity. Qed.

Lemma HEADER_LINES_eq :
  HEADER_LINES = Star (Alt CONTENT_TYPE_LINE OTHER_HEADER_LINE).
Proof. reflexivity. Qed.

Lemma b_app (s1 s2 : string) : b (s1 ++ s2)%string = b s1 ++ b s2.
Proof.
  unfold b, list_byte_of_string.
  induction s1 as [|a s1 IH]; simpl; [done|]. by f_equal.
Qed.

(** ** Decimal digits: [int(str(n)) = n] *)

Lemma int_of_digits_acc (u : Decimal.uint) (acc : N) :
  fold_left (fun a x => (a * 10 + (Byte.to_N x - 48))%N)
    (b (DecimalString.NilEmpty.string_of_uint u)) acc
  = N.of_nat (Nat.of_uint_acc u (N.to_nat acc)).
Proof.
  revert acc. induction u as [|u IH|u IH|u IH|u IH|u IH|u IH|u IH|u IH|u IH|u IH];
    intros acc; simpl;
    [by rewrite N2Nat.id|..];
    rewrite IH; f_equal; f_equal; rewrite Nat.tail_mul_spec; lia.
Qed.

Lemma digits_of_uint (u : Decimal.uint) :
  forallb digit (b (DecimalString.NilEmpty.string_of_uint u)) = true.
Proof. induction u; simpl; auto. Qed.

Lemma str_of_nat_digits (n : nat) :
  b (str_of_nat n) <> []
  /\ forallb digit (b (str_of_nat n)) = true
  /\ int_of_digits (b (str_of_nat n)) = N.of_nat n.
Proof.
  unfold str_of_nat, int_of_digits, DecimalString.NilZero.string_of_uint.
  pose proof (DecimalNat.Unsigned.of_to n) as Hn.
  destruct (Nat.to_uint n) as [|u|u|u|u|u|u|u|u|u|u] eqn:E;
    try (split; [done|]; split; [apply (digits_of_uint (_ u))|];
         rewrite int_of_digits_acc; f_equal; exact Hn).
  simpl in Hn. subst n. by repeat split.
Qed.

(** ** Greedy repetitions on the input of a frame *)

Lemma ltb_length_app (xs rest : bytes) :
  xs <> [] -> Nat.ltb (List.length rest) (List.length (xs ++ rest)) = true.
Proof.
  intros Hx. apply Nat.ltb_lt. rewrite length_app.
  destruct xs; [done|simpl; lia].
Qed.

Lemma take_consumed (xs rest : bytes) :
  take (List.length (xs ++ rest) - List.length rest) (xs ++ rest) = xs.
Proof.
  rewrite length_app, Nat.add_sub. apply take_app_length.
Qed.

Section ClassRuns.
Context {A : Type}.

Lemma star_iter_S
    (step : bytes -> captures -> (bytes -> captures -> option A) -> option A)
    (k : bytes -> captures -> option A) n s c :
  star_iter step k (S n) s c =
  match step s c (fun s' c' =>
          if Nat.ltb (List.length s') (List.length s)
          then star_iter step k n s' c'
          else None) with
  | Some x => Some x
  | None => k s c
  end.
Proof. reflexivity. Qed.

(** A continuation that fails on an input that starts in the class
    is tried at the end of the run only. *)
Lemma star_class_run (p : byte -> bool)
    (k : bytes -> captures -> option A) xs rest c n :
  forallb p xs = true -> stops p rest ->
  (forall y s', p y = true -> k (y :: s') c = None) ->
  List.length xs <= n ->
  star_iter (rmatch (Class p)) k n (xs ++ rest) c = k rest c.
Proof.
  intros Hxs Hrest Hk. revert n.
  induction xs as [|x xs IH]; intros n Hn; simpl in *.
  - destruct n as [|n]; simpl; [done|].
    destruct rest as [|y rest]; simpl in *; [done|]. by rewrite Hrest.
  - apply andb_true_iff in Hxs as [Hx Hxs].
    destruct n as [|n]; simpl; [lia|].
    rewrite Hx.
    assert (Hlt : Nat.ltb (List.length (xs ++ rest))
                    (S (List.length (xs ++ rest))) = true)
      by (apply Nat.ltb_lt; lia).
    rewrite Hlt, IH by (done || lia).
    destruct (k rest c); [done|]. by apply Hk.
Qed.

Lemma rmatch_Class_cons (p : byte -> bool) x s c
    (k : bytes -> captures -> option A) :
  rmatch (Class p) (x :: s) c k = if p x then k s c else None.
Proof. reflexivity. Qed.

Lemma rmatch_Class_nil (p : byte -> bool) c
    (k : bytes -> captures -> option A) :
  rmatch (Class p) [] c k = None.
Proof. reflexivity. Qed.

Lemma plus_class_run (p : byte -> bool)
    (k : bytes -> captures -> option A) xs rest c :
  xs <> [] -> forallb p xs = true -> stops p rest ->
  (forall y s', p y = true -> k (y :: s') c = None) ->
  rmatch (Plus (Class p)) (xs ++ rest) c k = k rest c.
Proof.
  intros Hne Hxs Hrest Hk. destruct xs as [|x xs]; [done|].
  simpl in Hxs. apply andb_true_iff in Hxs as [Hx Hxs].
  unfold Plus. rewrite rmatch_Seq. simpl app.
  rewrite rmatch_Class_cons, Hx, rmatch_Star.
  apply star_class_run; try done. rewrite length_app. lia.
Qed.

Lemma plus_class_none (p : byte -> bool)
    (k : bytes -> captures -> option A) rest c :
  stops p rest -> rmatch (Plus (Class p)) rest c k = None.
Proof.
  intros Hrest. unfold Plus. rewrite rmatch_Seq.
  destruct rest as [|y rest]; [done|].
  simpl in Hrest. by rewrite rmatch_Class_cons, Hrest.
Qed.

(** A line: the run of bytes up to the line break. *)
Lemma Lit_crlf_not_crlf (k : bytes -> captures -> option A) y s' c :
  not_crlf y = true -> rmatch (Lit crlf) (y :: s') c k = None.
Proof.
  intros Hy. rewrite rmatch_Lit. simpl.
  destruct (Byte.eqb CR y) eqn:E; [|done].
  apply Byte.byte_dec_bl in E. by subst y.
Qed.

Lemma rmatch_LINE (k : bytes -> captures -> option A) xs rest c :
  forallb not_crlf xs = true ->
  rmatch LINE (xs ++ crlf ++ rest) c k = k rest c.
Proof.
  intros Hxs. unfold LINE. rewrite rmatch_Seq, rmatch_Star.
  rewrite star_class_run.
  - by rewrite rmatch_Lit, strip_prefix_app.
  - done.
  - done.
  - intros y s' Hy. by apply Lit_crlf_not_crlf.
  - rewrite length_app. lia.
Qed.

Lemma rmatch_LINE_none (k : bytes -> captures -> option A) xs c :
  forallb not_crlf xs = true -> rmatch LINE xs c k = None.
Proof.
  intros Hxs. unfold LINE. rewrite rmatch_Seq, rmatch_Star.
  rewrite <- (app_nil_r xs) at 2.
  rewrite star_class_run.
  - done.
  - done.
  - done.
  - intros y s' Hy. by apply Lit_crlf_not_crlf.
  - lia.
Qed.

(** The lines before [Content-Length]: one more line first, the rest of
    the pattern from the start of this line when that fails. *)
Lemma star_LINE_step (k : bytes -> captures -> option A) xs rest c n :
  forallb not_crlf xs = true ->
  star_iter (rmatch LINE) k (S n) (xs ++ crlf ++ rest) c
  = match star_iter (rmatch LINE) k n rest c with
    | Some r => Some r
    | None => k (xs ++ crlf ++ rest) c
    end.
Proof.
  intros Hxs. rewrite star_iter_S, rmatch_LINE by done.
  assert (Hlt : Nat.ltb (List.length rest)
                  (List.length (xs ++ crlf ++ rest)) = true).
  { apply Nat.ltb_lt. rewrite !length_app. simpl. lia. }
  by rewrite Hlt.
Qed.

Lemma star_LINE_stop (k : bytes -> captures -> option A) xs c n :
  forallb not_crlf xs = true ->
  star_iter (rmatch LINE) k n xs c = k xs c.
Proof.
  intros Hxs. destruct n as [|n]; [done|].
  by rewrite star_iter_S, rmatch_LINE_none.
Qed.
End ClassRuns.

(** ** The header lines of [send_message] under [MESSAGE_PATTERN] *)

Lemma not_crlf_ne (y : byte) :
  not_crlf y = true -> Byte.eqb CR y = false /\ Byte.eqb LF y = false.
Proof. destruct y; intros Hy; first [done | vm_compute in Hy; discriminate]. Qed.

Lemma digit_not_crlf (y : byte) : digit y = true -> not_crlf y = true.
Proof. destruct y; intros Hy; first [done | vm_compute in Hy; discriminate]. Qed.

Lemma not_crlf_semi_not_crlf (y : byte) :
  not_crlf_semi y = true -> not_crlf y = true.
Proof. unfold not_crlf_semi. by intros [? _]%andb_true_iff. Qed.

Lemma not_crlf_semi_ne (y : byte) :
  not_crlf_semi y = true -> Byte.eqb x3b y = false.
Proof. destruct y; intros Hy; first [done | vm_compute in Hy; discriminate]. Qed.

Lemma forallb_digit_not_crlf (ds : bytes) :
  forallb digit ds = true -> forallb not_crlf ds = true.
Proof.
  rewrite !forallb_forall. intros Hd y Hy. apply digit_not_crlf. auto.
Qed.

Section HeaderLines.
Context {A : Type}.
Implicit Types (k : bytes -> captures -> option A) (c : captures).

Lemma rmatch_Alt (r1 r2 : regex) s c k :
  rmatch (Alt r1 r2) s c k =
  match rmatch r1 s c k with
  | Some x => Some x
  | None => rmatch r2 s c k
  end.
Proof. reflexivity. Qed.

Lemma rmatch_Opt (r : regex) s c k :
  rmatch (Opt r) s c k =
  match rmatch r s c k with
  | Some x => Some x
  | None => k s c
  end.
Proof. reflexivity. Qed.

(** A literal does not match an input that starts with another byte. *)
Lemma rmatch_Lit_ne x bs y s c k :
  Byte.eqb x y = false -> rmatch (Lit (x :: bs)) (y :: s) c k = None.
Proof. intros Hxy. rewrite rmatch_Lit. simpl. by rewrite Hxy. Qed.

(** A pattern that ends with a line break needs one in its input. *)
Lemma line_break_needed (r : regex) xs c k :
  forallb not_crlf xs = true -> rmatch (r · Lit crlf) xs c k = None.
Proof.
  intros Hxs. destruct (rmatch _ xs c k) as [x|] eqn:E; [|done].
  rewrite rmatch_Seq in E.
  apply rmatch_split in E as (s1 & c1 & pre & E & -> & _).
  rewrite rmatch_Lit in E.
  destruct (strip_prefix crlf s1) as [s2|] eqn:E1; [|done].
  apply strip_prefix_Some in E1 as ->.
  rewrite !forallb_app in Hxs. simpl in Hxs.
  by apply andb_true_iff in Hxs as [_ Hxs].
Qed.

Lemma CONTENT_LENGTH_LINE_needs_line_break xs c k :
  forallb not_crlf xs = true -> rmatch CONTENT_LENGTH_LINE xs c k = None.
Proof. apply line_break_needed. Qed.

Lemma CONTENT_LENGTH_LINE_needs_literal xs c k :
  strip_prefix (b "Content-Length:") xs = None ->
  rmatch CONTENT_LENGTH_LINE xs c k = None.
Proof.
  intros Hxs. unfold CONTENT_LENGTH_LINE.
  by rewrite !rmatch_Seq, rmatch_Lit, Hxs.
Qed.

(** The [Content-Length] line: the digits are captured and the rest of the
    pattern goes on after the line break. *)
Lemma rmatch_CONTENT_LENGTH_LINE ds rest c k :
  ds <> [] -> forallb digit ds = true ->
  rmatch CONTENT_LENGTH_LINE (b "Content-Length: " ++ ds ++ crlf ++ rest) c k
  = k rest (("length", ds) :: c).
Proof.
  intros Hne Hds. unfold CONTENT_LENGTH_LINE.
  rewrite !rmatch_Seq, rmatch_Lit.
  assert (E1 : forall X, strip_prefix (b "Content-Length:")
                 (b "Content-Length: " ++ X) = Some (b " " ++ X))
    by reflexivity.
  rewrite E1. rewrite rmatch_Opt.
  assert (Hrun : forall c',
    rmatch (Group "length" (Plus (Class digit))) (ds ++ crlf ++ rest) c'
      (fun s3 c3 => rmatch (Lit crlf) s3 c3 k)
    = k rest (("length", ds) :: c')).
  { intros c'. rewrite rmatch_Group, plus_class_run; try done.
    - by rewrite take_consumed, rmatch_Lit, strip_prefix_app.
    - intros y s' Hy. apply rmatch_Lit_ne.
      by apply not_crlf_ne, digit_not_crlf. }
  rewrite rmatch_Lit.
  assert (E2 : forall X, strip_prefix (b " ") (b " " ++ X) = Some X)
    by reflexivity.
  rewrite E2, Hrun.
  destruct (k rest _) as [x|]; [done|].
  rewrite rmatch_Group. by apply plus_class_none.
Qed.
End HeaderLines.

Section HeaderLines2.
Context {A : Type}.
Implicit Types (k : bytes -> captures -> option A) (c : captures).

(** A repetition whose pattern does not match stops at once. *)
Lemma star_iter_stop
    (step : bytes -> captures -> (bytes -> captures -> option A) -> option A)
    k n s c :
  (forall k', step s c k' = None) -> star_iter step k n s c = k s c.
Proof.
  intros Hs. destruct n as [|n]; [done|]. by rewrite star_iter_S, Hs.
Qed.

(** [ *] before [charset=]: the one blank of the header is skipped. *)
Lemma star_blank_one rest c k r :
  strip_prefix (b " ") rest = None ->
  k rest c = Some r ->
  rmatch (Star (Lit (b " "))) (b " " ++ rest) c k = Some r.
Proof.
  intros Hrest Hk. rewrite rmatch_Star.
  change (List.length (b " " ++ rest)) with (S (List.length rest)).
  rewrite star_iter_S, rmatch_Lit.
  assert (E : strip_prefix (b " ") (b " " ++ rest) = Some rest)
    by reflexivity.
  rewrite E.
  assert (Hlt : Nat.ltb (List.length rest)
                  (List.length (b " " ++ rest)) = true)
    by (apply Nat.ltb_lt; simpl; lia).
  rewrite Hlt, star_iter_stop, Hk; [done|].
  intros k'. by rewrite rmatch_Lit, Hrest.
Qed.

(** The [Content-Type] line of [send_message]: both groups are captured
    and the rest of the pattern goes on after the line break. *)
Lemma rmatch_CONTENT_TYPE_LINE rest c k r :
  k rest (("charset", b CHARSET) :: ("content_type", b CONTENT_TYPE) :: c)
    = Some r ->
  rmatch CONTENT_TYPE_LINE (content_type_line ++ crlf ++ rest) c k = Some r.
Proof.
  intros Hk. unfold CONTENT_TYPE_LINE, content_type_line.
  rewrite !b_app, <- !app_assoc.
  rewrite !rmatch_Seq, rmatch_Lit.
  assert (E1 : forall X, strip_prefix (b "Content-Type:")
                 (b "Content-Type: " ++ X) = Some (b " " ++ X))
    by reflexivity.
  rewrite E1, rmatch_Opt, rmatch_Lit.
  assert (E2 : forall X, strip_prefix (b " ") (b " " ++ X) = Some X)
    by reflexivity.
  rewrite E2, rmatch_Group, plus_class_run.
  - rewrite take_consumed, rmatch_Opt, !rmatch_Seq, rmatch_Lit.
    assert (E3 : forall X, strip_prefix (b ";") (b "; charset=" ++ X)
                   = Some (b " " ++ b "charset=" ++ X))
      by reflexivity.
    rewrite E3.
    erewrite star_blank_one; [done|done|].
    rewrite rmatch_Opt, rmatch_Seq, rmatch_Lit, strip_prefix_app.
    rewrite rmatch_Group, plus_class_run.
    + by rewrite take_consumed, rmatch_Lit, strip_prefix_app, Hk.
    + done.
    + done.
    + done.
    + intros y s' Hy. apply rmatch_Lit_ne. by apply not_crlf_ne.
  - done.
  - done.
  - done.
  - intros y s' Hy. rewrite rmatch_Opt, !rmatch_Seq.
    change (b ";") with [x3b].
    rewrite rmatch_Lit_ne by by apply not_crlf_semi_ne.
    apply rmatch_Lit_ne. by apply not_crlf_ne, not_crlf_semi_not_crlf.
Qed.

Lemma header_line_needs_text rest c k :
  rmatch (Alt CONTENT_TYPE_LINE OTHER_HEADER_LINE) (crlf ++ rest) c k = None.
Proof.
  rewrite rmatch_Alt. unfold CONTENT_TYPE_LINE, OTHER_HEADER_LINE.
  rewrite !rmatch_Seq, rmatch_Lit.
  assert (E : strip_prefix (b "Content-Type:") (crlf ++ rest) = None)
    by reflexivity.
  rewrite E. by apply plus_class_none.
Qed.

(** The header lines after [Content-Length] that [send_message] writes:
    the [Content-Type] line, up to the blank line. *)
Lemma rmatch_HEADER_LINES rest c k r :
  k (crlf ++ rest)
    (("charset", b CHARSET) :: ("content_type", b CONTENT_TYPE) :: c)
    = Some r ->
  rmatch HEADER_LINES (content_type_line ++ crlf ++ crlf ++ rest) c k
  = Some r.
Proof.
  intros Hk. rewrite HEADER_LINES_eq, rmatch_Star.
  assert (Hlen : exists n, List.length
                   (content_type_line ++ crlf ++ crlf ++ rest) = S n).
  { rewrite length_app. simpl. eauto. }
  destruct Hlen as [n ->].
  rewrite star_iter_S, rmatch_Alt.
  erewrite rmatch_CONTENT_TYPE_LINE; [done|].
  assert (Hlt : Nat.ltb (List.length (crlf ++ rest))
      (List.length (content_type_line ++ crlf ++ crlf ++ rest)) = true).
  { apply Nat.ltb_lt. rewrite !length_app. simpl. lia. }
  rewrite Hlt, star_iter_stop; [done|].
  intros k'. apply header_line_needs_text.
Qed.

(** With no header line after [Content-Length], the blank line is next. *)
Lemma rmatch_HEADER_LINES_none rest c k :
  rmatch HEADER_LINES (crlf ++ rest) c k = k (crlf ++ rest) c.
Proof.
  rewrite HEADER_LINES_eq, rmatch_Star. apply star_iter_stop.
  intros k'. apply header_line_needs_text.
Qed.
End HeaderLines2.

(** ** One frame of [send_message] through [data_received] *)

Lemma frame_header_eq (n : nat) :
  frame_header n
  = b "Content-Length: " ++ b (str_of_nat n) ++ crlf
      ++ content_type_line ++ crlf ++ crlf.
Proof. unfold frame_header. by rewrite b_app, <- app_assoc. Qed.

(** The match of [MESSAGE_PATTERN] on a header as [send_message] writes it,
    followed by bytes without a line break. *)
Lemma MESSAGE_PATTERN_frame (ds body : bytes) :
  ds <> [] -> forallb digit ds = true -> forallb not_crlf body = true ->
  re_match MESSAGE_PATTERN
    (b "Content-Length: " ++ ds ++ crlf
       ++ content_type_line ++ crlf ++ crlf ++ body)
  = Some [("body", body); ("charset", b CHARSET);
          ("content_type", b CONTENT_TYPE); ("length", ds)].
Proof.
  intros Hne Hds Hbody. unfold re_match, MESSAGE_PATTERN.
  rewrite !rmatch_Seq, LEADING_LINES_eq, rmatch_Star.
  set (K := fun (s' : bytes) (c' : captures) => rmatch CONTENT_LENGTH_LINE s' c' _).
  assert (Hlen : exists n, List.length
            (b "Content-Length: " ++ ds ++ crlf
               ++ content_type_line ++ crlf ++ crlf ++ body)
            = S (S (S n))).
  { rewrite !length_app. simpl. eauto. }
  destruct Hlen as [n ->].
  replace (b "Content-Length: " ++ ds ++ crlf
             ++ content_type_line ++ crlf ++ crlf ++ body)
    with ((b "Content-Length: " ++ ds) ++ crlf
             ++ content_type_line ++ crlf ++ [] ++ crlf ++ body)
    by by rewrite <- app_assoc.
  rewrite star_LINE_step
    by (rewrite forallb_app; apply andb_true_iff; split;
        [done|by apply forallb_digit_not_crlf]).
  rewrite star_LINE_step by done.
  rewrite star_LINE_step by done.
  rewrite star_LINE_stop by done.
  unfold K at 1. rewrite CONTENT_LENGTH_LINE_needs_line_break by done.
  unfold K at 1. rewrite CONTENT_LENGTH_LINE_needs_literal by done.
  unfold K at 1. rewrite CONTENT_LENGTH_LINE_needs_literal by done.
  unfold K. rewrite <- app_assoc, rmatch_CONTENT_LENGTH_LINE by done.
  change ([] ++ crlf ++ body) with (crlf ++ body).
  erewrite rmatch_HEADER_LINES; [done|].
  by rewrite rmatch_Lit, strip_prefix_app, rmatch_BODY.
Qed.

Section FrameDelivery.
Context {St : Type} (_handle_body : bytes -> string -> St -> St * option exn).

Lemma data_received_nil message_buf st :
  data_received _handle_body message_buf [] st = (st, message_buf, None).
Proof. by rewrite data_received_unfold. Qed.

Lemma data_received_frame (body : bytes) (st : St) :
  forallb not_crlf body = true ->
  data_received _handle_body [] (frame_header (List.length body) ++ body) st
  = delivered _handle_body body st.
Proof.
  intros Hbody. rewrite data_received_unfold.
  destruct (frame_header _ ++ body) as [|x data] eqn:E.
  { apply (f_equal List.length) in E. by rewrite frame_header_eq in E. }
  rewrite <- E. clear E x data. cbv zeta. rewrite app_nil_l.
  destruct (str_of_nat_digits (List.length body)) as (Hne & Hds & Hint).
  rewrite frame_header_eq, <- !app_assoc.
  rewrite MESSAGE_PATTERN_frame by done.
  unfold found_charset, found_length, found_body. simpl group.
  simpl default. rewrite Hint, N.ltb_irrefl, Nat2N.id.
  rewrite firstn_all, skipn_all.
  unfold delivered.
  assert (Hc : decode_ascii (b CHARSET) = inr CHARSET) by reflexivity.
  rewrite Hc.
  destruct (_handle_body body CHARSET st) as [st' [e|]]; [done|].
  apply data_received_nil.
Qed.

(** X1. The round trip of one message: the frame [send_message] writes
    for a body without a line break, received in one chunk by a framer
    with an empty buffer, hands exactly this body to [_handle_body], with
    the charset of the header, and leaves the buffer empty. *)
Theorem frame_round_trip (body : bytes) (st : St) :
  forallb not_crlf body = true ->
  data_received _handle_body [] (framed body) st
  = delivered _handle_body body st.
Proof. apply data_received_frame. Qed.

(** A frame that arrives with its body cut in two: the first chunk is
    only buffered, the second one completes the frame, and the body is
    handed over as if the frame had come in one chunk. *)
Lemma data_received_frame_split (body1 body2 : bytes) (st : St) :
  forallb not_crlf (body1 ++ body2) = true -> body2 <> [] ->
  let header := frame_header (List.length (body1 ++ body2)) in
  data_received _handle_body [] (header ++ body1) st
    = (st, header ++ body1, None) /\
  data_received _handle_body (header ++ body1) body2 st
    = delivered _handle_body (body1 ++ body2) st.
Proof.
  intros Hbody Hne2 header.
  assert (H1 : data_received _handle_body [] (header ++ body1) st
               = (st, header ++ body1, None)).
  { rewrite data_received_unfold.
    destruct (header ++ body1) as [|x data] eqn:E; [done|].
    rewrite <- E. clear E x data. cbv zeta. rewrite app_nil_l.
    destruct (str_of_nat_digits (List.length (body1 ++ body2)))
      as (Hne & Hds & Hint).
    subst header. rewrite frame_header_eq, <- !app_assoc.
    rewrite forallb_app in Hbody. apply andb_true_iff in Hbody as [Hb1 Hb2].
    rewrite MESSAGE_PATTERN_frame by done.
    unfold found_charset, found_length, found_body. simpl group.
    simpl default. rewrite Hint.
    assert (Hc : decode_ascii (b CHARSET) = inr CHARSET) by reflexivity.
    rewrite Hc.
    assert (Hlt : (N.of_nat (List.length body1)
                   <? N.of_nat (List.length (body1 ++ body2)))%N = true).
    { apply N.ltb_lt. rewrite length_app.
      destruct body2; [done|simpl; lia]. }
    by rewrite Hlt. }
  split; [exact H1|].
  rewrite <- (app_nil_l (header ++ body1)).
  rewrite (data_received_buffered _handle_body [] _ _ _ Hne2 H1).
  rewrite <- app_assoc. by apply data_received_frame.
Qed.
End FrameDelivery.

(** ** Several frames in one chunk *)

Lemma next_line_app (xs rest : bytes) :
  forallb not_crlf xs = true -> next_line (xs ++ crlf ++ rest) = Some rest.
Proof.
  induction xs as [|x xs IH]; simpl; [done|].
  intros [Hx Hxs]%andb_true_iff. rewrite Hx. auto.
Qed.

Lemma next_line_none (xs : bytes) :
  forallb not_crlf xs = true -> next_line xs = None.
Proof.
  induction xs as [|x xs IH]; simpl; [done|].
  intros [Hx Hxs]%andb_true_iff. rewrite Hx. auto.
Qed.

Lemma next_line_shorter (s s' : bytes) :
  next_line s = Some s' -> List.length s' < List.length s.
Proof.
  induction s as [|x s IH]; simpl; [done|].
  destruct (not_crlf x).
  - intros Hs. apply IH in Hs. lia.
  - destruct (Byte.eqb CR x); [|done].
    intros Hs. change (strip_prefix [LF] s = Some s') in Hs.
    apply strip_prefix_Some in Hs as ->. simpl. lia.
Qed.

Lemma line_starts_app (n : nat) (xs rest : bytes) :
  forallb not_crlf xs = true ->
  line_starts (S n) (xs ++ crlf ++ rest) = rest :: line_starts n rest.
Proof. intros Hxs. cbn [line_starts]. by rewrite next_line_app. Qed.

Section Lines.
Context {A : Type}.
Implicit Types (k : bytes -> captures -> option A) (c : captures).

Lemma star_not_crlf_next k n s c :
  List.length s <= n ->
  star_iter (rmatch (Class not_crlf))
    (fun s' c' => rmatch (Lit crlf) s' c' k) n s c
  = match next_line s with
    | Some s' => k s' c
    | None => None
    end.
Proof.
  revert n. induction s as [|x s IH]; intros n Hn.
  - destruct n as [|n]; [done|]. by rewrite star_iter_S.
  - destruct n as [|n]; [simpl in Hn; lia|].
    rewrite star_iter_S, rmatch_Class_cons. simpl next_line.
    destruct (not_crlf x) eqn:Hx.
    + assert (Hlt : Nat.ltb (List.length s) (List.length (x :: s)) = true)
        by (apply Nat.ltb_lt; simpl; lia).
      rewrite Hlt, IH by (simpl in Hn; lia).
      rewrite Lit_crlf_not_crlf by done.
      destruct (next_line s) as [s'|]; [|done]. by destruct (k s' c).
    + by rewrite rmatch_Lit.
Qed.

(** [[^\r\n]*\r\n] takes the first line, when there is one. *)
Lemma rmatch_LINE_next k s c :
  rmatch LINE s c k
  = match next_line s with
    | Some s' => k s' c
    | None => None
    end.
Proof.
  unfold LINE. rewrite rmatch_Seq, rmatch_Star.
  by apply star_not_crlf_next.
Qed.

(** When the rest of the pattern fails at the start of every later
    line, the lines before [Content-Length] are none. *)
Lemma leading_lines_skip k c n s :
  Forall (fun t => k t c = None) (line_starts n s) ->
  star_iter (rmatch LINE) k n s c = k s c.
Proof.
  revert s. induction n as [|n IH]; intros s Hs; [done|].
  rewrite star_iter_S, rmatch_LINE_next. simpl in Hs.
  destruct (next_line s) as [s'|] eqn:E; [|done].
  apply Forall_cons in Hs as [Hs' Hs].
  apply next_line_shorter, Nat.ltb_lt in E.
  by rewrite E, IH, Hs'.
Qed.
End Lines.

(** [Content-Length:] is not at the start of a plain body. *)
Lemma plain_body_not_crlf (body : bytes) :
  plain_body body = true -> forallb not_crlf body = true.
Proof. unfold plain_body. by intros [? _]%andb_true_iff. Qed.

Lemma plain_body_no_literal (body rest : bytes) :
  plain_body body = true ->
  strip_prefix (b "Content-Length:") (body ++ rest) = None.
Proof.
  unfold plain_body. intros [_ Hb]%andb_true_iff.
  destruct body as [|x body]; [done|]. simpl.
  destruct (Byte.eqb "C" x) eqn:E; [|done].
  apply Byte.byte_dec_bl in E. subst x. done.
Qed.

(** In a chunk of frames with plain bodies, [Content-Length:] is at the
    start of no line but the first. *)
Lemma frames_line_starts {A} (bodies : list bytes) :
  forallb plain_body bodies = true ->
  forall (body0 : bytes) (n : nat),
    forallb not_crlf body0 = true ->
    Forall (fun t => forall c (k : bytes -> captures -> option A),
              rmatch CONTENT_LENGTH_LINE t c k = None)
      (line_starts n (body0 ++ concat (List.map framed bodies))).
Proof.
  induction bodies as [|body bodies IH]; intros Hb body0 n H0.
  - simpl. rewrite app_nil_r.
    destruct n as [|n]; simpl; [done|]. by rewrite next_line_none.
  - simpl in Hb. apply andb_true_iff in Hb as [Hbody Hb].
    destruct (str_of_nat_digits (List.length body)) as (_ & Hds & _).
    cbn [concat List.map]. unfold framed at 1. rewrite frame_header_eq.
    replace (body0 ++ ((b "Content-Length: " ++ b (str_of_nat (List.length body))
               ++ crlf ++ content_type_line ++ crlf ++ crlf) ++ body)
               ++ concat (List.map framed bodies))
      with ((body0 ++ b "Content-Length: " ++ b (str_of_nat (List.length body)))
              ++ crlf ++ content_type_line ++ crlf ++ [] ++ crlf
              ++ body ++ concat (List.map framed bodies))
      by (rewrite <- !app_assoc; done).
    destruct n as [|n]; [done|].
    rewrite line_starts_app
      by (by rewrite !forallb_app, H0, (forallb_digit_not_crlf _ Hds)).
    apply Forall_cons. split.
    { intros c k. by apply CONTENT_LENGTH_LINE_needs_literal. }
    destruct n as [|n]; [done|].
    rewrite line_starts_app by done.
    apply Forall_cons. split.
    { intros c k. by apply CONTENT_LENGTH_LINE_needs_literal. }
    destruct n as [|n]; [done|].
    rewrite line_starts_app by done.
    apply Forall_cons. split.
    { intros c k. apply CONTENT_LENGTH_LINE_needs_literal.
      by apply plain_body_no_literal. }
    apply IH; [done|]. by apply plain_body_not_crlf.
Qed.

(** The match of [MESSAGE_PATTERN] on a chunk of frames with plain
    bodies: the first header, and all that follows it as the body. *)
Lemma MESSAGE_PATTERN_frames (body : bytes) (bodies : list bytes) :
  forallb plain_body (body :: bodies) = true ->
  re_match MESSAGE_PATTERN (concat (List.map framed (body :: bodies)))
  = Some [("body", body ++ concat (List.map framed bodies));
          ("charset", b CHARSET); ("content_type", b CONTENT_TYPE);
          ("length", b (str_of_nat (List.length body)))].
Proof.
  intros Hb. unfold re_match, MESSAGE_PATTERN.
  rewrite !rmatch_Seq, LEADING_LINES_eq, rmatch_Star.
  rewrite leading_lines_skip.
  - destruct (str_of_nat_digits (List.length body)) as (Hne & Hds & _).
    cbn [concat List.map]. unfold framed at 1.
    rewrite frame_header_eq, <- !app_assoc.
    rewrite rmatch_CONTENT_LENGTH_LINE by done.
    erewrite rmatch_HEADER_LINES; [done|].
    by rewrite rmatch_Lit, strip_prefix_app, rmatch_BODY.
  - pose proof (frames_line_starts (A := captures) _ Hb []
                  (List.length (concat (List.map framed (body :: bodies))))
                  eq_refl) as Hf.
    rewrite app_nil_l in Hf.
    eapply Forall_impl; [exact Hf|]. intros t Ht. apply Ht.
Qed.

Section ManyFrames.
Context {St : Type} (_handle_body : bytes -> string -> St -> St * option exn).

(** X2. Frames that arrive together.  A chunk that holds any number of
    frames as [send_message] writes them, each with a body that has no
    line break and does not begin with [C], received by a framer with an
    empty buffer: the bodies are handed to [_handle_body] one after the
    other, in the order of the frames, each with the charset of its
    header, until a call raises; the buffer is empty afterwards. *)
Theorem frames_in_one_chunk (bodies : list bytes) (st : St) :
  forallb plain_body bodies = true ->
  data_received _handle_body [] (concat (List.map framed bodies)) st
  = deliver_all _handle_body bodies st.
Proof.
  revert st. induction bodies as [|body bodies IH]; intros st Hb.
  - apply data_received_nil.
  - rewrite data_received_unfold.
    destruct (concat (List.map framed (body :: bodies)))
      as [|x data] eqn:E.
    { cbn [concat List.map] in E. unfold framed at 1 in E.
      by rewrite frame_header_eq in E. }
    rewrite <- E. clear E x data. cbv zeta. rewrite app_nil_l.
    rewrite MESSAGE_PATTERN_frames by done.
    destruct (str_of_nat_digits (List.length body)) as (_ & _ & Hint).
    unfold found_charset, found_length, found_body. simpl group.
    simpl default. rewrite Hint, Nat2N.id.
    assert (Hc : decode_ascii (b CHARSET) = inr CHARSET) by reflexivity.
    rewrite Hc.
    assert (Hlt : (N.of_nat (List.length
                     (body ++ concat (List.map framed bodies)))
                   <? N.of_nat (List.length body))%N = false).
    { apply N.ltb_ge. rewrite length_app. lia. }
    rewrite Hlt, take_app_length, drop_app_length. simpl deliver_all.
    destruct (_handle_body body CHARSET st) as [st' [e|]]; [done|].
    apply IH. simpl in Hb. by apply andb_true_iff in Hb as [_ Hb].
Qed.
End ManyFrames.

(** ** A header of [Content-Length] alone, and the end of the loop *)

Lemma MESSAGE_PATTERN_bare_header (ds body : bytes) :
  ds <> [] -> forallb digit ds = true -> forallb not_crlf body = true ->
  re_match MESSAGE_PATTERN (b "Content-Length: " ++ ds ++ crlf ++ crlf ++ body)
  = Some [("body", body); ("length", ds)].
Proof.
  intros Hne Hds Hbody. unfold re_match, MESSAGE_PATTERN.
  rewrite !rmatch_Seq, LEADING_LINES_eq, rmatch_Star.
  rewrite leading_lines_skip.
  - rewrite rmatch_CONTENT_LENGTH_LINE by done.
    rewrite rmatch_HEADER_LINES_none.
    by rewrite rmatch_Lit, strip_prefix_app, rmatch_BODY.
  - generalize (List.length
                  (b "Content-Length: " ++ ds ++ crlf ++ crlf ++ body)).
    intros n.
    replace (b "Content-Length: " ++ ds ++ crlf ++ crlf ++ body)
      with ((b "Content-Length: " ++ ds) ++ crlf ++ [] ++ crlf ++ body)
      by by rewrite <- app_assoc.
    destruct n as [|n]; [done|].
    rewrite line_starts_app
      by (by rewrite forallb_app, (forallb_digit_not_crlf _ Hds)).
    apply Forall_cons. split.
    { by apply CONTENT_LENGTH_LINE_needs_literal. }
    destruct n as [|n]; [done|].
    rewrite line_starts_app by done.
    apply Forall_cons. split.
    { by apply CONTENT_LENGTH_LINE_needs_line_break. }
    destruct n as [|n]; [done|].
    cbn [line_starts]. by rewrite next_line_none.
Qed.

Section BareHeader.
Context {St : Type} (_handle_body : bytes -> string -> St -> St * option exn).

(** X3. A frame whose header is the [Content-Length] line alone, as
    peers send it, with a body without a line break: received in one
    chunk by a framer with an empty buffer, the body is handed to
    [_handle_body] with the default charset [utf-8], and the buffer is
    empty afterwards. *)
Theorem bare_header_round_trip (body : bytes) (st : St) :
  forallb not_crlf body = true ->
  data_received _handle_body []
    (b "Content-Length: " ++ b (str_of_nat (List.length body))
       ++ crlf ++ crlf ++ body) st
  = delivered _handle_body body st.
Proof.
  intros Hbody. rewrite data_received_unfold.
  destruct (b "Content-Length: " ++ _) as [|x data] eqn:E; [done|].
  rewrite <- E. clear E x data. cbv zeta. rewrite app_nil_l.
  destruct (str_of_nat_digits (List.length body)) as (Hne & Hds & Hint).
  rewrite MESSAGE_PATTERN_bare_header by done.
  unfold found_charset, found_length, found_body. simpl group.
  simpl default. rewrite Hint, N.ltb_irrefl, Nat2N.id.
  rewrite firstn_all, skipn_all. unfold delivered.
  destruct (_handle_body body CHARSET st) as [st' [e|]]; [done|].
  apply data_received_nil.
Qed.

(** X4. The loop of [data_received] ends: the bytes an iteration leaves
    for the next one are fewer than the buffer held, so that
    [len(buffer) + len(data) + 1] iterations are always enough, and a
    larger bound on the iterations gives the same result. *)
Theorem data_received_loop_ends
    (fuel : nat) (message_buf data : bytes) (st : St) :
  List.length (message_buf ++ data) < fuel ->
  data_received_loop _handle_body fuel message_buf data st
    = data_received _handle_body message_buf data st
  /\ (message_buf ++ data <> [] ->
      let found := re_match MESSAGE_PATTERN (message_buf ++ data) in
      List.length (drop (N.to_nat (found_length found)) (found_body found))
      < List.length (message_buf ++ data)).
Proof.
  intros Hfuel. split.
  - unfold data_received. apply data_received_loop_enough; [done|lia].
  - intros Hne found.
    pose proof (found_body_shorter (message_buf ++ data) Hne) as Hs.
    fold found in Hs. rewrite length_drop. lia.
Qed.
End BareHeader.

(** ** One frame, however it is cut into chunks *)

Section WithinLine.
Context {A : Type}.
Implicit Types (k : bytes -> captures -> option A) (c : captures).

Lemma star_iter_within
    (step : bytes -> captures -> (bytes -> captures -> option A) -> option A)
    k :
  (forall s c k' x, step s c k' = Some x ->
     exists s' c' pre, k' s' c' = Some x /\ s = pre ++ s'
                       /\ forallb not_crlf pre = true) ->
  forall n s c x, star_iter step k n s c = Some x ->
    exists s' c' pre, k s' c' = Some x /\ s = pre ++ s'
                      /\ forallb not_crlf pre = true.
Proof.
  intros Hstep n. induction n as [|n IH]; intros s c x; simpl.
  - intros Hk. by exists s, c, [].
  - destruct (step s c _) as [y|] eqn:E.
    + intros [= ->]. apply Hstep in E as (s1 & c1 & pre1 & Hk1 & -> & H1).
      destruct (Nat.ltb _ _); [|discriminate].
      apply IH in Hk1 as (s2 & c2 & pre2 & Hk2 & -> & H2).
      exists s2, c2, (pre1 ++ pre2).
      by rewrite <- app_assoc, forallb_app, H1, H2.
    + intros Hk. by exists s, c, [].
Qed.

(** What a pattern within a line consumes has no line break. *)
Lemma rmatch_within_line (r : regex) :
  within_line r ->
  forall s c k x, rmatch r s c k = Some x ->
    exists s' c' pre, k s' c' = Some x /\ s = pre ++ s'
                      /\ forallb not_crlf pre = true.
Proof.
  induction r as [bs|p|r1 IH1 r2 IH2|r1 IH1 r2 IH2|r0 IH0|nm r0 IH0];
    intros Hr s c k x; simpl in *.
  - destruct (strip_prefix bs s) as [s'|] eqn:E; [|discriminate].
    intros Hk. apply strip_prefix_Some in E. by exists s', c, bs.
  - destruct s as [|y s]; [discriminate|].
    destruct (p y) eqn:Ey; [|discriminate].
    intros Hk. exists s, c, [y]. simpl. by rewrite (Hr y Ey).
  - destruct Hr as [Hr1 Hr2]. intros Hm.
    apply (IH1 Hr1) in Hm as (s1 & c1 & pre1 & Hm & -> & H1).
    apply (IH2 Hr2) in Hm as (s2 & c2 & pre2 & Hk & -> & H2).
    exists s2, c2, (pre1 ++ pre2).
    by rewrite <- app_assoc, forallb_app, H1, H2.
  - destruct Hr as [Hr1 Hr2].
    destruct (rmatch r1 s c k) as [y|] eqn:E.
    + intros [= ->]. by apply (IH1 Hr1) in E.
    + by apply (IH2 Hr2).
  - apply star_iter_within. intros s0 c0 k' x0. by apply IH0.
  - intros Hm. apply (IH0 Hr) in Hm as (s1 & c1 & pre1 & Hk & -> & H1).
    by exists s1, ((nm, take (List.length (pre1 ++ s1) - List.length s1)
                      (pre1 ++ s1)) :: c1), pre1.
Qed.

(** A pattern within a line, then a line break: one line. *)
Lemma rmatch_one_line (r : regex) s c k x :
  within_line r ->
  rmatch (r · Lit crlf) s c k = Some x ->
  exists s' c', k s' c' = Some x /\ next_line s = Some s'.
Proof.
  intros Hr Hm. rewrite rmatch_Seq in Hm.
  apply (rmatch_within_line r Hr) in Hm as (s1 & c1 & pre & Hm & -> & Hp).
  rewrite rmatch_Lit in Hm.
  destruct (strip_prefix crlf s1) as [s2|] eqn:E; [|discriminate].
  apply strip_prefix_Some in E as ->.
  exists s2, c1. split; [done|]. by apply next_line_app.
Qed.
End WithinLine.

Lemma blank_line_mono (n n' : nat) (s : bytes) :
  n <= n' -> blank_line n s = true -> blank_line n' s = true.
Proof.
  revert n' s. induction n as [|n IH]; intros n' s Hn; cbn [blank_line].
  - destruct n'; cbn [blank_line]; by destruct (strip_prefix crlf s).
  - destruct n' as [|n']; [lia|]. cbn [blank_line].
    destruct (strip_prefix crlf s); [done|].
    destruct (next_line s) as [t|]; [|done]. apply IH. lia.
Qed.

Lemma blank_line_next (s t : bytes) :
  next_line s = Some t ->
  blank_line (List.length t) t = true ->
  blank_line (List.length s) s = true.
Proof.
  intros Hs Ht. pose proof (next_line_shorter _ _ Hs) as Hlt.
  destruct (List.length s) as [|n] eqn:E; [lia|]. cbn [blank_line].
  destruct (strip_prefix crlf s); [done|]. rewrite Hs.
  apply (blank_line_mono (List.length t)); [lia|done].
Qed.

Lemma within_line_CONTENT_LENGTH :
  within_line (Lit (b "Content-Length:") · Opt (Lit (b " "))
                 · Group "length" (Plus (Class digit)))%re.
Proof.
  simpl. repeat split; try done; apply digit_not_crlf.
Qed.

Lemma within_line_CONTENT_TYPE :
  within_line
    (Lit (b "Content-Type:") · Opt (Lit (b " "))
       · Group "content_type" (Plus (Class not_crlf_semi))
       · Opt (Lit (b ";") · Star (Lit (b " "))
                · Opt (Lit (b "charset=")
                         · Group "charset" (Plus (Class not_crlf)))))%re.
Proof.
  simpl. repeat split; try done; apply not_crlf_semi_not_crlf.
Qed.

Lemma within_line_OTHER : within_line (Plus (Class not_crlf)).
Proof. simpl. by repeat split. Qed.

(** A match of [MESSAGE_PATTERN] has found an empty line after the
    [Content-Length] line. *)
Lemma MESSAGE_PATTERN_blank_line (s : bytes) (m : captures) :
  re_match MESSAGE_PATTERN s = Some m ->
  blank_line (List.length s) s = true.
Proof.
  unfold re_match, MESSAGE_PATTERN.
  rewrite !rmatch_Seq, LEADING_LINES_eq, rmatch_Star.
  set (K3 := fun (s' : bytes) (c' : captures) =>
               rmatch (Lit crlf) s' c' _).
  set (K2 := fun (s' : bytes) (c' : captures) => rmatch HEADER_LINES s' c' K3).
  set (K1 := fun (s' : bytes) (c' : captures) =>
               rmatch CONTENT_LENGTH_LINE s' c' K2).
  assert (H3 : forall t c', K3 t c' = Some m ->
                 blank_line (List.length t) t = true).
  { intros t c' Ht. unfold K3 in Ht. rewrite rmatch_Lit in Ht.
    destruct (strip_prefix crlf t) eqn:E; [|done].
    destruct (List.length t); cbn [blank_line]; by rewrite E. }
  assert (H2 : forall t c', K2 t c' = Some m ->
                 blank_line (List.length t) t = true).
  { intros t c'. unfold K2. rewrite HEADER_LINES_eq, rmatch_Star.
    generalize (List.length t) at 1. intros n. revert t c'.
    induction n as [|n IH]; intros t c'; [apply H3|].
    rewrite star_iter_S, rmatch_Alt.
    set (k' := fun (s' : bytes) (c'0 : captures) => _).
    assert (Hk' : forall t' c'', next_line t = Some t' ->
                    k' t' c'' = Some m ->
                    blank_line (List.length t) t = true).
    { intros t' c'' Hn Hk. unfold k' in Hk.
      destruct (Nat.ltb _ _); [|done].
      apply IH in Hk. by apply (blank_line_next t t'). }
    destruct (rmatch CONTENT_TYPE_LINE t c' k') as [y|] eqn:E1.
    { intros [= ->].
      apply (rmatch_one_line _ _ _ _ _ within_line_CONTENT_TYPE) in E1
        as (t' & c'' & Hk & Hn). eauto. }
    destruct (rmatch OTHER_HEADER_LINE t c' k') as [y|] eqn:E2.
    { intros [= ->].
      apply (rmatch_one_line _ _ _ _ _ within_line_OTHER) in E2
        as (t' & c'' & Hk & Hn). eauto. }
    apply H3. }
  assert (H1 : forall t c', K1 t c' = Some m ->
                 blank_line (List.length t) t = true).
  { intros t c' Ht. unfold K1 in Ht.
    apply (rmatch_one_line _ _ _ _ _ within_line_CONTENT_LENGTH) in Ht
      as (t' & c'' & Hk & Hn).
    apply H2 in Hk. by apply (blank_line_next t t'). }
  generalize (List.length s) at 1. intros n. revert s.
  generalize (@nil (string * bytes)).
  induction n as [|n IH]; intros c s; [apply H1|].
  rewrite star_iter_S, rmatch_LINE_next.
  destruct (next_line s) as [t|] eqn:En; [|apply H1].
  destruct (Nat.ltb _ _); [|apply H1].
  destruct (star_iter _ _ n t c) as [y|] eqn:E; [|apply H1].
  intros [= ->]. apply IH in E. by apply (blank_line_next s t).
Qed.

Lemma prefix_app_cases {T} (p l1 l2 : list T) :
  p `prefix_of` l1 ++ l2 ->
  p `prefix_of` l1 \/ exists q, p = l1 ++ q /\ q `prefix_of` l2.
Proof.
  revert p. induction l1 as [|x l1 IH]; intros p Hp.
  - right. by exists p.
  - destruct p as [|y p]; [left; apply prefix_nil|].
    simpl in Hp. pose proof (prefix_cons_inv_1 _ _ _ _ Hp) as ->.
    apply prefix_cons_inv_2, IH in Hp as [Hp|(q & -> & Hq)].
    + left. by apply prefix_cons.
    + right. by exists q.
Qed.

Lemma prefix_not_crlf (p l : bytes) :
  p `prefix_of` l -> forallb not_crlf l = true -> forallb not_crlf p = true.
Proof.
  intros [q ->]. rewrite forallb_app. by intros [? _]%andb_true_iff.
Qed.

(** Input without an empty line. *)
Lemma blank_line_not_crlf (n : nat) (xs : bytes) :
  forallb not_crlf xs = true -> blank_line n xs = false.
Proof.
  intros Hxs. destruct n; cbn [blank_line];
    rewrite ?(next_line_none xs Hxs);
    destruct xs as [|x xs]; try done; simpl in *;
    apply andb_true_iff in Hxs as [Hx _];
    by rewrite (proj1 (not_crlf_ne x Hx)).
Qed.

Lemma blank_line_lone_CR (n : nat) (xs : bytes) :
  forallb not_crlf xs = true -> blank_line n (xs ++ [CR]) = false.
Proof.
  intros Hxs.
  assert (Hn : next_line (xs ++ [CR]) = None).
  { clear n. induction xs as [|x xs IH]; [done|]. simpl in *.
    apply andb_true_iff in Hxs as [Hx Hxs]. rewrite Hx. auto. }
  assert (Hs : strip_prefix crlf (xs ++ [CR]) = None).
  { destruct xs as [|x xs]; [done|]. simpl in *.
    apply andb_true_iff in Hxs as [Hx _].
    by rewrite (proj1 (not_crlf_ne x Hx)). }
  destruct n; cbn [blank_line]; by rewrite Hs, ?Hn.
Qed.

Lemma blank_line_app (n : nat) (xs t : bytes) :
  xs <> [] -> forallb not_crlf xs = true ->
  blank_line n (xs ++ crlf ++ t)
  = match n with
    | O => false
    | S n' => blank_line n' t
    end.
Proof.
  intros Hne Hxs.
  assert (Hs : strip_prefix crlf (xs ++ crlf ++ t) = None).
  { destruct xs as [|x xs]; [done|]. simpl in *.
    apply andb_true_iff in Hxs as [Hx _].
    by rewrite (proj1 (not_crlf_ne x Hx)). }
  destruct n; cbn [blank_line]; rewrite Hs; [done|].
  by rewrite next_line_app.
Qed.

(** The prefixes of a line break. *)
Lemma prefix_crlf_cases (q rest : bytes) :
  q `prefix_of` crlf ++ rest ->
  q = [] \/ q = [CR] \/ exists q', q = crlf ++ q' /\ q' `prefix_of` rest.
Proof.
  intros Hq. destruct q as [|x [|y q]].
  - by left.
  - right; left. simpl in Hq. by rewrite (prefix_cons_inv_1 _ _ _ _ Hq).
  - right; right. simpl in Hq.
    pose proof (prefix_cons_inv_1 _ _ _ _ Hq) as ->.
    apply prefix_cons_inv_2 in Hq.
    pose proof (prefix_cons_inv_1 _ _ _ _ Hq) as ->.
    apply prefix_cons_inv_2 in Hq. by exists q.
Qed.

(** A part of the header of [send_message] that is not all of it has no
    empty line. *)
Lemma header_prefix_no_blank_line (n len : nat) (p : bytes) :
  p `prefix_of` frame_header len -> p <> frame_header len ->
  blank_line n p = false.
Proof.
  rewrite frame_header_eq.
  destruct (str_of_nat_digits len) as (Hne & Hds & _).
  set (ds := b (str_of_nat len)) in *.
  assert (H1 : forallb not_crlf (b "Content-Length: " ++ ds) = true)
    by (by rewrite forallb_app, (forallb_digit_not_crlf _ Hds)).
  assert (H2 : forallb not_crlf content_type_line = true) by done.
  replace (b "Content-Length: " ++ ds ++ crlf ++ content_type_line
             ++ crlf ++ crlf)
    with ((b "Content-Length: " ++ ds) ++ crlf ++ content_type_line
             ++ crlf ++ crlf) by by rewrite <- app_assoc.
  intros Hp Hneq.
  apply prefix_app_cases in Hp as [Hp|(q & -> & Hq)].
  { apply blank_line_not_crlf. by apply (prefix_not_crlf _ _ Hp). }
  apply prefix_crlf_cases in Hq as [->|[->|(q' & -> & Hq')]].
  { rewrite app_nil_r. by apply blank_line_not_crlf. }
  { by apply blank_line_lone_CR. }
  rewrite blank_line_app by done.
  destruct n as [|n]; [done|].
  apply prefix_app_cases in Hq' as [Hq'|(q & -> & Hq)].
  { apply blank_line_not_crlf. by apply (prefix_not_crlf _ _ Hq'). }
  apply prefix_crlf_cases in Hq as [->|[->|(q' & -> & Hq')]].
  { rewrite app_nil_r. by apply blank_line_not_crlf. }
  { by apply blank_line_lone_CR. }
  rewrite blank_line_app by done.
  destruct n as [|n]; [done|].
  change crlf with (crlf ++ []) in Hq'.
  apply prefix_crlf_cases in Hq' as [->|[->|(q & -> & Hq)]].
  - by apply (blank_line_not_crlf n []).
  - by apply (blank_line_lone_CR n []).
  - apply prefix_nil_inv in Hq as ->. by destruct Hneq.
Qed.

Section AnyChunks.
Context {St : Type} (_handle_body : bytes -> string -> St -> St * option exn).

(** With bytes to add, only the buffer and the bytes together count. *)
Lemma data_received_join message_buf data st :
  data <> [] ->
  data_received _handle_body message_buf data st
  = data_received _handle_body [] (message_buf ++ data) st.
Proof.
  intros Hd. rewrite !data_received_unfold.
  destruct data as [|x data]; [done|].
  by destruct message_buf.
Qed.

(** A part of a frame that is not all of it is only buffered. *)
Lemma data_received_frame_part (body p : bytes) (st : St) :
  forallb not_crlf body = true ->
  p `prefix_of` framed body -> p <> framed body ->
  data_received _handle_body [] p st = (st, p, None).
Proof.
  intros Hbody Hp Hneq. unfold framed in *.
  apply prefix_app_cases in Hp as [Hp|(body1 & -> & [body2 ->])].
  - destruct (List.list_eq_dec Byte.byte_eq_dec p
                (frame_header (List.length body))) as [->|Hh].
    + destruct body as [|x body]; [by rewrite app_nil_r in Hneq|].
      pose proof (data_received_frame_split _handle_body [] (x :: body) st
                    Hbody ltac:(done)) as [Hs _].
      by rewrite !app_nil_r in Hs.
    + apply (data_received_no_match _handle_body []).
      destruct (re_match MESSAGE_PATTERN ([] ++ p)) as [m|] eqn:E; [|done].
      apply MESSAGE_PATTERN_blank_line in E.
      by rewrite (header_prefix_no_blank_line _ _ _ Hp Hh) in E.
  - destruct body2 as [|x body2]; [by rewrite app_nil_r in Hneq|].
    by destruct (data_received_frame_split _handle_body body1 (x :: body2)
                   st Hbody ltac:(done)) as [Hs _].
Qed.
End AnyChunks.

Lemma feed_empty_chunks (chunks : list bytes) buf seen :
  concat chunks = [] -> feed chunks buf seen = (seen, buf, None).
Proof.
  induction chunks as [|chunk chunks IH]; simpl; [done|].
  intros [-> Hc]%app_eq_nil. rewrite data_received_nil. auto.
Qed.

Lemma feed_frame_chunks (body : bytes) (chunks : list bytes) buf seen :
  forallb not_crlf body = true ->
  buf ++ concat chunks = framed body -> buf <> framed body ->
  data_received record_body [] buf seen = (seen, buf, None) ->
  feed chunks buf seen = (seen ++ [(body, CHARSET)], [], None).
Proof.
  intros Hbody. revert buf.
  induction chunks as [|chunk chunks IH]; intros buf Hcat Hneq Hbuf.
  - simpl in Hcat. by rewrite app_nil_r in Hcat.
  - simpl in Hcat. cbn [feed].
    destruct (List.list_eq_dec Byte.byte_eq_dec chunk []) as [->|Hc].
    { rewrite data_received_nil. by apply IH. }
    rewrite data_received_join by done.
    destruct (List.list_eq_dec Byte.byte_eq_dec (buf ++ chunk) (framed body))
      as [Hall|Hpart].
    + rewrite Hall. unfold framed at 1.
      rewrite (data_received_frame record_body body seen Hbody).
      unfold delivered, record_body.
      apply feed_empty_chunks.
      rewrite app_assoc, Hall in Hcat.
      rewrite <- (app_nil_r (framed body)) in Hcat at 2.
      by apply app_inv_head in Hcat.
    + assert (Hp : buf ++ chunk `prefix_of` framed body)
        by (exists (concat chunks); by rewrite <- app_assoc).
      rewrite (data_received_frame_part record_body body _ seen Hbody Hp Hpart).
      apply IH; [by rewrite <- app_assoc|done|].
      apply (data_received_frame_part record_body body _ seen Hbody Hp Hpart).
Qed.

(** X5. One frame, however it is cut.  The frame [send_message] writes for
    a body without a line break, cut into chunks at any places (inside the
    header, inside the body, into chunks of one byte, with empty chunks
    between) and fed chunk by chunk to a framer with an empty buffer: the
    framer hands over the body once, with the charset of the header, after
    the chunk that completes the frame, and its buffer is empty at the
    end. *)
Theorem frame_in_any_chunks (body : bytes) (chunks : list bytes) :
  forallb not_crlf body = true ->
  concat chunks = framed body ->
  feed chunks [] [] = ([(body, CHARSET)], [], None).
Proof.
  intros Hbody Hcat.
  apply (feed_frame_chunks body chunks [] [] Hbody Hcat).
  - unfold framed. rewrite frame_header_eq. done.
  - apply data_received_nil.
Qed.

(** * The registry: parts and removal *)

Section RegistryParts.
Import Registry.

Lemma weakset_add_idemp p l : weakset_add p (weakset_add p l) = weakset_add p l.
Proof.
  unfold weakset_add.
  destruct (existsb _ l) eqn:E; [by rewrite E|].
  by rewrite existsb_app, E, orb_false_l; simpl; rewrite Nat.eqb_refl.
Qed.

(** The methods of the parts [l] on top of [base], as
    [__ensure_initialized] collects them. *)
Lemma part_methods_snoc l q base :
  fold_left (fun acc p => get_methods p ∪ acc) (l ++ [q]) base
  = get_methods q ∪ fold_left (fun acc p => get_methods p ∪ acc) l base.
Proof. by rewrite fold_left_app. Qed.

Lemma part_methods_some l base n :
  (exists p, p ∈ l /\ is_Some (get_methods p !! n)) ->
  exists q e, q ∈ l /\ get_methods q !! n = Some e
    /\ fold_left (fun acc p => get_methods p ∪ acc) l base !! n = Some e.
Proof.
  induction l as [|q l IH] using rev_ind; intros (p & Hp & Hn).
  - by apply elem_of_nil in Hp.
  - rewrite part_methods_snoc.
    destruct (get_methods q !! n) as [e|] eqn:E.
    + exists q, e. split; [apply elem_of_app; right; by apply list_elem_of_singleton|].
      split; [done|]. by apply lookup_union_Some_l.
    + apply elem_of_app in Hp as [Hp|Hp].
      * destruct IH as (q' & e & Hq' & He & Hf); [eauto|].
        exists q', e. split; [apply elem_of_app; by left|].
        split; [done|]. by rewrite lookup_union_r.
      * apply list_elem_of_singleton in Hp as ->.
        rewrite E in Hn. by destruct Hn.
Qed.

Lemma part_methods_none l base n :
  (forall p, p ∈ l -> get_methods p !! n = None) ->
  fold_left (fun acc p => get_methods p ∪ acc) l base !! n = base !! n.
Proof.
  induction l as [|q l IH] using rev_ind; intros Hl; [done|].
  rewrite part_methods_snoc, lookup_union_r.
  - apply IH. intros p Hp. apply Hl, elem_of_app. by left.
  - apply Hl, elem_of_app. right. by apply list_elem_of_singleton.
Qed.

Lemma owner_add_class_part_instances l r :
  owner (fold_left (fun r p => add_class_part_instance p r) l r) = owner r.
Proof.
  revert r. induction l as [|q l IH]; intros r; [done|]. simpl.
  by rewrite IH.
Qed.

(** X6. A part instance that is created later discards the methods
    that [add_method] registered: [add_class_part_instance] resets the
    registry, and the next lookup collects the methods of the owner and
    of the parts again.  The registry is what it would be had
    [add_method] not been called on the initialized registry. *)
Theorem part_instance_discards_added_methods
    (r : RpcRegistry) (p : rpc_object) (n : string) (f : handler)
    (pt : option string) (c : bool) :
  add_class_part_instance p (add_method n f pt c r)
  = add_class_part_instance p (ensure_initialized r)
  /\ methods (add_class_part_instance p (add_method n f pt c r)) = ∅
  /\ initialized (add_class_part_instance p (add_method n f pt c r))
     = false.
Proof. done. Qed.

(** X7. [remove_method] undoes [add_method]: it returns the entry that
    was registered under the name, and the name has no entry
    afterwards, also when the owner or a part declares a method of this
    name. *)
Theorem remove_method_after_add_method
    (r : RpcRegistry) (n : string) (f : handler) (pt : option string)
    (c : bool) :
  let removed := remove_method n (add_method n f pt c r) in
  snd removed
  = Some {| name := n; method := f; param_type := pt; cancelable := c |}
  /\ methods (fst removed) = delete n (methods (ensure_initialized r))
  /\ snd (get_entry n (fst removed)) = None
  /\ forall n', n' <> n ->
       snd (get_entry n' (fst removed)) = snd (get_entry n' r).
Proof.
  intros removed. subst removed. unfold remove_method.
  rewrite ensure_initialized_add_method.
  assert (Hi : forall m,
    ensure_initialized
      (set_methods m (add_method n f pt c r))
    = set_methods m (add_method n f pt c r)).
  { intros m. unfold ensure_initialized at 1. simpl.
    by rewrite ensure_initialized_initialized. }
  unfold get_entry. simpl fst. simpl snd. rewrite Hi.
  unfold add_method. simpl.
  rewrite lookup_insert_eq, delete_insert_eq.
  repeat split.
  - apply lookup_delete_eq.
  - intros n' Hn. by rewrite lookup_delete_ne.
Qed.

(** X8. A part declared twice is one part: [add_class_part_instance]
    on an instance that is in the set already changes nothing more than
    the reset it does. *)
Theorem add_class_part_instance_twice (r : RpcRegistry) (p : rpc_object) :
  add_class_part_instance p (add_class_part_instance p r)
  = add_class_part_instance p r.
Proof.
  unfold add_class_part_instance, _reset. simpl.
  by rewrite weakset_add_idemp.
Qed.

(** X9. The methods of the parts win over the methods of the owner.
    On a registry that is not initialized yet, a name that a part
    instance declares is looked up to an entry of a part instance, also
    when the owner declares a method of this name; a name that no part
    instance declares is looked up to the method of the owner, or to
    [None]. *)
Theorem part_methods_override_owner
    (r : RpcRegistry) (n : string) :
  initialized r = false ->
  let parts := class_part_instances (ensure_initialized r) in
  ((exists p, p ∈ parts /\ is_Some (get_methods p !! n)) ->
   exists q e, q ∈ parts /\ get_methods q !! n = Some e
               /\ snd (get_entry n r) = Some e)
  /\ ((forall p, p ∈ parts -> get_methods p !! n = None) ->
      snd (get_entry n r) = get_methods (owner r) !! n).
Proof.
  intros Hi parts. subst parts. unfold get_entry, ensure_initialized.
  rewrite Hi. simpl. split.
  - apply part_methods_some.
  - intros Hn. rewrite part_methods_none by done.
    by rewrite owner_add_class_part_instances.
Qed.
End RegistryParts.

(** * Responses to sent requests *)

Section Responses.
Context `{Codec}.
Import State.

(** [handle_response] on a pending future whose result [from_dict]
    accepts, for each loop of the future. *)
Lemma handle_response_converted s i entry fut mc result res :
  _sended_request s !! i = Some entry ->
  futures s !! se_future entry = Some fut ->
  f_state fut = Pending mc ->
  match result with
  | JNull => inr JNull
  | _ => from_dict result (se_result_type entry)
  end = inr res ->
  handle_response (Some i) result s
  = let popped := set_sended_request (delete i (_sended_request s)) s in
    match f_loop fut with
    | RunningLoop =>
        (set_futures
           (<[se_future entry := future_set (inr res) fut]> (futures s))
           popped, None)
    | OtherLoopRunning =>
        (schedule (SetResultIfNotDone (se_future entry) res) popped, None)
    | OtherLoopStopped | OtherLoopClosed => (popped, None)
    end.
Proof.
  intros Hi Hf Hs Hres. unfold handle_response. rewrite Hi. simpl.
  rewrite Hf. unfold future_done. rewrite Hs, Hres.
  destruct (f_loop fut); try done.
  unfold update_future. simpl. by rewrite Hf.
Qed.

(** X10. A request and its answer.  On a connection whose outstanding ids
    were given out by the counter, [send_request] followed by the
    response that carries the id of the request, with a result that
    [from_dict] accepts, removes the entry again, so that the table is
    what it was before the request, writes nothing and raises nothing.
    What becomes of the future that [send_request] returned depends on
    its loop.  On the running loop it is resolved at once with the
    converted result.  On another loop that is running it stays pending
    and the setting of the result is handed to that loop with
    [call_soon_threadsafe]; the future has the result once that loop
    runs the call.  On a loop that is not running, stopped or closed, it
    stays pending and nothing is scheduled. *)
Theorem response_resolves_the_request
    (s : JsonRPCProtocol) (meth : string) (params : json)
    (rt : option string) (floop : future_loop) (result res : json) :
  sended_ids_allocated s ->
  match result with
  | JNull => inr JNull
  | _ => from_dict result rt
  end = inr res ->
  let sent := send_request meth params rt floop s in
  let answered :=
    handle_response (Some (IdInt (_sended_request_count s + 1))) result
      (snd sent) in
  let pending :=
    {| f_state := Pending false; f_loop := floop;
       f_done_callback := None |} in
  let resolved :=
    {| f_state := Done (inr res); f_loop := floop;
       f_done_callback := None |} in
  snd answered = None
  /\ _sended_request (fst answered) = _sended_request s
  /\ fst sent = List.length (futures s)
  /\ written (fst answered) = written (snd sent)
  /\ match floop with
     | RunningLoop =>
         futures (fst answered) = futures s ++ [resolved]
         /\ scheduled (fst answered) = scheduled s
     | OtherLoopRunning =>
         futures (fst answered) = futures s ++ [pending]
         /\ scheduled (fst answered)
            = scheduled s ++ [SetResultIfNotDone (fst sent) res]
         /\ futures (run_scheduled (SetResultIfNotDone (fst sent) res)
                       (fst answered))
            = futures s ++ [resolved]
     | OtherLoopStopped | OtherLoopClosed =>
         futures (fst answered) = futures s ++ [pending]
         /\ scheduled (fst answered) = scheduled s
     end.
Proof.
  intros [H0 Hinv] Hres sent answered pending resolved.
  assert (Hfresh : _sended_request s !! IdInt (_sended_request_count s + 1)
                   = None).
  { destruct (_sended_request s !! _) as [e|] eqn:E; [|done].
    destruct (Hinv (IdInt (_sended_request_count s + 1)))
      as (n & Hn & Hle); [eauto|].
    injection Hn as <-. lia. }
  assert (Hlast : forall f : future,
            <[List.length (futures s) := f]> (futures s ++ [pending])
            = futures s ++ [f]).
  { intros f. by rewrite insert_app_r_alt, Nat.sub_diag by lia. }
  assert (Hat : (futures s ++ [pending]) !! List.length (futures s)
                = Some pending).
  { by rewrite lookup_app_r, Nat.sub_diag by lia. }
  subst answered sent. rewrite send_request_eq. cbn [fst snd].
  erewrite handle_response_converted with
    (entry := {| se_future := List.length (futures s);
                 se_result_type := rt |})
    (fut := pending) (mc := false) (res := res);
    [ | autorewrite with proj; simpl; apply lookup_insert_eq
      | by autorewrite with proj | done | done ].
  subst pending resolved. cbn [f_loop se_future].
  destruct floop; cbn [fst snd];
    (split; [done|]);
    (split; [unfold schedule; autorewrite with proj; simpl;
             by rewrite delete_insert_eq, delete_id|]);
    (split; [done|]);
    (split; [reflexivity|]);
    unfold schedule; simpl; autorewrite with proj; simpl.
  - by rewrite Hlast.
  - repeat split; try done.
    unfold run_scheduled, update_future. simpl.
    autorewrite with proj. simpl. rewrite Hat. simpl.
    autorewrite with proj. simpl. by rewrite Hlast.
  - done.
  - done.
Qed.

(** X11. A response that cannot be matched: with the id [null], or with an
    id that is not in the table of sent requests.  The engine writes one
    error -32603 with the id [null] and a text that names the problem,
    raises nothing and resolves no future; the table is as before. *)
Theorem unmatched_response_is_reported
    (s : JsonRPCProtocol) (id : option rpc_id) (result : json) :
  match id with
  | Some i => _sended_request s !! i = None
  | None => True
  end ->
  let text :=
    match id with
    | Some i => ("Invalid response. Could not find id '" ++ str_of_id i
                   ++ "' in request list.")%string
    | None => "Invalid response. Response id is null."
    end in
  let reply :=
    JsonRPCError None
      {| code := JsonRPCErrors.INTERNAL_ERROR; message := Some text;
         data := JNull |} JNull in
  handle_response id result s = (send_message reply s, None)
  /\ written (send_message reply s) = written s ++ written_for s reply
  /\ _sended_request (send_message reply s) = _sended_request s
  /\ futures (send_message reply s) = futures s.
Proof.
  intros Hid text reply. split.
  - destruct id as [i|]; [|done].
    subst text reply. by rewrite handle_response_unknown_id.
  - by autorewrite with proj.
Qed.

(** X12. A response that comes too late: the future of the request is
    done already (the caller cancelled it, or gave it a result).  The
    entry is removed and nothing else happens: the result is not
    converted, the future keeps its outcome, nothing is written. *)
Theorem late_response_is_dropped
    (s : JsonRPCProtocol) (i : rpc_id) (entry : SendedRequestEntry)
    (fut : future) (o : exn + json) (result : json) :
  _sended_request s !! i = Some entry ->
  futures s !! se_future entry = Some fut ->
  f_state fut = Done o ->
  handle_response (Some i) result s
  = (set_sended_request (delete i (_sended_request s)) s, None).
Proof.
  intros Hi Hf Hs. unfold handle_response. rewrite Hi. simpl.
  rewrite Hf. unfold future_done. by rewrite Hs.
Qed.

(** X13. A response with a result that [from_dict] accepts, for a
    pending future of another loop that is not running, stopped or
    closed: the entry is removed and nothing else changes: the future
    stays pending, nothing is written, nothing is scheduled, and
    nothing is raised. *)
Theorem response_for_stopped_loop_is_lost
    (s : JsonRPCProtocol) (i : rpc_id) (entry : SendedRequestEntry)
    (fut : future) (mc : bool) (result res : json) :
  _sended_request s !! i = Some entry ->
  futures s !! se_future entry = Some fut ->
  f_state fut = Pending mc ->
  f_loop fut = OtherLoopStopped \/ f_loop fut = OtherLoopClosed ->
  match result with
  | JNull => inr JNull
  | _ => from_dict result (se_result_type entry)
  end = inr res ->
  handle_response (Some i) result s
  = (set_sended_request (delete i (_sended_request s)) s, None).
Proof.
  intros Hi Hf Hs Hl Hres. unfold handle_response. rewrite Hi. simpl.
  rewrite Hf. unfold future_done. rewrite Hs, Hres.
  by destruct Hl as [-> | ->].
Qed.

(** X14. A result that [from_dict] rejects, for a pending future.  The
    entry is removed in every case.  [SystemExit] and
    [KeyboardInterrupt] leave [handle_response] with the future still
    pending.  Any other exception becomes the outcome of a future of the
    running loop at once; for a future of another loop, running or
    stopped, [set_exception] is only handed to that loop with
    [call_soon_threadsafe] and the future is still pending; on a closed
    loop that call raises [RuntimeError], which leaves
    [handle_response], and the future stays pending. *)
Theorem response_conversion_failure
    (s : JsonRPCProtocol) (i : rpc_id) (entry : SendedRequestEntry)
    (fut : future) (mc : bool) (result : json) (e : exn) :
  _sended_request s !! i = Some entry ->
  futures s !! se_future entry = Some fut ->
  f_state fut = Pending mc ->
  result <> JNull ->
  from_dict result (se_result_type entry) = inl e ->
  let popped := set_sended_request (delete i (_sended_request s)) s in
  handle_response (Some i) result s
  = if is_exit e then (popped, Some e)
    else
      match f_loop fut with
      | RunningLoop =>
          (set_futures
             (<[se_future entry := future_set (inl e) fut]> (futures s))
             popped, None)
      | OtherLoopRunning | OtherLoopStopped =>
          (schedule (SetException (se_future entry) e) popped, None)
      | OtherLoopClosed =>
          (popped,
           Some (OtherError "RuntimeError" "Event loop is closed"))
      end.
Proof.
  intros Hi Hf Hs Hr He popped. unfold handle_response.
  rewrite Hi. simpl. rewrite Hf. unfold future_done. rewrite Hs.
  assert (Hc : match result with
               | JNull => inr JNull
               | _ => from_dict result (se_result_type entry)
               end = inl e) by by destruct result.
  rewrite Hc. destruct (is_exit e); [done|].
  destruct (f_loop fut); try done.
  unfold update_future. simpl. by rewrite Hf.
Qed.
End Responses.

(** * Notifications, and requests whose parameters do not convert *)

Section Dispatch.
Context `{Codec}.
Import State.

Lemma handle_notification_written meth params s :
  written (fst (handle_notification meth params s)) = written s.
Proof. unfold handle_notification. crunch; auto. Qed.

(** [_handle_messages] only creates tasks. *)
Lemma handle_messages_tasks elements s :
  let r := _handle_messages elements s in
  tasks s `prefix_of` tasks (fst r)
  /\ written (fst r) = written s
  /\ _message_buf (fst r) = _message_buf s
  /\ is_connected (fst r) = is_connected s.
Proof.
  revert s. induction elements as [|d elements IH]; intros s; simpl.
  - done.
  - destruct (inner d) as [e|m]; [done|].
    destruct (IH (set_tasks (tasks s ++ [m]) s)) as (Ht & Hw & Hb & Hc).
    repeat split; try done.
    etrans; [|exact Ht]. by apply prefix_app_r.
Qed.

(** [_handle_body] writes nothing, or one parse error. *)
Lemma handle_body_written body charset s :
  let r := _handle_body body charset s in
  match snd r with
  | Some e => is_reraised e = true /\ written (fst r) = written s
  | None =>
      written (fst r) = written s
      \/ exists e,
           is_reraised e = false
           /\ written (fst r)
              = written s
                ++ written_for s
                     (JsonRPCError None
                        {| code := JsonRPCErrors.PARSE_ERROR;
                           message := Some (describe e);
                           data := JNull |} JNull)
  end.
Proof.
  intros r. subst r. unfold _handle_body.
  destruct (json_loads body charset) as [e|d].
  - destruct (is_reraised e) eqn:E; simpl; [done|].
    unfold send_error. autorewrite with proj.
    right. by exists e.
  - destruct (handle_messages_tasks
                (_generate_json_rpc_messages_from_dict d) s)
      as (_ & Hw & Hb & Hc).
    destruct (_handle_messages _ s) as [s' [e|]]; simpl in *;
      [|by auto].
    destruct (is_reraised e) eqn:E; simpl; [done|].
    unfold send_error. autorewrite with proj.
    right. exists e. split; [done|].
    rewrite Hw. f_equal. by apply written_for_same.
Qed.

(** X15. A notification is never answered.  Whatever the method and the
    parameters (an unknown method, a handler that is not callable,
    parameters that do not convert), [handle_notification] writes
    nothing, stores no received request, and touches neither the sent
    requests nor the futures that exist; the only exceptions that leave
    it are [SystemExit] and [KeyboardInterrupt]. *)
Theorem notification_is_never_answered
    (meth : string) (params : json) (s : JsonRPCProtocol) :
  let r := handle_notification meth params s in
  written (fst r) = written s
  /\ _received_request (fst r) = _received_request s
  /\ _sended_request (fst r) = _sended_request s
  /\ futures s `prefix_of` futures (fst r)
  /\ match snd r with
     | Some e => is_exit e = true
     | None => True
     end.
Proof.
  intros r. subst r. unfold handle_notification.
  destruct (Registry.get_entry meth (registry s)) as [reg [e|]]; simpl;
    [|by repeat split].
  destruct (h_callable (method e)); simpl; [|by repeat split].
  destruct (_convert_params e params) as [ex|]; simpl.
  - destruct (is_exit ex) eqn:E; simpl; by repeat split.
  - repeat split; try done. by apply prefix_app_r.
Qed.

(** X16. A request whose parameters [from_dict] rejects gets no reply
    from [handle_request]: the exception leaves the coroutine, no error
    is written, no task is created and no entry is stored. *)
Theorem request_with_bad_params_is_not_answered
    (id : option rpc_id) (meth : string) (params : json)
    (s : JsonRPCProtocol) (e : RpcMethodEntry) (t : string) (ex : exn) :
  snd (Registry.get_entry meth (registry s)) = Some e ->
  h_callable (method e) = true ->
  params <> JNull ->
  param_type e = Some t ->
  from_dict params (Some t) = inl ex ->
  handle_request id meth params s
  = (set_registry (Registry.ensure_initialized (registry s)) s, Some ex).
Proof.
  intros He Hc Hp Ht Hex. unfold handle_request.
  unfold Registry.get_entry in *. simpl in *. rewrite He, Hc. simpl.
  unfold _convert_params. rewrite Ht, Hex. by destruct params.
Qed.

(** X17. What [_handle_body] can do.  The tasks it creates are added
    behind the ones that wait; it writes nothing, or one error -32700
    with the id [null]; it leaves the rest of the state alone; and the
    only exceptions that leave it are [CancelledError], [SystemExit] and
    [KeyboardInterrupt], after which nothing was written. *)
Theorem handle_body_reports_or_reraises
    (body : bytes) (charset : string) (s : JsonRPCProtocol) :
  let r := _handle_body body charset s in
  tasks s `prefix_of` tasks (fst r)
  /\ core (fst r) = core s
  /\ _message_buf (fst r) = _message_buf s
  /\ match snd r with
     | Some e => is_reraised e = true /\ written (fst r) = written s
     | None =>
         written (fst r) = written s
         \/ exists e,
              is_reraised e = false
              /\ written (fst r)
                 = written s
                   ++ written_for s
                        (JsonRPCError None
                           {| code := JsonRPCErrors.PARSE_ERROR;
                              message := Some (describe e);
                              data := JNull |} JNull)
     end.
Proof.
  intros r.
  split; [|split; [apply core_handle_body|split]].
  - subst r. unfold _handle_body.
    destruct (json_loads body charset) as [e|d].
    + destruct (is_reraised e); simpl; [done|].
      unfold send_error. by autorewrite with proj.
    + destruct (handle_messages_tasks
                  (_generate_json_rpc_messages_from_dict d) s)
        as (Ht & _).
      destruct (_handle_messages _ s) as [s' [e|]]; simpl in *; [|done].
      destruct (is_reraised e); simpl; [done|].
      unfold send_error. by autorewrite with proj.
  - subst r. unfold _handle_body.
    destruct (json_loads body charset) as [e|d].
    + destruct (is_reraised e); simpl; [done|].
      unfold send_error. by autorewrite with proj.
    + destruct (handle_messages_tasks
                  (_generate_json_rpc_messages_from_dict d) s)
        as (_ & _ & Hb & _).
      destruct (_handle_messages _ s) as [s' [e|]]; simpl in *; [|done].
      destruct (is_reraised e); simpl; [done|].
      unfold send_error. by autorewrite with proj.
  - apply handle_body_written.
Qed.
End Dispatch.

Section Disconnected.
Context `{Codec}.
Import State.

Lemma send_message_no_loop m s : _loop s = false -> send_message m s = s.
Proof.
  intros Hl. rewrite send_message_eq. unfold is_connected.
  by rewrite Hl, andb_false_r.
Qed.

Lemma written_for_no_loop m s : _loop s = false -> written_for s m = [].
Proof.
  intros Hl. unfold written_for, is_connected.
  by rewrite Hl, andb_false_r.
Qed.

Lemma handle_body_quiet s0 body charset s :
  quiet s0 s -> quiet s0 (fst (_handle_body body charset s)).
Proof.
  intros [Hl Hw]. split.
  - pose proof (core_handle_body body charset s) as Hc.
    unfold core in Hc. injection Hc as _ Hc _ _ _ _ _ _. by rewrite Hc.
  - pose proof (handle_body_written body charset s) as Hb.
    cbv zeta in Hb.
    destruct (snd (_handle_body body charset s)) as [e|].
    + destruct Hb as [_ ->]. done.
    + destruct Hb as [->|(e & _ & ->)]; [done|].
      by rewrite written_for_no_loop, app_nil_r.
Qed.

Lemma handle_message_quiet s0 m s :
  quiet s0 s -> quiet s0 (fst (handle_message m s)).
Proof.
  intros [Hl Hw].
  destruct m as [meth params|id meth params|id result|id error result];
    simpl.
  - unfold handle_notification. crunch; by split.
  - unfold handle_request, send_error.
    repeat (case_match; simplify_eq; simpl);
      rewrite ?send_message_no_loop by (simpl; done); by split.
  - unfold handle_response, send_error.
    repeat (case_match; simplify_eq; simpl);
      rewrite ?send_message_no_loop by (simpl; done);
      split; simpl; autorewrite with proj; done.
  - by split.
Qed.

Lemma step_quiet s0 ev s :
  is_connection_made ev = false -> quiet s0 s -> quiet s0 (step ev s).
Proof.
  intros Hev [Hl Hw].
  destruct ev as [w| |chunk| |task o|task|meth params rt floop|meth params
                 |id| ]; [done|..].
  - by split.
  - unfold step, protocol_data_received, data_received.
    pose proof (data_received_loop_preserves _handle_body (quiet s0)
                  (handle_body_quiet s0)
                  (S (List.length (_message_buf s ++ chunk)))
                  (_message_buf s) chunk s (conj Hl Hw)) as Hp.
    destruct (data_received_loop _ _ _ _ _) as [[s' buf] e]. simpl in *.
    exact Hp.
  - simpl. destruct (tasks s) as [|m rest]; [by split|].
    by apply handle_message_quiet.
  - unfold step, quiet. crunch; by split.
  - unfold step, done, send_response, send_error.
    repeat (case_match; simplify_eq; simpl);
      rewrite ?send_message_no_loop by (simpl; autorewrite with proj; done);
      split; simpl; autorewrite with proj; done.
  - unfold step. rewrite send_request_eq. simpl.
    rewrite send_message_no_loop by done. by split.
  - unfold step, send_notification.
    rewrite send_message_no_loop by done. by split.
  - pose proof (cancel_request_shell id s) as Hs.
    unfold shell in Hs. injection Hs as _ Hl' _ _ _ _ _ _ Hw' _.
    unfold step. split; congruence.
  - destruct (cancel_all_shell_callbacks s) as [Hs _].
    unfold shell in Hs. injection Hs as _ Hl' _ _ _ _ _ _ Hw' _.
    unfold step. split; congruence.
Qed.

(** X19. Without a loop nothing is written.  Before [connection_made],
    and from [connection_lost] until the next [connection_made], no
    event makes the engine hand bytes to the transport: requests that
    arrive, handlers that finish, and requests and notifications that
    are sent write nothing. *)
Theorem nothing_is_written_without_a_loop
    (evs : list event) (s : JsonRPCProtocol) :
  _loop s = false ->
  forallb (fun ev => negb (is_connection_made ev)) evs = true ->
  written (run evs s) = written s /\ _loop (run evs s) = false.
Proof.
  intros Hl Hevs.
  assert (Hq : quiet s (run evs s)); [|by destruct Hq].
  assert (Hs : quiet s s) by by split.
  revert Hs. generalize s at 2 4. intros s'. revert s'.
  induction evs as [|ev evs IH]; intros s' Hs'; simpl in *; [done|].
  apply andb_true_iff in Hevs as [Hev Hevs].
  apply IH; [done|]. apply step_quiet; [|done].
  by destruct (is_connection_made ev).
Qed.
End Disconnected.

(** * Cancelling all received requests *)

Section CancelAll.
Context `{Codec}.
Import State.

Lemma future_cancel_idemp f : future_cancel (future_cancel f) = future_cancel f.
Proof. unfold future_cancel. by destruct (f_state f) eqn:E; simpl; rewrite ?E. Qed.

Lemma future_cancel_cancelled f :
  future_cancelled f = true -> future_cancel f = f.
Proof.
  unfold future_cancelled, future_cancel. by destruct (f_state f).
Qed.

Lemma cancel_all_futures (s : JsonRPCProtocol) i fut :
  futures s !! i = Some fut ->
  (futures (cancel_all_received_request s) !! i = Some fut
   \/ futures (cancel_all_received_request s) !! i
      = Some (future_cancel fut))
  /\ ((exists k e, _received_request s !! k = Some e
                   /\ re_cancelable e = true /\ re_future e = i) ->
      futures (cancel_all_received_request s) !! i
      = Some (future_cancel fut))
  /\ (~ (exists k e, _received_request s !! k = Some e
                     /\ re_cancelable e = true /\ re_future e = i) ->
      futures (cancel_all_received_request s) !! i = Some fut).
Proof.
  intros Hi. unfold cancel_all_received_request.
  apply (map_fold_weak_ind
    (fun r (m : gmap (option rpc_id) ReceivedRequestEntry) =>
       (futures r !! i = Some fut
        \/ futures r !! i = Some (future_cancel fut))
       /\ ((exists k e, m !! k = Some e
                        /\ re_cancelable e = true /\ re_future e = i) ->
           futures r !! i = Some (future_cancel fut))
       /\ (~ (exists k e, m !! k = Some e
                          /\ re_cancelable e = true /\ re_future e = i) ->
           futures r !! i = Some fut))).
  - split; [by left|]. split; [|done].
    intros (k & e & He & _). by rewrite lookup_empty in He.
  - intros k e m r Hk (IHr & IHy & IHn).
    assert (Hold : forall k' e', m !! k' = Some e' ->
              <[k := e]> m !! k' = Some e').
    { intros k' e' Hk'. rewrite lookup_insert_ne; [done|].
      intros ->. congruence. }
    assert (Hcases : (exists k' e', <[k := e]> m !! k' = Some e'
                        /\ re_cancelable e' = true /\ re_future e' = i) ->
              (re_cancelable e = true /\ re_future e = i)
              \/ exists k' e', m !! k' = Some e'
                   /\ re_cancelable e' = true /\ re_future e' = i).
    { intros (k' & e' & He' & Hc & Hf).
      apply lookup_insert_Some in He' as [[<- <-]|[_ He']]; [by left|].
      right. eauto. }
    destruct (decide (re_cancelable e = true /\ re_future e = i))
      as [[Hc Hj]|Hne].
    + (* the entry points to [i] and is cancelable *)
      assert (Hnew : futures
                match futures r !! re_future e with
                | Some fut0 =>
                    if re_cancelable e && negb (future_cancelled fut0)
                    then update_future (re_future e) future_cancel r
                    else r
                | None => r
                end !! i = Some (future_cancel fut)).
      { rewrite Hj, Hc. simpl.
        destruct IHr as [Hr|Hr]; rewrite Hr.
        - destruct (future_cancelled fut) eqn:Ec; simpl.
          + by rewrite future_cancel_cancelled.
          + rewrite update_future_futures, Hr.
            apply list_lookup_insert_eq. by apply lookup_lt_Some in Hr.
        - destruct (future_cancelled (future_cancel fut)) eqn:Ec; simpl;
            [done|].
          rewrite update_future_futures, Hr, future_cancel_idemp.
          apply list_lookup_insert_eq. by apply lookup_lt_Some in Hr. }
      rewrite Hnew. split; [by right|]. split; [done|].
      intros Hn. destruct Hn. exists k, e. by rewrite lookup_insert_eq.
    + (* the entry does not concern [i] *)
      assert (Hsame : futures
                match futures r !! re_future e with
                | Some fut0 =>
                    if re_cancelable e && negb (future_cancelled fut0)
                    then update_future (re_future e) future_cancel r
                    else r
                | None => r
                end !! i = futures r !! i).
      { destruct (futures r !! re_future e) as [fut0|] eqn:Ej; [|done].
        destruct (re_cancelable e) eqn:Ec; simpl; [|done].
        destruct (negb _); [|done].
        rewrite update_future_futures, Ej.
        apply list_lookup_insert_ne. intros Hj. by destruct Hne. }
      rewrite Hsame. split; [done|]. split.
      * intros Hy. apply Hcases in Hy as [Hy|Hy]; [done|auto].
      * intros Hn. apply IHn. intros (k' & e' & He' & Hrest).
        apply Hn. exists k', e'. split; [by apply Hold|done].
Qed.

(** X20. [cancel_all_received_request] requests the cancellation of the
    task of every entry that is cancelable, and of no other task: after
    the call, a future that a cancelable entry of the table points to is
    what [cancel()] makes of it (a pending one is asked to cancel, a done
    one is as before), every other future is as before, and nothing but
    the futures has changed. *)
Theorem cancel_all_cancels_the_cancelable (s : JsonRPCProtocol) :
  shell (cancel_all_received_request s) = shell s
  /\ forall i fut, futures s !! i = Some fut ->
       ((exists k e, _received_request s !! k = Some e
                     /\ re_cancelable e = true /\ re_future e = i) ->
        futures (cancel_all_received_request s) !! i
        = Some (future_cancel fut))
       /\ (~ (exists k e, _received_request s !! k = Some e
                          /\ re_cancelable e = true /\ re_future e = i) ->
           futures (cancel_all_received_request s) !! i = Some fut).
Proof.
  split; [apply cancel_all_shell_callbacks|].
  intros i fut Hi. by destruct (cancel_all_futures s i fut Hi) as (_ & ? & ?).
Qed.
End CancelAll.

(** * From [send_message] to the tasks of the peer *)

Section EndToEnd.
Context `{Codec}.
Import State.

(** X21. A message on its way.  When the sender is connected,
    [send_message] writes the frame of the message.  When this frame
    arrives in one chunk at an engine with an empty buffer, and the
    conversions are inverse to each other on this message (the JSON text
    has no line break, [json.loads] gives back one object, [from_dict]
    gives back the message), the receiver creates exactly one task, for
    this message, behind the tasks that wait; it writes nothing, raises
    nothing, and its buffer is empty again. *)
Theorem sent_message_becomes_a_task
    (sender receiver : JsonRPCProtocol) (m : JsonRPCMessage) (d : json) :
  is_connected sender = true ->
  _message_buf receiver = [] ->
  forallb not_crlf (as_json m) = true ->
  json_loads (as_json m) CHARSET = inr d ->
  _generate_json_rpc_messages_from_dict d = [d] ->
  inner d = inr m ->
  written (send_message m sender) = written sender ++ [frame m]
  /\ protocol_data_received (frame m) receiver
     = (set_tasks (tasks receiver ++ [m]) receiver, None).
Proof.
  intros Hc Hbuf Hbody Hloads Hgen Hinner. split.
  - by rewrite send_message_eq, Hc.
  - unfold protocol_data_received, frame. rewrite Hbuf.
    rewrite data_received_frame by done.
    unfold delivered, _handle_body. rewrite Hloads, Hgen. simpl.
    rewrite Hinner. simpl.
    destruct receiver. simpl in *. by subst.
Qed.
End EndToEnd.

(** * The statements on a concrete connection *)

#[local] Existing Instance Demo.demo_codec.

(** C4: headers with a [Content-Length] that is not a number, fed in three
    chunks, the last of them a body: nothing is emitted. *)
Lemma unmatched_input_is_only_buffered_witness :
  let chunks := [b "Content-Length: abc" ++ crlf; crlf; b "{}"] in
  (forall k, k <= List.length chunks ->
     re_match MESSAGE_PATTERN ([] ++ concat (take k chunks)) = None)
  /\ feed chunks [] [] = ([], concat chunks, None).
Proof.
  intros chunks.
  assert (Hm : forall k, k <= List.length chunks ->
            re_match MESSAGE_PATTERN ([] ++ concat (take k chunks)) = None).
  { intros k Hk. destruct k as [|[|[|[|k]]]];
      [vm_compute; reflexivity ..|simpl in Hk; lia]. }
  split; [exact Hm|].
  exact (proj2 (proj2 (unmatched_input_is_only_buffered chunks [] [] Hm))).
Defined.

(** C4: the claim fails on headers without [Content-Length]: the length 1
    does not make the framer emit a body, the input is buffered. *)
Lemma missing_content_length_emits_nothing :
  let input := b "Content-Type: application/vscode-jsonrpc" ++ crlf ++ crlf
                 ++ b "{}" in
  re_match MESSAGE_PATTERN input = None
  /\ found_length (re_match MESSAGE_PATTERN input) = 1%N
  /\ feed [input] [] [] = ([], input, None).
Proof. repeat split; vm_compute; reflexivity. Qed.

(** C5: a batch of a message with version 1.0 and a well-formed
    notification.  The notification is well-formed (alone in a body it
    becomes a task), but after the rejected message it is not dispatched:
    the rejection does not affect that message only. *)
Lemma invalid_version_drops_later_message :
  let bad := Demo.notification "1.0" "ping" in
  let good := Demo.notification "2.0" "ping" in
  let batch := b (Demo.dumps (JArr [bad; good])) in
  json_loads batch "utf-8" = inr (JArr [bad; good])
  /\ inner good = inr (JsonRPCNotification "ping" JNull)
  /\ tasks (fst (_handle_body (b (Demo.dumps good)) "utf-8" Demo.connected))
     = [JsonRPCNotification "ping" JNull]
  /\ tasks (fst (_handle_body batch "utf-8" Demo.connected)) = [].
Proof. repeat split; vm_compute; reflexivity. Qed.

(** C5: a batch with a well-formed notification before and after the
    message with version 1.0: the first becomes a task, the last does not,
    and [_handle_body] returns. *)
Lemma invalid_version_ends_the_body_witness :
  let bad := Demo.notification "1.0" "ping" in
  let good := Demo.notification "2.0" "ping" in
  let body := b (Demo.dumps (JArr [good; bad; good])) in
  let r := _handle_body body "utf-8" Demo.connected in
  json_loads body "utf-8" = inr (JArr [good; bad; good])
  /\ is_protocol_version (JStr "1.0") = false
  /\ tasks (fst r) = [JsonRPCNotification "ping" JNull]
  /\ snd r = None.
Proof.
  intros bad good body r.
  assert (Hbody : json_loads body "utf-8" = inr (JArr [good; bad; good]))
    by (vm_compute; reflexivity).
  assert (Hbefore : Forall2 (fun x m => inner x = inr m) [good]
                      [JsonRPCNotification "ping" JNull])
    by (constructor; [vm_compute; reflexivity|constructor]).
  destruct (invalid_version_ends_the_body Demo.connected body "utf-8"
              (JArr [good; bad; good]) [good] [good]
              [JsonRPCNotification "ping" JNull]
              [("jsonrpc", JStr "1.0"); ("method", JStr "ping")] (JStr "1.0")
              Hbody eq_refl Hbefore eq_refl eq_refl)
    as (_ & Htasks & _ & _ & Hraised).
  split; [exact Hbody|]. split; [reflexivity|].
  split; [exact Htasks|exact Hraised].
Defined.

(** C6: a batch of a request for [nope], which is not registered, and a
    request for [ping], whose handler returns ["pong"]: the error for the
    first and the response for the second are written, in this order, and
    no entry is left. *)
Lemma unknown_method_does_not_stop_the_batch_witness :
  let s := Demo.connected in
  let body := b (Demo.dumps (JArr [Demo.request 1 "nope";
                                   Demo.request 2 "ping"])) in
  let s0 := fst (_handle_body body "utf-8" s) in
  let s2 := step RunTask (step RunTask s0) in
  let s3 := run [TaskFinished (List.length (futures s)) (inr (JStr "pong"));
                 RunDoneCallback (List.length (futures s))] s2 in
  snd (Registry.get_entry "nope" (registry s)) = None
  /\ is_connected s = true
  /\ written s3
     = written s
       ++ written_for s
            (JsonRPCError (Some (IdInt 1))
               {| code := JsonRPCErrors.METHOD_NOT_FOUND;
                  message := Some ("Unknown method: " ++ "nope")%string;
                  data := JNull |} JNull)
       ++ written_for s (JsonRPCResponse (Some (IdInt 2)) (JStr "pong"))
  /\ _received_request s3
     = delete (Some (IdInt 2)) (_received_request s).
Proof.
  intros s body s0 s2 s3.
  assert (Hnope : snd (Registry.get_entry "nope" (registry s)) = None)
    by (vm_compute; reflexivity).
  assert (Hbody : json_loads body "utf-8"
                  = inr (JArr [Demo.request 1 "nope"; Demo.request 2 "ping"]))
    by (vm_compute; reflexivity).
  assert (Hd1 : inner (Demo.request 1 "nope")
                = inr (JsonRPCRequest (Some (IdInt 1)) "nope" JNull))
    by (vm_compute; reflexivity).
  assert (Hd2 : inner (Demo.request 2 "ping")
                = inr (JsonRPCRequest (Some (IdInt 2)) "ping" JNull))
    by (vm_compute; reflexivity).
  assert (Hping : snd (Registry.get_entry "ping" (registry s))
                  = Some {| name := "ping"; method := Demo.ping;
                            param_type := None; cancelable := true |})
    by (vm_compute; reflexivity).
  pose proof (@unknown_method_does_not_stop_the_batch Demo.demo_codec
                s body "utf-8" _ _ _ _ _ _ _ _ _ (JStr "pong")
                eq_refl Hbody Hd1 Hd2 Hnope Hping eq_refl eq_refl) as Hthm.
  exact (conj Hnope (conj eq_refl
           (conj (proj1 (proj2 (proj2 (proj2 (proj2 (proj2 Hthm))))))
                 (proj2 (proj2 (proj2 (proj2 (proj2 (proj2 Hthm))))))))).
Defined.



(** C10: after [connection_lost] the transport is still attached and the
    loop is gone: a notification is dropped, a request is counted and stored
    and not written; a response for its id resolves its future. *)
Lemma send_without_transport_witness :
  let s := connection_lost Demo.connected in
  let r := send_request "ping" JNull None RunningLoop s in
  let answered :=
    handle_response (Some (IdInt (_sended_request_count s + 1))) (JStr "pong")
      (snd r) in
  is_connected s = false
  /\ write_transport s = true
  /\ send_notification "ping" JNull s = s
  /\ written (snd r) = []
  /\ _sended_request_count (snd r) = 1%Z
  /\ _sended_request (snd r) !! IdInt 1
     = Some {| se_future := 0; se_result_type := None |}
  /\ futures (fst answered) !! fst r
     = Some {| f_state := Done (inr (JStr "pong")); f_loop := RunningLoop;
               f_done_callback := None |}.
Proof.
  intros s r answered.
  destruct (send_without_transport s eq_refl) as (_ & _ & _ & Hn & Hr & Ha).
  destruct (Hr "ping" JNull None RunningLoop) as (Hw & Hc & Ht & _).
  destruct (Ha "ping" JNull None (JStr "pong") (JStr "pong") eq_refl)
    as (_ & Hf & _).
  split; [reflexivity|]. split; [reflexivity|]. split; [apply Hn|].
  split; [exact Hw|]. split; [exact Hc|]. split; [exact Ht|exact Hf].
Defined.

(** C10: the claim fails on an engine that has a read transport only.  The
    request 1 is stored and nothing is written for it; the peer's message
    with the result for the id 1 arrives all the same, and the handle of
    the request is resolved by it. *)
Lemma unwritten_request_is_resolved_by_a_reply :
  let reply := JObj [("jsonrpc", JStr "2.0"); ("id", JNum 1);
                     ("result", JStr "ok")] in
  let c := Demo.codec [reply] in
  let s := connection_made false
             (State.init (Registry.init Demo.endpoint [])) in
  let r := @send_request c "workspace/configuration" JNull None
             RunningLoop s in
  let s' := @run c [DataReceived (Demo.wire reply); RunTask] (snd r) in
  write_transport s = false
  /\ written (snd r) = []
  /\ _sended_request (snd r) !! IdInt 1
     = Some {| se_future := fst r; se_result_type := None |}
  /\ futures (snd r) !! fst r
     = Some {| f_state := Pending false; f_loop := RunningLoop;
               f_done_callback := None |}
  /\ futures s' !! fst r
     = Some {| f_state := Done (inr (JStr "ok")); f_loop := RunningLoop;
               f_done_callback := None |}
  /\ _sended_request s' !! IdInt 1 = None
  /\ written s' = [].
Proof. repeat split; vm_compute; reflexivity. Qed.

(** C2: the request 7 for [build], which is registered as not cancelable,
    is running.  [cancel_request] requests the cancellation of its task all
    the same, and when the task ends cancelled the peer is sent error
    -32800; [cancel_all_received_request] leaves the task alone. *)
Lemma cancel_request_ignores_cancelable_witness :
  let id := Some (IdInt 7) in
  let s := run [DataReceived (Demo.wire (Demo.request 7 "build")); RunTask]
               Demo.connected in
  let entry := {| re_future := 0;
                  re_request := JsonRPCRequest id "build" JNull;
                  re_cancelable := false |} in
  let fut := {| f_state := Pending false; f_loop := RunningLoop;
                f_done_callback := Some id |} in
  let cancelled :=
    run [CancelRequest id; TaskFinished 0 (inl CancelledError);
         RunDoneCallback 0] s in
  _received_request s !! id = Some entry
  /\ futures s !! 0 = Some fut
  /\ futures (cancel_request id s)
     = [{| f_state := Pending true; f_loop := RunningLoop;
           f_done_callback := Some id |}]
  /\ cancel_all_received_request s = s
  /\ written cancelled
     = [frame (JsonRPCError id
                 {| code := JsonRPCErrors.REQUEST_CANCELLED;
                    message := Some "Request canceled.";
                    data := JNull |} JNull)].
Proof.
  intros id s entry fut cancelled.
  assert (Hi : _received_request s !! id = Some entry)
    by (vm_compute; reflexivity).
  assert (Hf : futures s !! re_future entry = Some fut)
    by (vm_compute; reflexivity).
  pose proof (cancel_request_ignores_cancelable s id entry fut false
                Hi Hf eq_refl) as Hc.
  split; [exact Hi|]. split; [exact Hf|]. split; [|split].
  - rewrite Hc. vm_compute. reflexivity.
  - vm_compute. reflexivity.
  - vm_compute. reflexivity.
Defined.

(** C1: the request 1 is outstanding when the peer answers it with an
    error.  The entry stays in the table and the future stays pending; a
    response for the same id pops the entry and resolves the future. *)
Lemma error_reply_leaves_request_outstanding :
  let s := snd (send_request "workspace/configuration" JNull None RunningLoop
                  Demo.connected) in
  let error := {| code := -32603; message := Some "failed"; data := JNull |} in
  let after_error :=
    fst (handle_message (JsonRPCError (Some (IdInt 1)) error JNull) s) in
  let after_response :=
    fst (handle_message (JsonRPCResponse (Some (IdInt 1)) (JStr "ok")) s) in
  _sended_request after_error !! IdInt 1
    = Some {| se_future := 0; se_result_type := None |}
  /\ f_state <$> futures after_error !! 0 = Some (Pending false)
  /\ _sended_request after_response !! IdInt 1 = None
  /\ f_state <$> futures after_response !! 0 = Some (Done (inr (JStr "ok"))).
Proof. repeat split; vm_compute; reflexivity. Qed.


(** * The additional properties on concrete inputs *)

(** X1: the frame of the body [{}], received by a framer that records
    what it is given. *)
Lemma frame_round_trip_witness :
  let body := b "{}" in
  forallb not_crlf body = true
  /\ data_received record_body [] (framed body) []
     = delivered record_body body []
  /\ delivered record_body body [] = ([(body, "utf-8")], [], None).
Proof.
  intros body.
  exact (conj eq_refl
           (conj (frame_round_trip record_body body [] eq_refl) eq_refl)).
Defined.

(** X2: three frames in one chunk. *)
Lemma frames_in_one_chunk_witness :
  let bodies := [b "{}"; b "[1]"; b "null"] in
  forallb plain_body bodies = true
  /\ data_received record_body [] (concat (List.map framed bodies)) []
     = deliver_all record_body bodies []
  /\ deliver_all record_body bodies []
     = ([(b "{}", "utf-8"); (b "[1]", "utf-8"); (b "null", "utf-8")],
        [], None).
Proof.
  intros bodies.
  exact (conj eq_refl
           (conj (frames_in_one_chunk record_body bodies [] eq_refl)
                 eq_refl)).
Defined.

(** X5: the frame of [{}] in five chunks: cut inside the header, between
    [\r] and [\n], and inside the body, with an empty chunk. *)
Lemma frame_in_any_chunks_witness :
  let body := b "{}" in
  let chunks :=
    [ b "Content-Len";
      b "gth: 2" ++ [CR];
      [LF] ++ content_type_line ++ crlf ++ crlf ++ b "{";
      [];
      b "}" ] in
  forallb not_crlf body = true
  /\ concat chunks = framed body
  /\ feed chunks [] [] = ([(body, CHARSET)], [], None).
Proof.
  intros body chunks.
  exact (conj eq_refl
           (conj eq_refl (frame_in_any_chunks body chunks eq_refl eq_refl))).
Defined.

(** X3: [Content-Length: 2], a blank line and [{}]. *)
Lemma bare_header_round_trip_witness :
  let body := b "{}" in
  forallb not_crlf body = true
  /\ data_received record_body []
       (b "Content-Length: " ++ b (str_of_nat (List.length body))
          ++ crlf ++ crlf ++ body) []
     = delivered record_body body [].
Proof.
  intros body.
  exact (conj eq_refl (bare_header_round_trip record_body body [] eq_refl)).
Defined.

(** X4: two frames in one chunk, with a bound of 200 iterations. *)
Lemma data_received_loop_ends_witness :
  let data := framed (b "{}") ++ framed (b "[]") in
  List.length ([] ++ data) < 200
  /\ data_received_loop record_body 200 [] data []
     = data_received record_body [] data [].
Proof.
  intros data.
  assert (Hlt : List.length ([] ++ data) < 200)
    by (vm_compute; repeat constructor).
  exact (conj Hlt
           (proj1 (data_received_loop_ends record_body 200 [] data [] Hlt))).
Defined.


(** X10: a request on the concrete connection, made from another loop that
    is running, and its answer. *)
Lemma response_resolves_the_request_witness :
  let s := Demo.connected in
  let sent :=
    send_request "workspace/configuration" JNull (Some "Config")
      OtherLoopRunning s in
  let answered :=
    handle_response (Some (IdInt (_sended_request_count s + 1))) (JStr "ok")
      (snd sent) in
  let pending :=
    {| f_state := Pending false; f_loop := OtherLoopRunning;
       f_done_callback := None |} in
  let resolved :=
    {| f_state := Done (inr (JStr "ok")); f_loop := OtherLoopRunning;
       f_done_callback := None |} in
  sended_ids_allocated s
  /\ from_dict (JStr "ok") (Some "Config") = inr (JStr "ok")
  /\ snd answered = None
  /\ _sended_request (fst answered) = _sended_request s
  /\ fst sent = List.length (futures s)
  /\ written (fst answered) = written (snd sent)
  /\ futures (fst answered) = futures s ++ [pending]
  /\ scheduled (fst answered)
     = scheduled s ++ [SetResultIfNotDone (fst sent) (JStr "ok")]
  /\ futures (run_scheduled (SetResultIfNotDone (fst sent) (JStr "ok"))
                (fst answered))
     = futures s ++ [resolved].
Proof.
  intros s sent answered pending resolved.
  assert (Hs : sended_ids_allocated s)
    by exact (init_sended_ids_allocated (Registry.init Demo.endpoint [])).
  exact (conj Hs (conj eq_refl
           (@response_resolves_the_request Demo.demo_codec s
              "workspace/configuration" JNull (Some "Config")
              OtherLoopRunning (JStr "ok") (JStr "ok") Hs eq_refl))).
Defined.

(** X11: a response for the id 5, which was never given out. *)
Lemma unmatched_response_is_reported_witness :
  let s := Demo.connected in
  let reply :=
    JsonRPCError None
      {| code := JsonRPCErrors.INTERNAL_ERROR;
         message :=
           Some ("Invalid response. Could not find id '"
                   ++ str_of_id (IdInt 5) ++ "' in request list.")%string;
         data := JNull |} JNull in
  _sended_request s !! IdInt 5 = None
  /\ handle_response (Some (IdInt 5)) JNull s = (send_message reply s, None)
  /\ written (send_message reply s) = [frame reply].
Proof.
  intros s reply.
  assert (Hi : _sended_request s !! IdInt 5 = None) by reflexivity.
  pose proof (@unmatched_response_is_reported Demo.demo_codec s
                (Some (IdInt 5)) JNull Hi) as Hthm.
  exact (conj Hi (conj (proj1 Hthm) (proj1 (proj2 Hthm)))).
Defined.

(** X12: the caller has cancelled the future of the request 1 when the
    response arrives. *)
Lemma late_response_is_dropped_witness :
  let s := run [SendRequest "workspace/configuration" JNull None RunningLoop;
                TaskFinished 0 (inl CancelledError)] Demo.connected in
  let entry := {| se_future := 0; se_result_type := None |} in
  let fut := {| f_state := Done (inl CancelledError); f_loop := RunningLoop;
                f_done_callback := None |} in
  _sended_request s !! IdInt 1 = Some entry
  /\ futures s !! se_future entry = Some fut
  /\ handle_response (Some (IdInt 1)) (JStr "late") s
     = (State.set_sended_request (delete (IdInt 1) (_sended_request s)) s,
        None).
Proof.
  intros s entry fut.
  assert (Hi : _sended_request s !! IdInt 1 = Some entry)
    by (vm_compute; reflexivity).
  assert (Hf : futures s !! se_future entry = Some fut)
    by (vm_compute; reflexivity).
  exact (conj Hi (conj Hf
           (@late_response_is_dropped Demo.demo_codec s (IdInt 1) entry fut
              (inl CancelledError) (JStr "late") Hi Hf eq_refl))).
Defined.

(** X13: the future of the request 1 belongs to a loop that has stopped. *)
Lemma response_for_stopped_loop_is_lost_witness :
  let s := snd (send_request "workspace/configuration" JNull None
                  OtherLoopStopped Demo.connected) in
  let entry := {| se_future := 0; se_result_type := None |} in
  let fut := {| f_state := Pending false; f_loop := OtherLoopStopped;
                f_done_callback := None |} in
  _sended_request s !! IdInt 1 = Some entry
  /\ futures s !! se_future entry = Some fut
  /\ from_dict (JStr "ok") (se_result_type entry) = inr (JStr "ok")
  /\ handle_response (Some (IdInt 1)) (JStr "ok") s
     = (State.set_sended_request (delete (IdInt 1) (_sended_request s)) s,
        None).
Proof.
  intros s entry fut.
  assert (Hi : _sended_request s !! IdInt 1 = Some entry)
    by (vm_compute; reflexivity).
  assert (Hf : futures s !! se_future entry = Some fut)
    by (vm_compute; reflexivity).
  exact (conj Hi (conj Hf (conj eq_refl
           (@response_for_stopped_loop_is_lost Demo.demo_codec s (IdInt 1)
              entry fut false (JStr "ok") (JStr "ok") Hi Hf eq_refl
              (or_introl eq_refl) eq_refl)))).
Defined.

(** X14: the request 1 declares the result type [int] and the response
    carries a string; the future belongs to another loop, which has
    stopped, so the exception is only scheduled there. *)
Lemma response_conversion_failure_witness :
  let s := snd (@send_request Strict.codec "sum" JNull (Some "int")
                  OtherLoopStopped Strict.connected) in
  let entry := {| se_future := 0; se_result_type := Some "int" |} in
  let fut := {| f_state := Pending false; f_loop := OtherLoopStopped;
                f_done_callback := None |} in
  let e := OtherError "TypeError" "Value must be of type int" in
  _sended_request s !! IdInt 1 = Some entry
  /\ futures s !! se_future entry = Some fut
  /\ @from_dict Strict.codec (JStr "x") (se_result_type entry) = inl e
  /\ @handle_response Strict.codec (Some (IdInt 1)) (JStr "x") s
     = (schedule (SetException (se_future entry) e)
          (State.set_sended_request (delete (IdInt 1) (_sended_request s)) s),
        None).
Proof.
  intros s entry fut e.
  assert (Hi : _sended_request s !! IdInt 1 = Some entry)
    by (vm_compute; reflexivity).
  assert (Hf : futures s !! se_future entry = Some fut)
    by (vm_compute; reflexivity).
  assert (Hr : JStr "x" <> JNull) by discriminate.
  exact (conj Hi (conj Hf (conj eq_refl
           (@response_conversion_failure Strict.codec s (IdInt 1) entry fut
              false (JStr "x") e Hi Hf eq_refl Hr eq_refl)))).
Defined.

(** X16: the request 3 for [sum], whose parameters must be a number,
    carries a string. *)
Lemma request_with_bad_params_is_not_answered_witness :
  let s := Strict.connected in
  let entry := {| name := "sum"; method := Strict.sum;
                  param_type := Some "int"; cancelable := true |} in
  let ex := OtherError "TypeError" "Value must be of type int" in
  snd (Registry.get_entry "sum" (registry s)) = Some entry
  /\ @from_dict Strict.codec (JStr "x") (Some "int") = inl ex
  /\ @handle_request Strict.codec (Some (IdInt 3)) "sum" (JStr "x") s
     = (State.set_registry (Registry.ensure_initialized (registry s)) s,
        Some ex).
Proof.
  intros s entry ex.
  assert (He : snd (Registry.get_entry "sum" (registry s)) = Some entry)
    by (vm_compute; reflexivity).
  assert (Hp : JStr "x" <> JNull) by discriminate.
  exact (conj He (conj eq_refl
           (@request_with_bad_params_is_not_answered Strict.codec
              (Some (IdInt 3)) "sum" (JStr "x") s entry "int" ex
              He eq_refl Hp eq_refl eq_refl))).
Defined.


(** X19: after [connection_lost], a request arrives, its handler returns,
    and a notification is sent: nothing is written. *)
Lemma nothing_is_written_without_a_loop_witness :
  let s := connection_lost Demo.connected in
  let evs := [DataReceived (Demo.wire (Demo.request 1 "ping")); RunTask;
              TaskFinished 0 (inr (JStr "pong")); RunDoneCallback 0;
              SendNotification "window/logMessage" JNull] in
  _loop s = false
  /\ forallb (fun ev => negb (is_connection_made ev)) evs = true
  /\ written (run evs s) = written s
  /\ _loop (run evs s) = false.
Proof.
  intros s evs.
  exact (conj eq_refl (conj eq_refl
           (@nothing_is_written_without_a_loop Demo.demo_codec evs s
              eq_refl eq_refl))).
Defined.

(** X9: the part declares [ping], and so does the owner; the lookup
    gives the method of the part. *)
Lemma part_methods_override_owner_witness :
  let r := Registry.add_class_part_instance Strict.part
             (Registry.init Demo.endpoint []) in
  initialized r = false
  /\ exists q e,
       q ∈ class_part_instances (Registry.ensure_initialized r)
       /\ Registry.get_methods q !! "ping" = Some e
       /\ snd (Registry.get_entry "ping" r) = Some e.
Proof.
  intros r. split; [reflexivity|].
  apply (proj1 (part_methods_override_owner r "ping" eq_refl)).
  exists Strict.part. split.
  - apply list_elem_of_singleton. reflexivity.
  - eexists. vm_compute. reflexivity.
Defined.

(** X21: a notification from one concrete endpoint to another. *)
Lemma sent_message_becomes_a_task_witness :
  let m := JsonRPCNotification "ping" JNull in
  let c := Demo.codec [Demo.json_of_message m] in
  let s := Demo.connected in
  is_connected s = true
  /\ forallb not_crlf (@as_json c m) = true
  /\ @json_loads c (@as_json c m) CHARSET = inr (Demo.json_of_message m)
  /\ @inner c (Demo.json_of_message m) = inr m
  /\ written (@send_message c m s) = written s ++ [@frame c m]
  /\ @protocol_data_received c (@frame c m) s
     = (State.set_tasks (tasks s ++ [m]) s, None).
Proof.
  intros m c s.
  assert (Hb : forallb not_crlf (@as_json c m) = true)
    by (vm_compute; reflexivity).
  assert (Hl : @json_loads c (@as_json c m) CHARSET
               = inr (Demo.json_of_message m))
    by (vm_compute; reflexivity).
  assert (Hi : @inner c (Demo.json_of_message m) = inr m)
    by (vm_compute; reflexivity).
  exact (conj eq_refl (conj Hb (conj Hl (conj Hi
           (@sent_message_becomes_a_task c s s m (Demo.json_of_message m)
              eq_refl eq_refl Hb Hl eq_refl Hi))))).
Defined.
